(** * A set-associative LRU cache simulator with sequential prefetch

    Shallow embedding of [cache_asociativo.cpp]: the backing store
    ([ExternalMemory]), one cache set with LRU replacement ([CacheSet]),
    the cache with its three counters ([Cache]), the access-pattern
    generator ([RealisticAccessPattern]) and the driver loop.

    Conventions of the embedding.
    - [size_t] is a 64-bit unsigned integer: a value of [N] below [2^64],
      every addition and multiplication followed by [SizeT.wrap].
    - A computation ends in one of four ways ([outcome]): it returns, it
      throws [std::out_of_range], it runs into undefined behaviour
      (division by zero, [pop_back] of an empty list, an index outside a
      vector, a sum of two [int] outside the range of [int]), or it does
      not return at all.
    - The statements whose order matters (the set lookup, the three counter
      increments, the backing-store reads) leave an [event] in a trace that
      the computation carries next to its outcome.
    - The compile-time constants of the source are the fields of [Config];
      [source_config] holds the values written in the file. *)

From Stdlib Require Import NArith ZArith QArith Lia List Bool.
From Stdlib Require Import Floats.SpecFloat.
From stdpp Require Import base tactics option list numbers.

Local Open Scope N_scope.

(** [lia] is to reason about [mod] by a constant: the wrap-around. *)
Ltac Zify.zify_post_hook ::= Z.to_euclidean_division_equations.

(** ** Outcomes *)

Inductive exception := OutOfRange.

Inductive outcome (A : Type) : Type :=
| Returns (a : A)
| Throws (e : exception)
| Undefined
| Diverges.

Arguments Returns {A} a.
Arguments Throws {A} e.
Arguments Undefined {A}.
Arguments Diverges {A}.

Definition obind {A B : Type} (o : outcome A) (k : A -> outcome B) : outcome B :=
  match o with
  | Returns a => k a
  | Throws e => Throws e
  | Undefined => Undefined
  | Diverges => Diverges
  end.

(** ** Machine integers *)

Module SizeT.
Definition modulus : N := 2 ^ 64.
Definition max : N := modulus - 1.
Definition wrap (x : N) : N := x mod modulus.
Definition add (a b : N) : N := wrap (a + b).
Definition sub (a b : N) : N := wrap (a + modulus - wrap b).
Definition mul (a b : N) : N := wrap (a * b).
Definition incr (a : N) : N := add a 1.
(** [a / b] and [a % b]: undefined for a zero divisor. *)
Definition div (a b : N) : outcome N :=
  if b =? 0 then Undefined else Returns (a / b).
Definition rem (a b : N) : outcome N :=
  if b =? 0 then Undefined else Returns (a mod b).
End SizeT.

(** [static_cast<int>] of an integer: two's complement on 32 bits. *)
Definition int_cast (x : Z) : Z := ((x + 2 ^ 31) mod 2 ^ 32 - 2 ^ 31)%Z.

(** The sum of two [int]: undefined when it is outside the range of
    [int]. *)
Definition in_int (z : Z) : bool := ((- 2 ^ 31 <=? z) && (z <? 2 ^ 31))%Z.

Definition int_add (x y : Z) : outcome Z :=
  if in_int (x + y) then Returns (x + y)%Z else Undefined.

(** A loop that computes one element per index, in order, and ends where
    the first of them does not return. *)
Fixpoint fill {A B : Type} (f : A -> outcome B) (l : list A) : outcome (list B) :=
  match l with
  | [] => Returns []
  | i :: rest =>
      obind (f i) (fun b => obind (fill f rest) (fun bs => Returns (b :: bs)))
  end.

(** ** Events and traces *)

Inductive event :=
| EvTouch (set_index block : N) (hit : bool) (* sets[set_index].access(block) gave [hit] *)
| EvHits                                     (* hits++ *)
| EvMisses                                   (* misses++ *)
| EvPrefetchHits (block : N)                 (* prefetch_hits++ while visiting [block] *)
| EvRead (block : N).                        (* memory->read_block(block) *)

(** A traced computation: the events emitted so far, and how it ended. *)
Definition traced (A : Type) : Type := (list event * outcome A)%type.

Definition ret {A : Type} (a : A) : traced A := ([], Returns a).
Definition emit (e : event) : traced unit := ([e], Returns tt).
Definition lift {A : Type} (o : outcome A) : traced A := ([], o).

Definition bind {A B : Type} (m : traced A) (k : A -> traced B) : traced B :=
  match m with
  | (t, Returns a) => let '(t', o) := k a in (t ++ t', o)
  | (t, Throws e) => (t, Throws e)
  | (t, Undefined) => (t, Undefined)
  | (t, Diverges) => (t, Diverges)
  end.

Notation "'do' x <- m ; k" := (bind m (fun x => k))
  (at level 10, x name, m at level 100, k at level 200).
Notation "'do' ' p <- m ; k" := (bind m (fun x => match x with p => k end))
  (at level 10, p pattern, m at level 100, k at level 200).
Notation "m ;; k" := (bind m (fun _ => k))
  (at level 100, k at level 200, right associativity).

(** ** Configuration *)

Record Config := {
  CACHE_SIZE : N;
  MyBLOCK_SIZE : N;
  NUM_ELEMENTS : N;
  PREFETCH_DISTANCE : N;
  HOT_ACCESS_PROB : Q;
  NUM_WAYS : N (* the template parameter of [Cache] *)
}.

Definition source_config (num_ways : N) : Config :=
  {| CACHE_SIZE := 2048; MyBLOCK_SIZE := 32; NUM_ELEMENTS := 4096;
     PREFETCH_DISTANCE := 8; HOT_ACCESS_PROB := 1 # 2; NUM_WAYS := num_ways |}.

(** ** Blocks and the backing store *)

Record Block := { data : list Z }.

(** [Block(int initial_value)]: [data[i] = initial_value + static_cast<int>(i)]
    for [i] from 0 to MyBLOCK_SIZE - 1, an addition of two [int]. *)
Definition Block_init (cfg : Config) (initial_value : Z) : outcome Block :=
  obind (fill (fun i => int_add initial_value (int_cast (Z.of_nat i)))
              (seq 0 (N.to_nat (MyBLOCK_SIZE cfg))))
        (fun d => Returns {| data := d |}).

Module ExternalMemory.
Record t := { blocks : list Block }.

(** [blocks[i] = Block(static_cast<int>(i * MyBLOCK_SIZE))] for [i] from 0
    to [num_blocks - 1]. *)
Definition make (cfg : Config) (num_blocks : N) : outcome t :=
  obind (fill (fun i => Block_init cfg
                 (int_cast (Z.of_N (SizeT.mul (N.of_nat i) (MyBLOCK_SIZE cfg)))))
              (seq 0 (N.to_nat num_blocks)))
        (fun bs => Returns {| blocks := bs |}).

Definition size (m : t) : N := N.of_nat (length (blocks m)).

Definition read_block (m : t) (block_address : N) : outcome Block :=
  if size m <=? block_address then Throws OutOfRange
  else match blocks m !! N.to_nat block_address with
       | Some b => Returns b
       | None => Undefined
       end.
End ExternalMemory.

(** ** One cache set *)

Module CacheSet.
Record t := { blocks : list N; ways : N }.

Definition make (num_ways : N) : t := {| blocks := []; ways := num_ways |}.

(** [std::find(blocks.begin(), blocks.end(), b) != blocks.end()] *)
Definition found (b : N) (l : list N) : bool := existsb (N.eqb b) l.

(** [blocks.erase(it)] for [it] the first position holding [b]. *)
Fixpoint erase (b : N) (l : list N) : list N :=
  match l with
  | [] => []
  | x :: l' => if x =? b then l' else x :: erase b l'
  end.

(** [blocks.pop_back()]; undefined on an empty list. *)
Definition pop_back (l : list N) : outcome (list N) :=
  match l with
  | [] => Undefined
  | _ :: _ => Returns (removelast l)
  end.

Definition access (s : t) (block_address : N) : outcome (bool * t) :=
  if found block_address (blocks s) then
    Returns (true, {| blocks := block_address :: erase block_address (blocks s);
                      ways := ways s |})
  else
    obind (if ways s <=? N.of_nat (length (blocks s))
           then pop_back (blocks s) else Returns (blocks s))
          (fun l => Returns (false, {| blocks := block_address :: l; ways := ways s |})).

Definition contains (s : t) (block_address : N) : bool :=
  found block_address (blocks s).
End CacheSet.

(** ** The cache *)

Module Cache.
Record t := {
  memory : ExternalMemory.t;
  sets : list CacheSet.t;
  hits : N;
  misses : N;
  prefetch_hits : N
}.

Definition with_sets (c : t) (l : list CacheSet.t) : t :=
  {| memory := memory c; sets := l; hits := hits c; misses := misses c;
     prefetch_hits := prefetch_hits c |}.
Definition incr_hits (c : t) : t :=
  {| memory := memory c; sets := sets c; hits := SizeT.incr (hits c);
     misses := misses c; prefetch_hits := prefetch_hits c |}.
Definition incr_misses (c : t) : t :=
  {| memory := memory c; sets := sets c; hits := hits c;
     misses := SizeT.incr (misses c); prefetch_hits := prefetch_hits c |}.
Definition incr_prefetch_hits (c : t) : t :=
  {| memory := memory c; sets := sets c; hits := hits c; misses := misses c;
     prefetch_hits := SizeT.incr (prefetch_hits c) |}.

(** [v[i]] on a [std::vector]: undefined outside the vector. *)
Definition index {A : Type} (v : list A) (i : N) : outcome A :=
  match v !! N.to_nat i with
  | Some x => Returns x
  | None => Undefined
  end.

Section WithConfig.
Context (cfg : Config).

Definition num_sets : outcome N :=
  obind (SizeT.div (CACHE_SIZE cfg) (SizeT.mul (MyBLOCK_SIZE cfg) (NUM_WAYS cfg)))
        (fun n => Returns (if n =? 0 then 1 else n)).

Definition make (mem : ExternalMemory.t) : outcome t :=
  obind num_sets (fun n =>
    Returns {| memory := mem;
               sets := replicate (N.to_nat n) (CacheSet.make (NUM_WAYS cfg));
               hits := 0; misses := 0; prefetch_hits := 0 |}).

Definition is_block_in_cache (c : t) (block_address : N) : outcome bool :=
  obind (SizeT.rem block_address (N.of_nat (length (sets c)))) (fun set_index =>
  obind (index (sets c) set_index) (fun s =>
  Returns (CacheSet.contains s block_address))).

(** The body of the prefetch loop for one value of [i]. *)
Definition prefetch_visit (c : t) (i : N) : traced t :=
  if i <? ExternalMemory.size (memory c) then
    do resident <- lift (is_block_in_cache c i);
    if resident : bool then
      emit (EvPrefetchHits i) ;; ret (incr_prefetch_hits c)
    else
      emit (EvRead i) ;;
      lift (ExternalMemory.read_block (memory c) i) ;;
      ret c
  else ret c.

(** [for (; i <= last; ++i) body]. The loop is run on a budget of
    tests of its condition; [Diverges] is the answer of a loop that
    has used its budget up. *)
Fixpoint prefetch_loop (budget : nat) (i last : N) (c : t) : traced t :=
  match budget with
  | O => lift Diverges
  | S budget' =>
      if i <=? last then
        do c' <- prefetch_visit c i;
        prefetch_loop budget' (SizeT.incr i) last c'
      else ret c
  end.

(** The budget is the number of tests that the loop makes when its
    bound is below [SizeT.max]: one per block from [first] to [last], and
    the one that fails. With the bound at [SizeT.max] the condition
    [i <= last] holds of every [size_t] and the loop never ends, whatever
    the budget (see [prefetch_loop_budget] and [prefetch_loop_forever]). *)
Definition prefetch_adjacent_blocks (c : t) (block_address : N) : traced t :=
  let first := SizeT.add block_address 1 in
  let last := SizeT.add block_address (PREFETCH_DISTANCE cfg) in
  prefetch_loop (S (N.to_nat (last + 1 - first))) first last c.

Definition access (c : t) (address : N) : traced (bool * t) :=
  do block_address <- lift (SizeT.div address (MyBLOCK_SIZE cfg));
  do set_index <- lift (SizeT.rem block_address (N.of_nat (length (sets c))));
  do s <- lift (index (sets c) set_index);
  do ' (hit, s') <- lift (CacheSet.access s block_address);
  let c1 := with_sets c (<[N.to_nat set_index := s']> (sets c)) in
  emit (EvTouch set_index block_address hit) ;;
  if hit : bool then
    emit EvHits ;; ret (true, incr_hits c1)
  else
    do c2 <- prefetch_adjacent_blocks c1 block_address;
    emit EvMisses ;; ret (false, incr_misses c2).

(** The calls [cache.access(a)] of the driver loop, one per address,
    in order; the answers are collected. *)
Fixpoint access_all (c : t) (addresses : list N) : traced (list bool * t) :=
  match addresses with
  | [] => ret ([], c)
  | a :: rest =>
      do ' (r, c') <- access c a;
      do ' (rs, c'') <- access_all c' rest;
      ret (r :: rs, c'')
  end.
End WithConfig.

Definition getHits (c : t) : N := hits c.
Definition getMisses (c : t) : N := misses c.
Definition getPrefetchHits (c : t) : N := prefetch_hits c.

(** [static_cast<double>] of a [size_t] and the division of two doubles,
    in IEEE 754 binary64 with rounding to nearest even. *)
Definition to_double (n : N) : spec_float :=
  binary_normalize 53 1024 (Z.of_N n) 0 false.
Definition double_div (x y : spec_float) : spec_float := SFdiv 53 1024 x y.

Definition getHitRate (c : t) : spec_float :=
  double_div (to_double (hits c)) (to_double (SizeT.add (hits c) (misses c))).

Definition getEffectiveHitRate (c : t) : spec_float :=
  double_div (to_double (SizeT.add (hits c) (prefetch_hits c)))
             (to_double (SizeT.add (SizeT.add (hits c) (misses c)) (prefetch_hits c))).
End Cache.

(** ** The access pattern and the driver *)

Module RealisticAccessPattern.
Section WithRandom.
Context (cfg : Config).
(** The state of the random engine and the two distributions drawn
    from it are library code: they are parameters here. *)
Context {Gen : Type}.
Variable uniform_real : Gen -> Q * Gen.
Variable uniform_int : N * N -> Gen -> N * Gen.

Record t := {
  gen : Gen;
  hot_block_dist : N * N;
  cold_block_dist : N * N;
  element_dist : N * N;
  count : N;
  num_elements : N
}.

Definition make (seed : Gen) (max_blocks n : N) : t :=
  {| gen := seed;
     hot_block_dist := (0, SizeT.sub (max_blocks / 4) 1);
     cold_block_dist := (0, SizeT.sub max_blocks 1);
     element_dist := (0, SizeT.sub (MyBLOCK_SIZE cfg) 1);
     count := 0;
     num_elements := n |}.

Definition next_address (p : t) : N * t :=
  if num_elements p <=? count p then (0, p)
  else
    let '(u, g1) := uniform_real (gen p) in
    let access_hot := negb (Qle_bool (HOT_ACCESS_PROB cfg) u) in
    let '(block, g2) :=
      if access_hot then uniform_int (hot_block_dist p) g1
      else uniform_int (cold_block_dist p) g1 in
    let '(offset, g3) := uniform_int (element_dist p) g2 in
    let address := SizeT.add (SizeT.mul block (MyBLOCK_SIZE cfg)) offset in
    (address,
     {| gen := g3;
        hot_block_dist := hot_block_dist p;
        cold_block_dist := cold_block_dist p;
        element_dist := element_dist p;
        count := SizeT.incr (count p);
        num_elements := num_elements p |}).

(** [n] calls of [next_address], the addresses in the order drawn. *)
Fixpoint addresses (n : nat) (p : t) : list N * t :=
  match n with
  | O => ([], p)
  | S n' =>
      let '(a, p') := next_address p in
      let '(l, p'') := addresses n' p' in
      (a :: l, p'')
  end.
End WithRandom.
Arguments t : clear implicits.
End RealisticAccessPattern.

Module CacheSimulator.
Section WithRandom.
Context (cfg : Config) {Gen : Type}.
Variable uniform_real : Gen -> Q * Gen.
Variable uniform_int : N * N -> Gen -> N * Gen.

(** [for (i = 0; i < NUM_ELEMENTS; ++i) cache.access(pattern.next_address())] *)
Fixpoint drive (n : nat) (p : RealisticAccessPattern.t Gen) (c : Cache.t)
  : traced (RealisticAccessPattern.t Gen * Cache.t) :=
  match n with
  | O => ret (p, c)
  | S n' =>
      let '(a, p') := RealisticAccessPattern.next_address cfg uniform_real uniform_int p in
      do ' (_, c') <- Cache.access cfg c a;
      drive n' p' c'
  end.

Definition run_simulation (seed : Gen) : traced Cache.t :=
  do num_blocks <- lift (SizeT.div (NUM_ELEMENTS cfg) (MyBLOCK_SIZE cfg));
  do memory <- lift (ExternalMemory.make cfg num_blocks);
  let pattern := RealisticAccessPattern.make cfg seed (ExternalMemory.size memory)
                   (NUM_ELEMENTS cfg) in
  do cache <- lift (Cache.make cfg memory);
  do ' (_, cache') <- drive (N.to_nat (NUM_ELEMENTS cfg)) pattern cache;
  ret cache'.
End WithRandom.
End CacheSimulator.

(** ** Invariants of the data model *)

(** What the source calls NUM_SETS, as the constructor computes it. *)
Definition NUM_SETS (cfg : Config) : N :=
  N.max 1 (CACHE_SIZE cfg / SizeT.mul (MyBLOCK_SIZE cfg) (NUM_WAYS cfg)).

(** The set at index [j] of a cache of [n] sets with [w] ways. *)
Record set_ok (w n : N) (j : nat) (s : CacheSet.t) : Prop := {
  set_ways : CacheSet.ways s = w;
  set_bounded : N.of_nat (length (CacheSet.blocks s)) <= w;
  set_nodup : NoDup (CacheSet.blocks s);
  set_home : forall b, b ∈ CacheSet.blocks s -> b mod n = N.of_nat j
}.

Definition cache_ok (cfg : Config) (c : Cache.t) : Prop :=
  SizeT.mul (MyBLOCK_SIZE cfg) (NUM_WAYS cfg) <> 0 /\
  length (Cache.sets c) = N.to_nat (NUM_SETS cfg) /\
  forall j s, Cache.sets c !! j = Some s -> set_ok (NUM_WAYS cfg) (NUM_SETS cfg) j s.

(** [b] is resident in the set at index [j]. *)
Definition resident_in (c : Cache.t) (j : nat) (b : N) : Prop :=
  exists s, Cache.sets c !! j = Some s /\ b ∈ CacheSet.blocks s.

(** The states a cache goes through: built by the constructor, then any
    number of calls of [access] that return. *)
Definition reachable (cfg : Config) (mem : ExternalMemory.t) (c : Cache.t) : Prop :=
  exists c0 addresses t rs,
    Cache.make cfg mem = Returns c0 /\
    Cache.access_all cfg c0 addresses = (t, Returns (rs, c)).

(** ** What a prefetch does, block by block *)

(** [n] consecutive block indices from [first] on. *)
Fixpoint range (first : N) (n : nat) : list N :=
  match n with
  | O => []
  | S n' => first :: range (first + 1) n'
  end.

(** The values [i] takes in the loop of [prefetch_adjacent_blocks], from
    [block_address + 1] to [block_address + PREFETCH_DISTANCE], both
    computed in [size_t]. *)
Definition successors (cfg : Config) (block_address : N) : list N :=
  let first := SizeT.add block_address 1 in
  let last := SizeT.add block_address (PREFETCH_DISTANCE cfg) in
  range first (N.to_nat (last + 1 - first)).

(** The block is in the set it maps to. *)
Definition resident (c : Cache.t) (b : N) : bool :=
  match Cache.is_block_in_cache c b with
  | Returns r => r
  | _ => false
  end.

(** The event one successor leaves: none outside the backing store, a
    counted prefetch hit when resident, a backing-store read otherwise. *)
Definition prefetch_event (c : Cache.t) (i : N) : list event :=
  if i <? ExternalMemory.size (Cache.memory c) then
    if resident c i then [EvPrefetchHits i] else [EvRead i]
  else [].

Definition is_prefetch_hit (e : event) : bool :=
  match e with EvPrefetchHits _ => true | _ => false end.

Definition count_prefetch_hits (t : list event) : nat :=
  length (List.filter is_prefetch_hit t).

(** Two cache states that differ in [prefetch_hits] at most. *)
Definition same_but_prefetch_hits (c c' : Cache.t) : Prop :=
  Cache.memory c' = Cache.memory c /\ Cache.sets c' = Cache.sets c /\
  Cache.hits c' = Cache.hits c /\ Cache.misses c' = Cache.misses c.

(** ** The order of events in a trace *)

Definition is_touch (e : event) : bool :=
  match e with EvTouch _ _ _ => true | _ => false end.
Definition is_hits_or_misses (e : event) : bool :=
  match e with EvHits | EvMisses => true | _ => false end.
Definition is_misses (e : event) : bool :=
  match e with EvMisses => true | _ => false end.
Definition is_prefetch_step (e : event) : bool :=
  match e with EvPrefetchHits _ | EvRead _ => true | _ => false end.

(** The number of times [misses++] is executed in a trace. *)
Definition count_misses (t : list event) : N :=
  N.of_nat (length (List.filter is_misses t)).

(** Every event of the first kind comes strictly before every event of
    the second kind. *)
Definition all_before (first second : event -> bool) (t : list event) : Prop :=
  forall i j e e',
    t !! i = Some e -> t !! j = Some e' ->
    first e = true -> second e' = true -> (i < j)%nat.

(** ** Classes of doubles *)

Definition is_zero (x : spec_float) : bool :=
  match x with S754_zero _ => true | _ => false end.

Definition is_nan (x : spec_float) : bool :=
  match x with S754_nan => true | _ => false end.

(** ** Configurations and states of the scenarios *)

(** BLOCK_SIZE = 4, CACHE_SIZE = 16, two ways (hence two sets), no
    prefetch. *)
Definition two_way_config : Config :=
  {| CACHE_SIZE := 16; MyBLOCK_SIZE := 4; NUM_ELEMENTS := 16;
     PREFETCH_DISTANCE := 0; HOT_ACCESS_PROB := 1 # 2; NUM_WAYS := 2 |}.

(** BLOCK_SIZE = 4, CACHE_SIZE = 16, four ways (one set), two blocks of
    prefetch. *)
Definition prefetch_config : Config :=
  {| CACHE_SIZE := 16; MyBLOCK_SIZE := 4; NUM_ELEMENTS := 16;
     PREFETCH_DISTANCE := 2; HOT_ACCESS_PROB := 1 # 2; NUM_WAYS := 4 |}.

(** A backing store of four blocks, and the cache of [two_way_config]
    in front of it: fresh, and after the addresses 0, 4, 8, 12, 0. *)
Definition four_blocks : ExternalMemory.t :=
  {| ExternalMemory.blocks :=
       [ {| data := [0; 1; 2; 3]%Z |}; {| data := [4; 5; 6; 7]%Z |};
         {| data := [8; 9; 10; 11]%Z |}; {| data := [12; 13; 14; 15]%Z |} ] |}.

Definition two_way_fresh : Cache.t :=
  {| Cache.memory := four_blocks;
     Cache.sets := [ {| CacheSet.blocks := []; CacheSet.ways := 2 |};
                     {| CacheSet.blocks := []; CacheSet.ways := 2 |} ];
     Cache.hits := 0; Cache.misses := 0; Cache.prefetch_hits := 0 |}.

Definition two_way_final : Cache.t :=
  {| Cache.memory := four_blocks;
     Cache.sets := [ {| CacheSet.blocks := [0; 2]; CacheSet.ways := 2 |};
                     {| CacheSet.blocks := [3; 1]; CacheSet.ways := 2 |} ];
     Cache.hits := 1; Cache.misses := 4; Cache.prefetch_hits := 0 |}.

(** The same cache one access later, at address 16: block 4 takes the
    place of block 2 in set 0. *)
Definition two_way_after_16 : Cache.t :=
  {| Cache.memory := four_blocks;
     Cache.sets := [ {| CacheSet.blocks := [4; 0]; CacheSet.ways := 2 |};
                     {| CacheSet.blocks := [3; 1]; CacheSet.ways := 2 |} ];
     Cache.hits := 1; Cache.misses := 5; Cache.prefetch_hits := 0 |}.

(** Caches of [prefetch_config]. In front of a backing store of two
    blocks: the state in which the first access, a miss on block 0, runs
    its prefetch. In front of eight blocks: after the address 4; the state
    in which the next access, a miss on block 0, runs its prefetch; the
    state in which that prefetch ends, the miss not yet counted; and the
    state after that access. *)
Definition two_blocks : ExternalMemory.t :=
  {| ExternalMemory.blocks :=
       [ {| data := [0; 1; 2; 3]%Z |}; {| data := [4; 5; 6; 7]%Z |} ] |}.
Definition eight_blocks : ExternalMemory.t :=
  {| ExternalMemory.blocks :=
       [ {| data := [0; 1; 2; 3]%Z |}; {| data := [4; 5; 6; 7]%Z |};
         {| data := [8; 9; 10; 11]%Z |}; {| data := [12; 13; 14; 15]%Z |};
         {| data := [16; 17; 18; 19]%Z |}; {| data := [20; 21; 22; 23]%Z |};
         {| data := [24; 25; 26; 27]%Z |}; {| data := [28; 29; 30; 31]%Z |} ] |}.

Definition small_store_missing_0 : Cache.t :=
  {| Cache.memory := two_blocks;
     Cache.sets := [ {| CacheSet.blocks := [0]; CacheSet.ways := 4 |} ];
     Cache.hits := 0; Cache.misses := 0; Cache.prefetch_hits := 0 |}.

Definition prefetch_after_4 : Cache.t :=
  {| Cache.memory := eight_blocks;
     Cache.sets := [ {| CacheSet.blocks := [1]; CacheSet.ways := 4 |} ];
     Cache.hits := 0; Cache.misses := 1; Cache.prefetch_hits := 0 |}.

Definition prefetch_missing_0 : Cache.t :=
  {| Cache.memory := eight_blocks;
     Cache.sets := [ {| CacheSet.blocks := [0; 1]; CacheSet.ways := 4 |} ];
     Cache.hits := 0; Cache.misses := 1; Cache.prefetch_hits := 0 |}.

Definition prefetch_after_4_0_uncounted : Cache.t :=
  {| Cache.memory := eight_blocks;
     Cache.sets := [ {| CacheSet.blocks := [0; 1]; CacheSet.ways := 4 |} ];
     Cache.hits := 0; Cache.misses := 1; Cache.prefetch_hits := 1 |}.

Definition prefetch_after_4_0 : Cache.t :=
  {| Cache.memory := eight_blocks;
     Cache.sets := [ {| CacheSet.blocks := [0; 1]; CacheSet.ways := 4 |} ];
     Cache.hits := 0; Cache.misses := 2; Cache.prefetch_hits := 1 |}.

(** A random engine that is a counter, and distributions that draw the
    lower end of their range: enough to run the generator. *)
Definition counting_real (g : N) : Q * N := (0%Q, g + 1).
Definition counting_int (d : N * N) (g : N) : N * N := (fst d, g + 1).

Definition exhausted_pattern : RealisticAccessPattern.t N :=
  {| RealisticAccessPattern.gen := 7;
     RealisticAccessPattern.hot_block_dist := (0, 0);
     RealisticAccessPattern.cold_block_dist := (0, 3);
     RealisticAccessPattern.element_dist := (0, 3);
     RealisticAccessPattern.count := 16;
     RealisticAccessPattern.num_elements := 16 |}.

(** ** The claims that the code does not meet, as they are worded *)

(** Within one access: the outcome of the lookup comes before the update
    of [hits] or [misses], and the miss is counted in [misses] before any
    update of [prefetch_hits]. *)
Definition miss_counted_before_prefetch (cfg : Config) (c : Cache.t) (address : N) : Prop :=
  forall t r c',
    Cache.access cfg c address = (t, Returns (r, c')) ->
    all_before is_touch is_hits_or_misses t /\
    all_before is_misses is_prefetch_hit t.

(** Both rates are 0 when their denominator is 0. *)
Definition rates_zero_on_zero_denominator (c : Cache.t) : Prop :=
  (SizeT.add (Cache.hits c) (Cache.misses c) = 0 ->
   is_zero (Cache.getHitRate c) = true) /\
  (SizeT.add (SizeT.add (Cache.hits c) (Cache.misses c)) (Cache.prefetch_hits c) = 0 ->
   is_zero (Cache.getEffectiveHitRate c) = true).

(** ** A set on its own *)

(** [s.access(b)] for each [b] of a list in turn: the answers, and the
    set that is left. *)
Fixpoint touch_all (s : CacheSet.t) (bs : list N) : outcome (list bool * CacheSet.t) :=
  match bs with
  | [] => Returns ([], s)
  | b :: rest =>
      obind (CacheSet.access s b) (fun '(r, s') =>
      obind (touch_all s' rest) (fun '(rs, s'') => Returns (r :: rs, s'')))
  end.

(** A set of two ways holding blocks 2 and 0, block 2 used last, and a
    set of four ways holding 2, 0, 6, 4. *)
Definition set_2_0 : CacheSet.t := {| CacheSet.blocks := [2; 0]; CacheSet.ways := 2 |}.
Definition set_2_0_6_4 : CacheSet.t :=
  {| CacheSet.blocks := [2; 0; 6; 4]; CacheSet.ways := 4 |}.

(** ** Counting in a cache and in a run *)

(** The number of resident blocks, all sets together. *)
Definition resident_count (c : Cache.t) : N :=
  N.of_nat (length (concat (map CacheSet.blocks (Cache.sets c)))).

(** The numbers of hits and of misses among the answers of a run. *)
Definition count_true (rs : list bool) : N := N.of_nat (length (List.filter id rs)).
Definition count_false (rs : list bool) : N := N.of_nat (length (List.filter negb rs)).

(** The number of steps of prefetch loops in a trace: prefetch hits and
    backing-store reads together. *)
Definition count_prefetch_steps (t : list event) : N :=
  N.of_nat (length (List.filter is_prefetch_step t)).

(** The block that an address falls in. *)
Definition block_of (cfg : Config) (address : N) : N := address / MyBLOCK_SIZE cfg.

(** [prefetch_config] with a prefetch distance of 0. *)
Definition no_prefetch_config : Config :=
  {| CACHE_SIZE := 16; MyBLOCK_SIZE := 4; NUM_ELEMENTS := 16;
     PREFETCH_DISTANCE := 0; HOT_ACCESS_PROB := 1 # 2; NUM_WAYS := 4 |}.

(** The blocks of a list of addresses that map to the same set as [b]. *)
Definition same_set_blocks (cfg : Config) (b : N) (addresses : list N) : list N :=
  filter (fun b' => b' mod NUM_SETS cfg = b mod NUM_SETS cfg)
         (map (block_of cfg) addresses).

(** ** The access pattern *)

(** What [std::uniform_int_distribution] promises of a draw from
    [(lo, hi)] with [lo <= hi]: it lies between the two. *)
Definition in_bounds {Gen : Type} (uniform_int : N * N -> Gen -> N * Gen) : Prop :=
  forall lo hi g, lo <= hi -> lo <= fst (uniform_int (lo, hi) g) <= hi.

(** The three distributions of [p] are those that the constructor sets
    up for [max_blocks] blocks. *)
Definition built_for (cfg : Config) (max_blocks : N) {Gen : Type}
    (p : RealisticAccessPattern.t Gen) : Prop :=
  RealisticAccessPattern.hot_block_dist p = (0, SizeT.sub (max_blocks / 4) 1) /\
  RealisticAccessPattern.cold_block_dist p = (0, SizeT.sub max_blocks 1) /\
  RealisticAccessPattern.element_dist p = (0, SizeT.sub (MyBLOCK_SIZE cfg) 1).

(** A distribution that draws the upper end of its range. *)
Definition upper_int (d : N * N) (g : N) : N * N := (snd d, g + 1).

(** ** A store too large for [int] *)

(** Blocks of three elements, and more elements than an [int] can
    number: the last element of block 715827882 is [2147483646 + 2]. *)
Definition three_element_config : Config :=
  {| CACHE_SIZE := 12; MyBLOCK_SIZE := 3; NUM_ELEMENTS := 2147483649;
     PREFETCH_DISTANCE := 0; HOT_ACCESS_PROB := 1 # 2; NUM_WAYS := 2 |}.

(** ** The monads *)

Lemma obind_returns {A B} (o : outcome A) (k : A -> outcome B) b :
  obind o k = Returns b -> exists a, o = Returns a /\ k a = Returns b.
Proof. destruct o; simpl; intros H; try discriminate. eauto. Qed.

Lemma bind_returns {A B} (m : traced A) (k : A -> traced B) t b :
  bind m k = (t, Returns b) ->
  exists t1 a t2, m = (t1, Returns a) /\ k a = (t2, Returns b) /\ t = t1 ++ t2.
Proof.
  destruct m as [t1 [a | e | |]]; simpl; intros H; try discriminate.
  destruct (k a) as [t2 o] eqn:Hk. inversion H; subst.
  exists t1, a, t2. auto.
Qed.

Lemma lift_returns {A} (o : outcome A) t a :
  lift o = (t, Returns a) -> o = Returns a /\ t = [].
Proof. unfold lift. intros H. inversion H. auto. Qed.

Lemma div_returns a b q :
  SizeT.div a b = Returns q -> b <> 0 /\ q = a / b.
Proof.
  unfold SizeT.div. destruct (N.eqb_spec b 0); intros H; inversion H. auto.
Qed.

Lemma rem_returns a b r :
  SizeT.rem a b = Returns r -> b <> 0 /\ r = a mod b.
Proof.
  unfold SizeT.rem. destruct (N.eqb_spec b 0); intros H; inversion H. auto.
Qed.

Lemma index_returns {A} (v : list A) i x :
  Cache.index v i = Returns x -> v !! N.to_nat i = Some x.
Proof. unfold Cache.index. destruct (v !! N.to_nat i); intros H; inversion H. auto. Qed.

Lemma emit_returns e t a : emit e = (t, Returns a) -> t = [e].
Proof. unfold emit. intros H. by inversion H. Qed.

Lemma ret_returns {A} (a b : A) t : ret a = (t, Returns b) -> t = [] /\ a = b.
Proof. unfold ret. intros H. by inversion H. Qed.

(** Takes apart a sequence of steps that is known to return: one
    hypothesis per step, the trace split accordingly. *)
Ltac returns H :=
  repeat match type of H with
  | bind _ _ = (_, Returns _) =>
      let t1 := fresh "t" in let a := fresh "a" in let t2 := fresh "t" in
      let H1 := fresh "H" in let Et := fresh "Et" in
      apply bind_returns in H as (t1 & a & t2 & H1 & H & Et);
      first [ apply lift_returns in H1 as [H1 ->]
            | apply emit_returns in H1 as ->
            | idtac ];
      try match type of a with (_ * _)%type => destruct a end
  end;
  try match type of H with
  | ret _ = (_, Returns _) =>
      let E := fresh "E" in apply ret_returns in H as [-> E]
  end;
  subst; rewrite ?app_nil_l, ?app_nil_r in *.

(** ** One set *)

Lemma found_elem_of b l : CacheSet.found b l = true <-> b ∈ l.
Proof.
  unfold CacheSet.found. rewrite existsb_exists, list_elem_of_In.
  split.
  - intros (x & Hx & E). apply N.eqb_eq in E. congruence.
  - intros H. exists b. split; [done | apply N.eqb_refl].
Qed.

Lemma found_not_elem_of b l : CacheSet.found b l = false <-> b ∉ l.
Proof.
  rewrite <- found_elem_of. destruct (CacheSet.found b l); split; congruence.
Qed.

Lemma erase_subseteq b l x : x ∈ CacheSet.erase b l -> x ∈ l.
Proof.
  induction l as [| y l IH]; simpl; [done |].
  destruct (N.eqb_spec y b); rewrite ?elem_of_cons; [tauto |].
  intros [-> | H]; auto.
Qed.

Lemma erase_nodup b l : NoDup l -> NoDup (CacheSet.erase b l).
Proof.
  induction 1 as [| y l Hy Hl IH]; simpl; [constructor |].
  destruct (N.eqb_spec y b); [done |].
  constructor; [| done]. intros H. apply Hy. eapply erase_subseteq, H.
Qed.

Lemma erase_not_elem_of b l : NoDup l -> b ∉ CacheSet.erase b l.
Proof.
  induction 1 as [| y l Hy Hl IH]; simpl; [apply not_elem_of_nil |].
  destruct (N.eqb_spec y b) as [-> | Hne]; [done |].
  rewrite elem_of_cons. intros [E | H]; [congruence | done].
Qed.

Lemma erase_length b l :
  b ∈ l -> S (length (CacheSet.erase b l)) = length l.
Proof.
  induction l as [| y l IH]; simpl.
  - intros H. by apply elem_of_nil in H.
  - destruct (N.eqb_spec y b) as [-> | Hne]; [done |].
    rewrite elem_of_cons. intros [E | H]; [congruence |].
    simpl. by rewrite IH.
Qed.

Lemma removelast_snoc (l : list N) :
  l <> [] -> exists x, l = removelast l ++ [x].
Proof.
  intros H. exists (List.last l 0). by apply app_removelast_last.
Qed.

Lemma set_access_returns s b r s' :
  CacheSet.access s b = Returns (r, s') ->
  CacheSet.ways s' = CacheSet.ways s /\
  ((r = true /\ b ∈ CacheSet.blocks s /\
    CacheSet.blocks s' = b :: CacheSet.erase b (CacheSet.blocks s)) \/
   (r = false /\ (b ∉ CacheSet.blocks s) /\
    ((CacheSet.ways s <= N.of_nat (length (CacheSet.blocks s)) /\
      exists x, CacheSet.blocks s = removelast (CacheSet.blocks s) ++ [x] /\
                CacheSet.blocks s' = b :: removelast (CacheSet.blocks s)) \/
     (N.of_nat (length (CacheSet.blocks s)) < CacheSet.ways s /\
      CacheSet.blocks s' = b :: CacheSet.blocks s)))).
Proof.
  unfold CacheSet.access.
  destruct (CacheSet.found b (CacheSet.blocks s)) eqn:Hf.
  - intros H. inversion H; subst; simpl. split; [done |]. left.
    by apply found_elem_of in Hf.
  - apply found_not_elem_of in Hf.
    destruct (N.leb_spec (CacheSet.ways s) (N.of_nat (length (CacheSet.blocks s)))) as [Hle | Hlt].
    + intros H. apply obind_returns in H as (l & Hpop & H).
      inversion H; subst; simpl. split; [done |]. right.
      split; [done |]. split; [done |]. left. split; [done |].
      destruct (CacheSet.blocks s) as [| y l0] eqn:E; [discriminate |].
      unfold CacheSet.pop_back in Hpop. inversion Hpop; subst.
      destruct (removelast_snoc (y :: l0)) as [x Hx]; [discriminate |].
      exists x. by split.
    + simpl. intros H. inversion H; subst; simpl. split; [done |]. right.
      split; [done |]. split; [done |]. right. by split.
Qed.

(** After a call that returns, the block is at the front of the set. *)
Lemma set_access_front s b r s' :
  CacheSet.access s b = Returns (r, s') ->
  exists l, CacheSet.blocks s' = b :: l.
Proof.
  intros H. apply set_access_returns in H as [_ [(_ & _ & E) | (_ & _ & [(_ & x & _ & E) | (_ & E)])]];
    rewrite E; eauto.
Qed.

(** A block at the front of the set is a hit. *)
Lemma set_access_hit s b l :
  CacheSet.blocks s = b :: l ->
  exists s', CacheSet.access s b = Returns (true, s').
Proof.
  intros E. unfold CacheSet.access.
  assert (Hf : CacheSet.found b (CacheSet.blocks s) = true).
  { apply found_elem_of. rewrite E. apply elem_of_cons. by left. }
  rewrite Hf. eauto.
Qed.

(** A set with at least one way never runs into [pop_back] of an empty
    list. *)
Lemma set_access_total s b :
  0 < CacheSet.ways s ->
  exists r s', CacheSet.access s b = Returns (r, s').
Proof.
  intros Hw. unfold CacheSet.access.
  destruct (CacheSet.found b (CacheSet.blocks s)); [eauto |].
  destruct (N.leb_spec (CacheSet.ways s) (N.of_nat (length (CacheSet.blocks s)))) as [Hle | Hlt];
    simpl; [| eauto].
  destruct (CacheSet.blocks s) as [| y l]; simpl in *; [lia | eauto].
Qed.

Lemma set_access_ok w n j s b r s' :
  0 < w -> b mod n = N.of_nat j ->
  set_ok w n j s ->
  CacheSet.access s b = Returns (r, s') ->
  set_ok w n j s'.
Proof.
  intros Hw Hb [Hways Hlen Hnd Hhome] H.
  apply set_access_returns in H as [Ew [(_ & Hin & E) | (_ & Hout & [(Hle & x & Ex & E) | (Hlt & E)])]].
  - split; rewrite ?E; [congruence | | |].
    + simpl. pose proof (erase_length b _ Hin). lia.
    + constructor; [by apply erase_not_elem_of | by apply erase_nodup].
    + intros b' [-> | Hb']%elem_of_cons; [done |].
      apply Hhome. eapply erase_subseteq, Hb'.
  - assert (Hl : length (CacheSet.blocks s) = S (length (removelast (CacheSet.blocks s)))).
    { rewrite Ex at 1. rewrite length_app. simpl. lia. }
    rewrite Ex in Hnd, Hhome, Hout.
    apply list.NoDup_app in Hnd as (Hnd & _ & _).
    split; rewrite ?E; [congruence | | |].
    + simpl. lia.
    + constructor; [| done]. intros Hin. apply Hout. apply elem_of_app. by left.
    + intros b' [-> | Hb']%elem_of_cons; [done |].
      apply Hhome. apply elem_of_app. by left.
  - split; rewrite ?E; [congruence | | |].
    + simpl. lia.
    + by constructor.
    + intros b' [-> | Hb']%elem_of_cons; [done | by apply Hhome].
Qed.

(** ** The prefetch loop *)

Lemma is_block_in_cache_total c b :
  Cache.sets c <> [] -> exists r, Cache.is_block_in_cache c b = Returns r.
Proof.
  intros Hs. unfold Cache.is_block_in_cache, SizeT.rem.
  assert (Hn : N.of_nat (length (Cache.sets c)) <> 0).
  { destruct (Cache.sets c); simpl in *; [done | lia]. }
  destruct (N.eqb_spec (N.of_nat (length (Cache.sets c))) 0) as [E | _]; [done |].
  simpl. unfold Cache.index.
  destruct (lookup_lt_is_Some_2 (Cache.sets c)
              (N.to_nat (b mod N.of_nat (length (Cache.sets c))))) as [s Hs'].
  { pose proof (N.mod_lt b _ Hn). lia. }
  rewrite Hs'. simpl. eauto.
Qed.

Lemma read_block_in_range m b :
  b < ExternalMemory.size m ->
  exists blk, ExternalMemory.blocks m !! N.to_nat b = Some blk /\
              ExternalMemory.read_block m b = Returns blk.
Proof.
  intros Hb. unfold ExternalMemory.read_block.
  destruct (N.leb_spec (ExternalMemory.size m) b) as [Hle | _]; [lia |].
  destruct (lookup_lt_is_Some_2 (ExternalMemory.blocks m) (N.to_nat b)) as [blk E].
  { unfold ExternalMemory.size in Hb. lia. }
  rewrite E. eauto.
Qed.

Lemma same_but_prefetch_hits_refl c : same_but_prefetch_hits c c.
Proof. by repeat split. Qed.

Lemma same_but_prefetch_hits_trans c1 c2 c3 :
  same_but_prefetch_hits c1 c2 -> same_but_prefetch_hits c2 c3 ->
  same_but_prefetch_hits c1 c3.
Proof. intros (? & ? & ? & ?) (? & ? & ? & ?). repeat split; congruence. Qed.

Lemma prefetch_event_same c c' i :
  same_but_prefetch_hits c c' -> prefetch_event c' i = prefetch_event c i.
Proof.
  intros (Hm & Hs & _). unfold prefetch_event, resident, Cache.is_block_in_cache.
  by rewrite Hm, Hs.
Qed.

(** One turn of the loop, when it returns. *)
Lemma prefetch_visit_returns c i t c' :
  Cache.prefetch_visit c i = (t, Returns c') ->
  t = prefetch_event c i /\ same_but_prefetch_hits c c' /\
  Cache.prefetch_hits c' = Nat.iter (count_prefetch_hits t) SizeT.incr (Cache.prefetch_hits c).
Proof.
  unfold Cache.prefetch_visit, prefetch_event, resident.
  destruct (i <? ExternalMemory.size (Cache.memory c)).
  - intros H. returns H.
    match goal with E : Cache.is_block_in_cache _ _ = _ |- _ => rewrite E end.
    match goal with r : bool |- _ => destruct r end; returns H.
    + split; [done |]. split; [by repeat split | done].
    + split; [done |]. split; [apply same_but_prefetch_hits_refl | done].
  - intros H. returns H.
    split; [done |]. split; [apply same_but_prefetch_hits_refl | done].
Qed.

Lemma prefetch_visit_total c i :
  Cache.sets c <> [] ->
  exists c', Cache.prefetch_visit c i = (prefetch_event c i, Returns c').
Proof.
  intros Hs. unfold Cache.prefetch_visit, prefetch_event, resident.
  destruct (N.ltb_spec i (ExternalMemory.size (Cache.memory c))) as [Hi | _];
    [| by eexists].
  destruct (is_block_in_cache_total c i Hs) as [r ->].
  destruct r; simpl; [by eexists |].
  destruct (read_block_in_range _ _ Hi) as (blk & _ & ->). simpl. by eexists.
Qed.

Lemma range_length first n : length (range first n) = n.
Proof. revert first. induction n as [| n IH]; intros; simpl; [done | by rewrite IH]. Qed.

Lemma elem_of_range first n i :
  i ∈ range first n <-> first <= i /\ i < first + N.of_nat n.
Proof.
  revert first. induction n as [| n IH]; intros first; simpl.
  - rewrite elem_of_nil. lia.
  - rewrite elem_of_cons, IH. lia.
Qed.

Lemma count_prefetch_hits_app t1 t2 :
  count_prefetch_hits (t1 ++ t2) = (count_prefetch_hits t1 + count_prefetch_hits t2)%nat.
Proof. unfold count_prefetch_hits. by rewrite List.filter_app, length_app. Qed.

Lemma count_prefetch_hits_le t : (count_prefetch_hits t <= length t)%nat.
Proof. unfold count_prefetch_hits. apply List.filter_length_le. Qed.

Lemma iter_incr_le k x : Nat.iter k SizeT.incr x <= x + N.of_nat k.
Proof.
  induction k as [| k IH]; simpl; [lia |].
  unfold SizeT.incr, SizeT.add, SizeT.wrap, SizeT.modulus in *. lia.
Qed.

(** A loop that returns has visited [i], [i + 1], ..., [last] in order. *)
Lemma prefetch_loop_returns budget : forall i last c t c',
  last < SizeT.max ->
  Cache.prefetch_loop budget i last c = (t, Returns c') ->
  t = flat_map (prefetch_event c) (range i (N.to_nat (last + 1 - i))) /\
  same_but_prefetch_hits c c' /\
  Cache.prefetch_hits c' = Nat.iter (count_prefetch_hits t) SizeT.incr (Cache.prefetch_hits c).
Proof.
  induction budget as [| budget IH]; intros i last c t c' Hlast H; simpl in H;
    [discriminate |].
  destruct (N.leb_spec i last) as [Hi | Hi].
  - returns H.
    match goal with E : Cache.prefetch_visit _ _ = _ |- _ =>
      apply prefetch_visit_returns in E as (Et1 & Hsame1 & Hph1) end.
    assert (Ei : SizeT.incr i = i + 1).
    { unfold SizeT.incr, SizeT.add, SizeT.wrap, SizeT.max, SizeT.modulus in *. lia. }
    rewrite Ei in H. apply IH in H as (Et2 & Hsame2 & Hph2); [| done].
    replace (N.to_nat (last + 1 - i)) with (S (N.to_nat (last + 1 - (i + 1)))) by lia.
    simpl. split; [| split].
    + rewrite Et1 at 1. rewrite Et2 at 1. f_equal. apply flat_map_ext. intros j.
      by apply prefetch_event_same.
    + eapply same_but_prefetch_hits_trans; eauto.
    + rewrite Hph2, Hph1, count_prefetch_hits_app.
      rewrite (Nat.add_comm (count_prefetch_hits _)). by rewrite Nat.iter_add.
  - returns H. replace (N.to_nat (last + 1 - i)) with O by lia.
    simpl. split; [done |]. split; [apply same_but_prefetch_hits_refl | done].
Qed.

(** With the bound below [SizeT.max], a budget of one test more than the
    number of blocks left is enough. *)
Lemma prefetch_loop_budget budget : forall i last c,
  last < SizeT.max -> Cache.sets c <> [] ->
  (N.to_nat (last + 1 - i) < budget)%nat ->
  exists t c', Cache.prefetch_loop budget i last c = (t, Returns c').
Proof.
  induction budget as [| budget IH]; intros i last c Hlast Hs Hb; [lia |].
  simpl. destruct (N.leb_spec i last) as [Hi | Hi]; [| by do 2 eexists].
  destruct (prefetch_visit_total c i Hs) as [c1 H1]. rewrite H1.
  pose proof H1 as (_ & (_ & Es & _) & _)%prefetch_visit_returns.
  assert (Ei : SizeT.incr i = i + 1).
  { unfold SizeT.incr, SizeT.add, SizeT.wrap, SizeT.max, SizeT.modulus in *. lia. }
  destruct (IH (SizeT.incr i) last c1) as (t2 & c2 & H2); [done | congruence | lia |].
  simpl. rewrite H2. by do 2 eexists.
Qed.

(** With the bound at [SizeT.max] the condition never fails: no budget
    lets the loop return. *)
Lemma prefetch_loop_forever budget : forall i c t c',
  i <= SizeT.max ->
  Cache.prefetch_loop budget i SizeT.max c <> (t, Returns c').
Proof.
  induction budget as [| budget IH]; intros i c t c' Hi H; simpl in H;
    [discriminate |].
  destruct (N.leb_spec i SizeT.max) as [_ | Hgt]; [| lia].
  returns H. eapply IH, H.
  unfold SizeT.incr, SizeT.add, SizeT.wrap, SizeT.max, SizeT.modulus. lia.
Qed.

Lemma prefetch_bound_not_max cfg c b t c' :
  Cache.prefetch_adjacent_blocks cfg c b = (t, Returns c') ->
  SizeT.add b (PREFETCH_DISTANCE cfg) <> SizeT.max.
Proof.
  unfold Cache.prefetch_adjacent_blocks. intros H E. rewrite E in H.
  eapply prefetch_loop_forever, H.
  unfold SizeT.add, SizeT.wrap, SizeT.max, SizeT.modulus. lia.
Qed.

Lemma add_lt_max a b : SizeT.add a b <> SizeT.max -> SizeT.add a b < SizeT.max.
Proof. unfold SizeT.add, SizeT.wrap, SizeT.max, SizeT.modulus. lia. Qed.

Lemma prefetch_returns cfg c b t c' :
  Cache.prefetch_adjacent_blocks cfg c b = (t, Returns c') ->
  t = flat_map (prefetch_event c) (successors cfg b) /\
  same_but_prefetch_hits c c' /\
  Cache.prefetch_hits c' = Nat.iter (count_prefetch_hits t) SizeT.incr (Cache.prefetch_hits c).
Proof.
  intros H. pose proof (prefetch_bound_not_max _ _ _ _ _ H) as Hne.
  apply add_lt_max in Hne. unfold Cache.prefetch_adjacent_blocks in H.
  by apply prefetch_loop_returns in H.
Qed.

Lemma prefetch_total cfg c b :
  Cache.sets c <> [] ->
  SizeT.add b (PREFETCH_DISTANCE cfg) <> SizeT.max ->
  exists t c', Cache.prefetch_adjacent_blocks cfg c b = (t, Returns c').
Proof.
  intros Hs Hne. apply add_lt_max in Hne.
  unfold Cache.prefetch_adjacent_blocks. apply prefetch_loop_budget; [done | done | lia].
Qed.

(** The loop visits at most PREFETCH_DISTANCE blocks. *)
Lemma successors_length cfg b :
  SizeT.add b (PREFETCH_DISTANCE cfg) <> SizeT.max ->
  N.of_nat (length (successors cfg b)) <= PREFETCH_DISTANCE cfg.
Proof.
  unfold successors. rewrite range_length.
  unfold SizeT.add, SizeT.wrap, SizeT.max, SizeT.modulus. lia.
Qed.

(** ** One access *)

(** What a call of [access] that returns has done. *)
Lemma access_returns cfg c address t r c' :
  Cache.access cfg c address = (t, Returns (r, c')) ->
  exists s s',
    let b := address / MyBLOCK_SIZE cfg in
    let j := b mod N.of_nat (length (Cache.sets c)) in
    let c1 := Cache.with_sets c (<[N.to_nat j := s']> (Cache.sets c)) in
    MyBLOCK_SIZE cfg <> 0 /\ Cache.sets c <> [] /\
    Cache.sets c !! N.to_nat j = Some s /\
    CacheSet.access s b = Returns (r, s') /\
    Cache.memory c' = Cache.memory c /\
    Cache.sets c' = <[N.to_nat j := s']> (Cache.sets c) /\
    ((r = true /\ t = [EvTouch j b true; EvHits] /\ c' = Cache.incr_hits c1) \/
     (r = false /\ exists tp c2,
        Cache.prefetch_adjacent_blocks cfg c1 b = (tp, Returns c2) /\
        t = EvTouch j b false :: tp ++ [EvMisses] /\ c' = Cache.incr_misses c2)).
Proof.
  unfold Cache.access. intros H. returns H.
  repeat match goal with
  | E : SizeT.div _ _ = Returns _ |- _ => apply div_returns in E as [? ->]
  | E : SizeT.rem _ _ = Returns _ |- _ => apply rem_returns in E as [? ->]
  | E : Cache.index _ _ = Returns _ |- _ => apply index_returns in E
  end.
  match goal with E : CacheSet.access ?s _ = Returns (?hit, ?s') |- _ =>
    exists s, s'; simpl; destruct hit end.
  - returns H. simplify_eq.
    split; [done |]. split; [by destruct (Cache.sets c) |].
    split; [done |]. split; [done |]. split; [done |]. split; [done |].
    left. by simpl.
  - returns H. simplify_eq.
    match goal with E : Cache.prefetch_adjacent_blocks _ _ _ = (?tp, Returns ?c2) |- _ =>
      pose proof E as (_ & (Em & Es & _) & _)%prefetch_returns end.
    split; [done |]. split; [by destruct (Cache.sets c) |].
    split; [done |]. split; [done |]. split; [done |]. split; [done |].
    right. split; [done |]. do 2 eexists. by split.
Qed.

(** A call of [access] returns whenever the block size is not zero, the
    set the block maps to has a way, and the bound of the prefetch loop is
    not [SizeT.max]. *)
Lemma access_total cfg c address :
  MyBLOCK_SIZE cfg <> 0 -> Cache.sets c <> [] ->
  (forall s, s ∈ Cache.sets c -> 0 < CacheSet.ways s) ->
  SizeT.add (address / MyBLOCK_SIZE cfg) (PREFETCH_DISTANCE cfg) <> SizeT.max ->
  exists t r c', Cache.access cfg c address = (t, Returns (r, c')).
Proof.
  intros Hbs Hs Hw Hne. unfold Cache.access, SizeT.div, SizeT.rem.
  destruct (N.eqb_spec (MyBLOCK_SIZE cfg) 0) as [| _]; [done |].
  assert (Hn : N.of_nat (length (Cache.sets c)) <> 0).
  { destruct (Cache.sets c); simpl in *; [done | lia]. }
  destruct (N.eqb_spec (N.of_nat (length (Cache.sets c))) 0) as [| _]; [done |].
  simpl. unfold Cache.index.
  set (b := address / MyBLOCK_SIZE cfg) in *.
  set (j := b mod N.of_nat (length (Cache.sets c))).
  destruct (lookup_lt_is_Some_2 (Cache.sets c) (N.to_nat j)) as [s Hj].
  { pose proof (N.mod_lt b _ Hn). lia. }
  rewrite Hj. simpl.
  destruct (set_access_total s b) as (r & s' & Hacc).
  { apply Hw. by eapply list_elem_of_lookup_2. }
  rewrite Hacc. simpl. destruct r; simpl; [by do 3 eexists |].
  destruct (prefetch_total cfg
              (Cache.with_sets c (<[N.to_nat j := s']> (Cache.sets c))) b)
    as (tp & c2 & Hp); [| done |].
  { simpl. intros E. apply (f_equal length) in E. rewrite length_insert in E.
    destruct (Cache.sets c); simpl in *; [done | lia]. }
  rewrite Hp. simpl. by do 3 eexists.
Qed.

(** ** The invariant of the sets *)

Lemma num_sets_returns cfg n :
  Cache.num_sets cfg = Returns n ->
  SizeT.mul (MyBLOCK_SIZE cfg) (NUM_WAYS cfg) <> 0 /\ n = NUM_SETS cfg.
Proof.
  unfold Cache.num_sets, NUM_SETS. intros H.
  apply obind_returns in H as (q & [Hne ->]%div_returns & H).
  split; [done |]. inversion H. destruct (N.eqb_spec (CACHE_SIZE cfg / SizeT.mul (MyBLOCK_SIZE cfg) (NUM_WAYS cfg)) 0); lia.
Qed.

Lemma make_returns cfg mem c :
  Cache.make cfg mem = Returns c ->
  SizeT.mul (MyBLOCK_SIZE cfg) (NUM_WAYS cfg) <> 0 /\
  c = {| Cache.memory := mem;
         Cache.sets := replicate (N.to_nat (NUM_SETS cfg)) (CacheSet.make (NUM_WAYS cfg));
         Cache.hits := 0; Cache.misses := 0; Cache.prefetch_hits := 0 |}.
Proof.
  unfold Cache.make. intros H.
  apply obind_returns in H as (n & [Hne ->]%num_sets_returns & H).
  split; [done |]. by inversion H.
Qed.

Lemma ways_positive cfg :
  SizeT.mul (MyBLOCK_SIZE cfg) (NUM_WAYS cfg) <> 0 -> 0 < NUM_WAYS cfg.
Proof.
  unfold SizeT.mul, SizeT.wrap. intros H.
  destruct (N.eq_dec (NUM_WAYS cfg) 0) as [E | ?]; [| lia].
  rewrite E, N.mul_0_r in H. done.
Qed.

Lemma make_ok cfg mem c : Cache.make cfg mem = Returns c -> cache_ok cfg c.
Proof.
  intros [Hne ->]%make_returns. split; [done |]. simpl.
  split; [by rewrite length_replicate |].
  intros j s [-> _]%lookup_replicate. split; simpl; [done | lia | constructor |].
  intros b Hb. by apply elem_of_nil in Hb.
Qed.

Lemma access_ok cfg c address t r c' :
  cache_ok cfg c ->
  Cache.access cfg c address = (t, Returns (r, c')) ->
  cache_ok cfg c'.
Proof.
  intros (Hne & Hlen & Hsets) H.
  apply access_returns in H as (s & s' & H). simpl in H.
  destruct H as (_ & _ & Hj & Hacc & _ & Es & _).
  assert (En : N.of_nat (length (Cache.sets c)) = NUM_SETS cfg) by lia.
  rewrite En in *.
  split; [done |]. rewrite Es, length_insert. split; [done |].
  intros j s0 Hs0.
  destruct (decide (j = N.to_nat ((address / MyBLOCK_SIZE cfg) mod NUM_SETS cfg))) as [-> | Hjne].
  - rewrite list_lookup_insert_eq in Hs0 by (by eapply lookup_lt_Some). simplify_eq.
    eapply set_access_ok; [by apply ways_positive | | by apply Hsets | done]. lia.
  - rewrite list_lookup_insert_ne in Hs0 by done. by apply Hsets.
Qed.

Lemma access_all_cons cfg c a rest t rs c' :
  Cache.access_all cfg c (a :: rest) = (t, Returns (rs, c')) ->
  exists t1 r c1 t2 rs',
    Cache.access cfg c a = (t1, Returns (r, c1)) /\
    Cache.access_all cfg c1 rest = (t2, Returns (rs', c')) /\
    t = t1 ++ t2 /\ rs = r :: rs'.
Proof.
  simpl. intros H. returns H. simplify_eq. by repeat eexists.
Qed.

Lemma access_all_ok cfg addresses : forall c t rs c',
  cache_ok cfg c ->
  Cache.access_all cfg c addresses = (t, Returns (rs, c')) ->
  cache_ok cfg c'.
Proof.
  induction addresses as [| a rest IH]; intros c t rs c' Hok H.
  - simpl in H. returns H. by simplify_eq.
  - apply access_all_cons in H as (t1 & r & c1 & t2 & rs' & H1 & H2 & _).
    eapply IH, H2. by eapply access_ok, H1.
Qed.

Lemma reachable_ok cfg mem c : reachable cfg mem c -> cache_ok cfg c.
Proof.
  intros (c0 & addresses & t & rs & Hmake & Hrun).
  eapply access_all_ok, Hrun. by eapply make_ok.
Qed.

Lemma two_way_final_reachable : reachable two_way_config four_blocks two_way_final.
Proof.
  eexists _, [0; 4; 8; 12; 0], _, _. split; vm_compute; reflexivity.
Qed.

(** ** The sets of a reachable cache *)

(** C3. In every cache state reached from the constructor by calls of
    [access], there are NUM_SETS sets, each set holds at most NUM_WAYS
    block indices and none twice, and a block index resident in the set at
    index [j] has [j = b mod NUM_SETS]: it is in the set it maps to and in
    no other. *)
Theorem reachable_sets_invariant cfg mem c :
  reachable cfg mem c ->
  length (Cache.sets c) = N.to_nat (NUM_SETS cfg) /\
  (forall j s, Cache.sets c !! j = Some s ->
     N.of_nat (length (CacheSet.blocks s)) <= NUM_WAYS cfg /\
     NoDup (CacheSet.blocks s)) /\
  (forall j b, resident_in c j b -> N.of_nat j = b mod NUM_SETS cfg).
Proof.
  intros (_ & Hlen & Hsets)%reachable_ok. split; [done |]. split.
  - intros j s Hs. destruct (Hsets j s Hs). by split.
  - intros j b (s & Hs & Hb). destruct (Hsets j s Hs) as [_ _ _ Hhome].
    symmetry. by apply Hhome.
Qed.

Lemma reachable_sets_invariant_witness :
  reachable two_way_config four_blocks two_way_final /\
  length (Cache.sets two_way_final) = N.to_nat (NUM_SETS two_way_config) /\
  (forall j s, Cache.sets two_way_final !! j = Some s ->
     N.of_nat (length (CacheSet.blocks s)) <= NUM_WAYS two_way_config /\
     NoDup (CacheSet.blocks s)) /\
  (forall j b, resident_in two_way_final j b -> N.of_nat j = b mod NUM_SETS two_way_config).
Proof.
  split; [exact two_way_final_reachable |].
  exact (reachable_sets_invariant two_way_config four_blocks two_way_final
           two_way_final_reachable).
Defined.

(** ** The first end-to-end scenario *)

(** C5. With BLOCK_SIZE = 4, CACHE_SIZE = 16, NUM_WAYS = 2 (so two sets)
    and PREFETCH_DISTANCE = 0, the addresses 0, 4, 8, 12, 0 on a fresh
    cache give four misses and then one hit: misses = 4 and hits = 1 at
    the end, whatever the backing store. *)
Theorem two_way_scenario (mem : ExternalMemory.t) :
  NUM_SETS two_way_config = 2 /\
  exists c0 t c,
    Cache.make two_way_config mem = Returns c0 /\
    Cache.access_all two_way_config c0 [0; 4; 8; 12; 0] =
      (t, Returns ([false; false; false; false; true], c)) /\
    Cache.getMisses c = 4 /\ Cache.getHits c = 1.
Proof.
  split; [reflexivity |].
  eexists _, _, _. split; [reflexivity |]. split; [vm_compute; reflexivity |].
  split; reflexivity.
Qed.

(** ** Two accesses in a row *)

(** In a reachable cache an access returns, unless the bound of its
    prefetch loop is the largest [size_t]. *)
Lemma reachable_access_total cfg mem c address :
  reachable cfg mem c ->
  SizeT.add (address / MyBLOCK_SIZE cfg) (PREFETCH_DISTANCE cfg) <> SizeT.max ->
  exists t r c', Cache.access cfg c address = (t, Returns (r, c')).
Proof.
  intros (Hne & Hlen & Hsets)%reachable_ok Hbound.
  pose proof (ways_positive cfg Hne) as Hw.
  apply access_total; [| | | done].
  - intros E. apply Hne. unfold SizeT.mul, SizeT.wrap. by rewrite E.
  - intros E. rewrite E in Hlen. unfold NUM_SETS in Hlen. simpl in Hlen. lia.
  - intros s (j & Hj)%list_elem_of_lookup_1.
    destruct (Hsets j s Hj) as [-> _ _ _]. done.
Qed.

(** With the constants of the source, block size 32 and prefetch distance
    8, the bound of the prefetch loop is never the largest [size_t]: every
    access of a reachable cache returns. *)
Lemma source_config_access_total num_ways mem c address :
  reachable (source_config num_ways) mem c ->
  address < SizeT.modulus ->
  exists t r c', Cache.access (source_config num_ways) c address = (t, Returns (r, c')).
Proof.
  intros Hr Ha. eapply reachable_access_total; [done |].
  simpl. unfold SizeT.add, SizeT.wrap, SizeT.max, SizeT.modulus in *. lia.
Qed.

(** C6. From every cache state, when [access(a)] returns, hit or miss,
    an immediately following [access(a)] returns a hit. In a reachable
    state the first call does return, unless the bound of its prefetch
    loop is the largest [size_t]. *)
Theorem access_twice_hits cfg c address :
  (forall t1 r1 c1,
     Cache.access cfg c address = (t1, Returns (r1, c1)) ->
     exists t2 c2, Cache.access cfg c1 address = (t2, Returns (true, c2))) /\
  (forall mem,
     reachable cfg mem c ->
     SizeT.add (address / MyBLOCK_SIZE cfg) (PREFETCH_DISTANCE cfg) <> SizeT.max ->
     exists t1 r1 c1 t2 c2,
       Cache.access cfg c address = (t1, Returns (r1, c1)) /\
       Cache.access cfg c1 address = (t2, Returns (true, c2))).
Proof.
  assert (Hsecond : forall t1 r1 c1,
    Cache.access cfg c address = (t1, Returns (r1, c1)) ->
    exists t2 c2, Cache.access cfg c1 address = (t2, Returns (true, c2))).
  { intros t1 r1 c1 H. apply access_returns in H as (s & s' & H). simpl in H.
    destruct H as (Hbs & Hne & Hj & Hacc & _ & Es & _).
    apply set_access_front in Hacc as [l Hfront].
    destruct (set_access_hit s' (address / MyBLOCK_SIZE cfg) l Hfront) as [s2 Hhit].
    assert (Hn : N.of_nat (length (Cache.sets c)) <> 0).
    { destruct (Cache.sets c); simpl in *; [done | lia]. }
    unfold Cache.access, SizeT.div, SizeT.rem.
    rewrite Es, length_insert.
    destruct (N.eqb_spec (MyBLOCK_SIZE cfg) 0) as [| _]; [done |].
    destruct (N.eqb_spec (N.of_nat (length (Cache.sets c))) 0) as [| _]; [done |].
    simpl. unfold Cache.index.
    rewrite list_lookup_insert_eq by (by eapply lookup_lt_Some).
    simpl. rewrite Hhit. simpl. by do 2 eexists. }
  split; [done |].
  intros mem Hr Hbound.
  destruct (reachable_access_total cfg mem c address Hr Hbound) as (t1 & r1 & c1 & H1).
  destruct (Hsecond t1 r1 c1 H1) as (t2 & c2 & H2).
  by exists t1, r1, c1, t2, c2.
Qed.

Lemma access_twice_hits_witness :
  (Cache.access two_way_config two_way_final 16 =
     ([EvTouch 0 4 false; EvMisses], Returns (false, two_way_after_16)) /\
   exists t2 c2,
     Cache.access two_way_config two_way_after_16 16 = (t2, Returns (true, c2))) /\
  (reachable two_way_config four_blocks two_way_final /\
   SizeT.add (16 / MyBLOCK_SIZE two_way_config) (PREFETCH_DISTANCE two_way_config)
     <> SizeT.max /\
   exists t1 r1 c1 t2 c2,
     Cache.access two_way_config two_way_final 16 = (t1, Returns (r1, c1)) /\
     Cache.access two_way_config c1 16 = (t2, Returns (true, c2))).
Proof.
  assert (H : Cache.access two_way_config two_way_final 16 =
                ([EvTouch 0 4 false; EvMisses], Returns (false, two_way_after_16)))
    by (vm_compute; reflexivity).
  assert (Hb : SizeT.add (16 / MyBLOCK_SIZE two_way_config)
                 (PREFETCH_DISTANCE two_way_config) <> SizeT.max)
    by (vm_compute; discriminate).
  split.
  - split; [exact H |].
    exact (proj1 (access_twice_hits two_way_config two_way_final 16) _ _ _ H).
  - split; [exact two_way_final_reachable |]. split; [exact Hb |].
    exact (proj2 (access_twice_hits two_way_config two_way_final 16)
             four_blocks two_way_final_reachable Hb).
Defined.

(** ** The frame of an access *)

(** C9. A call [access(addr)] that returns leaves the number of sets as it
    was and changes no set but the one at index
    [(addr / BLOCK_SIZE) mod sets.size()], also on a miss that prefetches;
    in a cache of NUM_SETS sets that index is
    [(addr / BLOCK_SIZE) mod NUM_SETS]. *)
Theorem access_other_sets_unchanged cfg c address t r c' :
  Cache.access cfg c address = (t, Returns (r, c')) ->
  length (Cache.sets c') = length (Cache.sets c) /\
  (forall j,
     N.of_nat j <> (address / MyBLOCK_SIZE cfg) mod N.of_nat (length (Cache.sets c)) ->
     Cache.sets c' !! j = Cache.sets c !! j) /\
  (length (Cache.sets c) = N.to_nat (NUM_SETS cfg) ->
   forall j,
     N.of_nat j <> (address / MyBLOCK_SIZE cfg) mod NUM_SETS cfg ->
     Cache.sets c' !! j = Cache.sets c !! j).
Proof.
  intros H. apply access_returns in H as (s & s' & H). simpl in H.
  destruct H as (_ & _ & _ & _ & _ & Es & _).
  assert (Hframe : forall j,
    N.of_nat j <> (address / MyBLOCK_SIZE cfg) mod N.of_nat (length (Cache.sets c)) ->
    Cache.sets c' !! j = Cache.sets c !! j).
  { intros j Hj. rewrite Es. apply list_lookup_insert_ne. lia. }
  split; [by rewrite Es, length_insert |]. split; [done |].
  intros Hlen j Hj. apply Hframe.
  replace (N.of_nat (length (Cache.sets c))) with (NUM_SETS cfg) by lia. done.
Qed.

Lemma access_other_sets_unchanged_witness :
  Cache.access two_way_config two_way_final 16 =
    ([EvTouch 0 4 false; EvMisses], Returns (false, two_way_after_16)) /\
  length (Cache.sets two_way_after_16) = length (Cache.sets two_way_final) /\
  Cache.sets two_way_after_16 !! 1%nat = Cache.sets two_way_final !! 1%nat /\
  Cache.sets two_way_after_16 !! 0%nat <> Cache.sets two_way_final !! 0%nat.
Proof.
  assert (H : Cache.access two_way_config two_way_final 16 =
                ([EvTouch 0 4 false; EvMisses], Returns (false, two_way_after_16)))
    by (vm_compute; reflexivity).
  destruct (access_other_sets_unchanged two_way_config two_way_final 16 _ _ _ H)
    as (Hlen & _ & Hframe).
  split; [exact H |]. split; [exact Hlen |]. split.
  - apply Hframe; [reflexivity | vm_compute; discriminate].
  - vm_compute. discriminate.
Defined.

(** ** What the prefetch leaves behind *)

Lemma prefetch_event_length c i : (length (prefetch_event c i) <= 1)%nat.
Proof.
  unfold prefetch_event.
  destruct (i <? ExternalMemory.size (Cache.memory c)); [| simpl; lia].
  destruct (resident c i); simpl; lia.
Qed.

Lemma prefetch_trace_length c l :
  (length (flat_map (prefetch_event c) l) <= length l)%nat.
Proof.
  induction l as [| i l IH]; simpl; [lia |].
  rewrite length_app. pose proof (prefetch_event_length c i). lia.
Qed.

Lemma prefetch_trace_hit c l b :
  EvPrefetchHits b ∈ flat_map (prefetch_event c) l <->
  b ∈ l /\ b < ExternalMemory.size (Cache.memory c) /\ resident c b = true.
Proof.
  rewrite !list_elem_of_In, in_flat_map. unfold prefetch_event. split.
  - intros (i & Hi & He).
    destruct (N.ltb_spec i (ExternalMemory.size (Cache.memory c))); [| by destruct He].
    destruct (resident c i) eqn:Er; destruct He as [E | []]; by simplify_eq.
  - intros (Hb & Hlt & Er). exists b. split; [done |].
    apply N.ltb_lt in Hlt. rewrite Hlt, Er. by left.
Qed.

Lemma prefetch_trace_read c l b :
  EvRead b ∈ flat_map (prefetch_event c) l <->
  b ∈ l /\ b < ExternalMemory.size (Cache.memory c) /\ resident c b = false.
Proof.
  rewrite !list_elem_of_In, in_flat_map. unfold prefetch_event. split.
  - intros (i & Hi & He).
    destruct (N.ltb_spec i (ExternalMemory.size (Cache.memory c))); [| by destruct He].
    destruct (resident c i) eqn:Er; destruct He as [E | []]; by simplify_eq.
  - intros (Hb & Hlt & Er). exists b. split; [done |].
    apply N.ltb_lt in Hlt. rewrite Hlt, Er. by left.
Qed.

(** Without wrap-around the blocks visited are [b + 1], ..., [b +
    PREFETCH_DISTANCE]. *)
Lemma elem_of_successors cfg b b' :
  b + PREFETCH_DISTANCE cfg < SizeT.max ->
  b' ∈ successors cfg b <-> b < b' <= b + PREFETCH_DISTANCE cfg.
Proof.
  intros Hb. unfold successors. rewrite elem_of_range.
  unfold SizeT.add, SizeT.wrap, SizeT.max, SizeT.modulus in *. lia.
Qed.

(** The stores of the scenarios are those that the constructor builds. *)
Example stores_made :
  ExternalMemory.make two_way_config 4 = Returns four_blocks /\
  ExternalMemory.make prefetch_config 2 = Returns two_blocks /\
  ExternalMemory.make prefetch_config 8 = Returns eight_blocks.
Proof. repeat split; vm_compute; reflexivity. Qed.

(** The first access of a cache in front of two blocks: a miss on block
    0, whose prefetch reads block 1 and nothing else. *)
Example small_store_first_access :
  exists c0 c',
    Cache.make prefetch_config two_blocks = Returns c0 /\
    Cache.access prefetch_config c0 0 =
      ([EvTouch 0 0 false; EvRead 1; EvMisses], Returns (false, c')) /\
    Cache.prefetch_adjacent_blocks prefetch_config small_store_missing_0 0 =
      ([EvRead 1], Returns small_store_missing_0).
Proof. eexists _, _. repeat split; vm_compute; reflexivity. Qed.

(** C1. A prefetch for block [b] that returns has left every set (and
    the store, [hits] and [misses]) unchanged. Its trace lists, in order,
    the successors of [b] that are inside the backing store: a prefetch
    hit for a resident one, a read for a non-resident one;
    [prefetch_hits] is incremented once per prefetch hit; a successor
    outside the backing store is skipped. So, when
    [b + PREFETCH_DISTANCE] does not wrap around in [size_t], every
    successor [b'] in {b+1, ..., b+PREFETCH_DISTANCE} of the store that is
    resident is counted in [prefetch_hits], not read and not moved in its
    set, and every one that is not resident is read, not counted and not
    installed. The prefetch does return whenever the cache has a set and
    the bound [b + PREFETCH_DISTANCE] of its loop is not the largest
    [size_t]. *)
Theorem prefetch_leaves_sets_unchanged cfg c b :
  (forall t c',
     Cache.prefetch_adjacent_blocks cfg c b = (t, Returns c') ->
     Cache.sets c' = Cache.sets c /\
     same_but_prefetch_hits c c' /\
     t = flat_map (prefetch_event c) (successors cfg b) /\
     Cache.prefetch_hits c' =
       Nat.iter (count_prefetch_hits t) SizeT.incr (Cache.prefetch_hits c) /\
     (forall b', EvPrefetchHits b' ∈ t <->
        b' ∈ successors cfg b /\ b' < ExternalMemory.size (Cache.memory c) /\
        resident c b' = true) /\
     (forall b', EvRead b' ∈ t <->
        b' ∈ successors cfg b /\ b' < ExternalMemory.size (Cache.memory c) /\
        resident c b' = false)) /\
  (b + PREFETCH_DISTANCE cfg < SizeT.max ->
   forall b', b' ∈ successors cfg b <-> b < b' <= b + PREFETCH_DISTANCE cfg) /\
  (b + PREFETCH_DISTANCE cfg < SizeT.max ->
   forall t c',
     Cache.prefetch_adjacent_blocks cfg c b = (t, Returns c') ->
     forall b',
       b < b' <= b + PREFETCH_DISTANCE cfg ->
       b' < ExternalMemory.size (Cache.memory c) ->
       resident c' b' = resident c b' /\
       (resident c b' = true -> EvPrefetchHits b' ∈ t /\ (EvRead b' ∉ t)) /\
       (resident c b' = false -> EvRead b' ∈ t /\ (EvPrefetchHits b' ∉ t))) /\
  (Cache.sets c <> [] ->
   SizeT.add b (PREFETCH_DISTANCE cfg) <> SizeT.max ->
   exists t c', Cache.prefetch_adjacent_blocks cfg c b = (t, Returns c')).
Proof.
  split; [| split; [| split]].
  - intros t c' H. apply prefetch_returns in H as (Et & Hsame & Hph).
    split; [apply Hsame |]. split; [done |]. split; [done |]. split; [done |].
    rewrite Et. split; [apply prefetch_trace_hit | apply prefetch_trace_read].
  - intros Hb b'. by apply elem_of_successors.
  - intros Hb t c' H b' Hb' Hin.
    apply prefetch_returns in H as (Et & Hsame & Hph).
    apply (elem_of_successors cfg b b' Hb) in Hb'.
    split.
    { unfold resident, Cache.is_block_in_cache.
      destruct Hsame as (_ & -> & _). done. }
    rewrite Et. split; intros Hr.
    + split; [by apply prefetch_trace_hit |].
      intros (_ & _ & Hr')%prefetch_trace_read. congruence.
    + split; [by apply prefetch_trace_read |].
      intros (_ & _ & Hr')%prefetch_trace_hit. congruence.
  - apply prefetch_total.
Qed.

Lemma prefetch_leaves_sets_unchanged_witness :
  Cache.prefetch_adjacent_blocks prefetch_config prefetch_missing_0 0 =
    ([EvPrefetchHits 1; EvRead 2], Returns prefetch_after_4_0_uncounted) /\
  Cache.sets prefetch_after_4_0_uncounted = Cache.sets prefetch_missing_0 /\
  (0 + PREFETCH_DISTANCE prefetch_config < SizeT.max /\
   forall b', b' ∈ successors prefetch_config 0 <->
              0 < b' <= 0 + PREFETCH_DISTANCE prefetch_config) /\
  (0 < 1 <= 0 + PREFETCH_DISTANCE prefetch_config /\
   1 < ExternalMemory.size (Cache.memory prefetch_missing_0) /\
   resident prefetch_missing_0 1 = true /\
   (EvPrefetchHits 1 ∈ [EvPrefetchHits 1; EvRead 2]) /\
   (EvRead 1 ∉ [EvPrefetchHits 1; EvRead 2])) /\
  (0 < 2 <= 0 + PREFETCH_DISTANCE prefetch_config /\
   2 < ExternalMemory.size (Cache.memory prefetch_missing_0) /\
   resident prefetch_missing_0 2 = false /\
   (EvRead 2 ∈ [EvPrefetchHits 1; EvRead 2]) /\
   (EvPrefetchHits 2 ∉ [EvPrefetchHits 1; EvRead 2])) /\
  (Cache.sets prefetch_missing_0 <> [] /\
   SizeT.add 0 (PREFETCH_DISTANCE prefetch_config) <> SizeT.max /\
   exists t c',
     Cache.prefetch_adjacent_blocks prefetch_config prefetch_missing_0 0 = (t, Returns c')).
Proof.
  assert (H : Cache.prefetch_adjacent_blocks prefetch_config prefetch_missing_0 0 =
                ([EvPrefetchHits 1; EvRead 2], Returns prefetch_after_4_0_uncounted))
    by (vm_compute; reflexivity).
  assert (H0 : 0 + PREFETCH_DISTANCE prefetch_config < SizeT.max)
    by (vm_compute; reflexivity).
  assert (H1 : Cache.sets prefetch_missing_0 <> []) by discriminate.
  assert (H2 : SizeT.add 0 (PREFETCH_DISTANCE prefetch_config) <> SizeT.max)
    by (vm_compute; discriminate).
  assert (B1 : 0 < 1 <= 0 + PREFETCH_DISTANCE prefetch_config)
    by (split; [reflexivity | vm_compute; discriminate]).
  assert (B2 : 0 < 2 <= 0 + PREFETCH_DISTANCE prefetch_config)
    by (split; [reflexivity | vm_compute; discriminate]).
  assert (S1 : 1 < ExternalMemory.size (Cache.memory prefetch_missing_0))
    by (vm_compute; reflexivity).
  assert (S2 : 2 < ExternalMemory.size (Cache.memory prefetch_missing_0))
    by (vm_compute; reflexivity).
  assert (R1 : resident prefetch_missing_0 1 = true) by reflexivity.
  assert (R2 : resident prefetch_missing_0 2 = false) by reflexivity.
  destruct (prefetch_leaves_sets_unchanged prefetch_config prefetch_missing_0 0)
    as (Hframe & Hsucc & Hvisit & Htotal).
  split; [exact H |].
  split; [exact (proj1 (Hframe _ _ H)) |].
  split; [split; [exact H0 | exact (Hsucc H0)] |].
  split.
  { split; [exact B1 |]. split; [exact S1 |]. split; [exact R1 |].
    exact (proj1 (proj2 (Hvisit H0 _ _ H 1 B1 S1)) R1). }
  split.
  { split; [exact B2 |]. split; [exact S2 |]. split; [exact R2 |].
    exact (proj2 (proj2 (Hvisit H0 _ _ H 2 B2 S2)) R2). }
  split; [exact H1 |]. split; [exact H2 | exact (Htotal H1 H2)].
Defined.

(** ** The prefetch counter *)

(** A prefetch that returns has raised [prefetch_hits] by PREFETCH_DISTANCE
    at most. *)
Lemma prefetch_hits_step cfg c b t c' :
  Cache.prefetch_adjacent_blocks cfg c b = (t, Returns c') ->
  Cache.prefetch_hits c' <= Cache.prefetch_hits c + PREFETCH_DISTANCE cfg.
Proof.
  intros H. pose proof (prefetch_bound_not_max _ _ _ _ _ H) as Hne.
  apply prefetch_returns in H as (Et & _ & ->).
  pose proof (iter_incr_le (count_prefetch_hits t) (Cache.prefetch_hits c)).
  pose proof (count_prefetch_hits_le t).
  pose proof (prefetch_trace_length c (successors cfg b)).
  pose proof (successors_length cfg b Hne).
  rewrite <- Et in *. lia.
Qed.

Lemma count_misses_app t1 t2 : count_misses (t1 ++ t2) = count_misses t1 + count_misses t2.
Proof. unfold count_misses. rewrite List.filter_app, length_app. lia. Qed.

Lemma count_misses_prefetch c l : count_misses (flat_map (prefetch_event c) l) = 0.
Proof.
  induction l as [| i l IH]; simpl; [done |].
  rewrite count_misses_app, IH. unfold prefetch_event.
  destruct (i <? ExternalMemory.size (Cache.memory c)); [| done].
  by destruct (resident c i).
Qed.

Lemma count_misses_miss j b tp :
  count_misses tp = 0 -> count_misses (EvTouch j b false :: tp ++ [EvMisses]) = 1.
Proof.
  intros E. change (EvTouch j b false :: tp ++ [EvMisses])
    with ([EvTouch j b false] ++ tp ++ [EvMisses]).
  by rewrite !count_misses_app, E.
Qed.

(** One access: with [k] misses counted so far, the trace tells whether
    there are [k] or [k + 1] after it. *)
Lemma access_counters cfg c address t r c' k :
  Cache.misses c = SizeT.wrap k ->
  Cache.prefetch_hits c <= k * PREFETCH_DISTANCE cfg ->
  Cache.access cfg c address = (t, Returns (r, c')) ->
  count_misses t <= 1 /\
  Cache.misses c' = SizeT.wrap (k + count_misses t) /\
  Cache.prefetch_hits c' <= (k + count_misses t) * PREFETCH_DISTANCE cfg.
Proof.
  intros Hm Hp H. apply access_returns in H as (s & s' & H). simpl in H.
  destruct H as (_ & _ & _ & _ & _ & _ & [(_ & -> & ->) | (_ & tp & c2 & Hpre & -> & ->)]).
  - simpl. unfold count_misses. simpl. rewrite N.add_0_r. split; [lia | by split].
  - pose proof (prefetch_hits_step _ _ _ _ _ Hpre) as Hstep.
    apply prefetch_returns in Hpre as (-> & (_ & _ & _ & Em) & _).
    rewrite (count_misses_miss _ _ _ (count_misses_prefetch _ _)).
    simpl in *. split; [lia |]. split.
    + rewrite Em, Hm. unfold SizeT.incr, SizeT.add, SizeT.wrap, SizeT.modulus. lia.
    + lia.
Qed.

Lemma access_all_counters cfg addresses : forall c t rs c' k,
  Cache.misses c = SizeT.wrap k ->
  Cache.prefetch_hits c <= k * PREFETCH_DISTANCE cfg ->
  Cache.access_all cfg c addresses = (t, Returns (rs, c')) ->
  count_misses t <= N.of_nat (length addresses) /\
  Cache.misses c' = SizeT.wrap (k + count_misses t) /\
  Cache.prefetch_hits c' <= (k + count_misses t) * PREFETCH_DISTANCE cfg.
Proof.
  induction addresses as [| a rest IH]; intros c t rs c' k Hm Hp H.
  - simpl in H. returns H. simplify_eq. unfold count_misses. simpl.
    rewrite N.add_0_r. split; [lia | by split].
  - apply access_all_cons in H as (t1 & r & c1 & t2 & rs' & H1 & H2 & -> & _).
    destruct (access_counters _ _ _ _ _ _ _ Hm Hp H1) as (Hk1 & Hm1 & Hp1).
    destruct (IH _ _ _ _ _ Hm1 Hp1 H2) as (Hk2 & Hm2 & Hp2).
    rewrite count_misses_app, N.add_assoc. simpl length. split; [lia | by split].
Qed.

(** C7. After any run on a fresh cache, [misses] is the number of misses
    of the run modulo 2^64, and [prefetch_hits] is at most that number of
    misses times PREFETCH_DISTANCE. Hence after any run of fewer than 2^64
    accesses, in which the 64-bit counter [misses] cannot have wrapped
    around, [prefetch_hits <= misses * PREFETCH_DISTANCE]; and with
    PREFETCH_DISTANCE = 0 the counter [prefetch_hits] is 0 after every
    run, of any length. *)
Theorem prefetch_hits_bounded cfg mem c0 addresses t rs c :
  Cache.make cfg mem = Returns c0 ->
  Cache.access_all cfg c0 addresses = (t, Returns (rs, c)) ->
  Cache.getMisses c = SizeT.wrap (count_misses t) /\
  count_misses t <= N.of_nat (length addresses) /\
  Cache.getPrefetchHits c <= count_misses t * PREFETCH_DISTANCE cfg /\
  (N.of_nat (length addresses) < SizeT.modulus ->
   Cache.getPrefetchHits c <= Cache.getMisses c * PREFETCH_DISTANCE cfg) /\
  (PREFETCH_DISTANCE cfg = 0 -> Cache.getPrefetchHits c = 0).
Proof.
  intros [_ ->]%make_returns H.
  apply (access_all_counters _ _ _ _ _ _ 0) in H as (Hk & Hm & Hp);
    [| done | simpl; lia].
  rewrite N.add_0_l in Hm, Hp.
  unfold Cache.getPrefetchHits, Cache.getMisses.
  split; [done |]. split; [done |]. split; [done |]. split.
  - intros Hlen. rewrite Hm. unfold SizeT.wrap.
    rewrite N.mod_small by lia. done.
  - intros E. rewrite E in Hp. lia.
Qed.

Lemma prefetch_hits_bounded_witness :
  (Cache.make prefetch_config eight_blocks =
     Returns {| Cache.memory := eight_blocks;
                Cache.sets := [ {| CacheSet.blocks := []; CacheSet.ways := 4 |} ];
                Cache.hits := 0; Cache.misses := 0; Cache.prefetch_hits := 0 |} /\
   Cache.access_all prefetch_config
     {| Cache.memory := eight_blocks;
        Cache.sets := [ {| CacheSet.blocks := []; CacheSet.ways := 4 |} ];
        Cache.hits := 0; Cache.misses := 0; Cache.prefetch_hits := 0 |} [4; 0] =
     ([EvTouch 0 1 false; EvRead 2; EvRead 3; EvMisses;
       EvTouch 0 0 false; EvPrefetchHits 1; EvRead 2; EvMisses],
      Returns ([false; false], prefetch_after_4_0)) /\
   N.of_nat (length [4; 0]) < SizeT.modulus /\
   Cache.getPrefetchHits prefetch_after_4_0 <=
     Cache.getMisses prefetch_after_4_0 * PREFETCH_DISTANCE prefetch_config) /\
  (Cache.make two_way_config four_blocks =
     Returns {| Cache.memory := four_blocks;
                Cache.sets := [ {| CacheSet.blocks := []; CacheSet.ways := 2 |};
                                {| CacheSet.blocks := []; CacheSet.ways := 2 |} ];
                Cache.hits := 0; Cache.misses := 0; Cache.prefetch_hits := 0 |} /\
   Cache.access_all two_way_config
     {| Cache.memory := four_blocks;
        Cache.sets := [ {| CacheSet.blocks := []; CacheSet.ways := 2 |};
                        {| CacheSet.blocks := []; CacheSet.ways := 2 |} ];
        Cache.hits := 0; Cache.misses := 0; Cache.prefetch_hits := 0 |} [0; 4; 8; 12; 0] =
     ([EvTouch 0 0 false; EvMisses; EvTouch 1 1 false; EvMisses;
       EvTouch 0 2 false; EvMisses; EvTouch 1 3 false; EvMisses;
       EvTouch 0 0 true; EvHits],
      Returns ([false; false; false; false; true], two_way_final)) /\
   PREFETCH_DISTANCE two_way_config = 0 /\
   Cache.getPrefetchHits two_way_final = 0).
Proof.
  split.
  - assert (H1 : Cache.make prefetch_config eight_blocks =
      Returns {| Cache.memory := eight_blocks;
                 Cache.sets := [ {| CacheSet.blocks := []; CacheSet.ways := 4 |} ];
                 Cache.hits := 0; Cache.misses := 0; Cache.prefetch_hits := 0 |})
      by reflexivity.
    assert (H2 : Cache.access_all prefetch_config
      {| Cache.memory := eight_blocks;
         Cache.sets := [ {| CacheSet.blocks := []; CacheSet.ways := 4 |} ];
         Cache.hits := 0; Cache.misses := 0; Cache.prefetch_hits := 0 |} [4; 0] =
      ([EvTouch 0 1 false; EvRead 2; EvRead 3; EvMisses;
        EvTouch 0 0 false; EvPrefetchHits 1; EvRead 2; EvMisses],
       Returns ([false; false], prefetch_after_4_0)))
      by (vm_compute; reflexivity).
    assert (H3 : N.of_nat (length [4; 0]) < SizeT.modulus) by (vm_compute; reflexivity).
    split; [exact H1 |]. split; [exact H2 |]. split; [exact H3 |].
    exact (proj1 (proj2 (proj2 (proj2
             (prefetch_hits_bounded prefetch_config eight_blocks _ [4; 0] _ _ _ H1 H2)))) H3).
  - assert (H1 : Cache.make two_way_config four_blocks =
      Returns {| Cache.memory := four_blocks;
                 Cache.sets := [ {| CacheSet.blocks := []; CacheSet.ways := 2 |};
                                 {| CacheSet.blocks := []; CacheSet.ways := 2 |} ];
                 Cache.hits := 0; Cache.misses := 0; Cache.prefetch_hits := 0 |})
      by reflexivity.
    assert (H2 : Cache.access_all two_way_config
      {| Cache.memory := four_blocks;
         Cache.sets := [ {| CacheSet.blocks := []; CacheSet.ways := 2 |};
                         {| CacheSet.blocks := []; CacheSet.ways := 2 |} ];
         Cache.hits := 0; Cache.misses := 0; Cache.prefetch_hits := 0 |} [0; 4; 8; 12; 0] =
      ([EvTouch 0 0 false; EvMisses; EvTouch 1 1 false; EvMisses;
        EvTouch 0 2 false; EvMisses; EvTouch 1 3 false; EvMisses;
        EvTouch 0 0 true; EvHits],
       Returns ([false; false; false; false; true], two_way_final)))
      by (vm_compute; reflexivity).
    assert (H3 : PREFETCH_DISTANCE two_way_config = 0) by reflexivity.
    split; [exact H1 |]. split; [exact H2 |]. split; [exact H3 |].
    exact (proj2 (proj2 (proj2 (proj2
             (prefetch_hits_bounded two_way_config four_blocks _ _ _ _ _ H1 H2)))) H3).
Defined.

(** ** Reads of the backing store *)

Lemma read_block_throws m b :
  ExternalMemory.read_block m b = Throws OutOfRange <-> ExternalMemory.size m <= b.
Proof.
  unfold ExternalMemory.read_block.
  destruct (N.leb_spec (ExternalMemory.size m) b) as [Hle | Hlt]; [done |].
  destruct (ExternalMemory.blocks m !! N.to_nat b); split; (discriminate || lia).
Qed.

Lemma is_block_in_cache_no_throw c b e :
  Cache.is_block_in_cache c b <> Throws e.
Proof.
  unfold Cache.is_block_in_cache, SizeT.rem, Cache.index.
  destruct (N.of_nat (length (Cache.sets c)) =? 0); simpl; [discriminate |].
  destruct (Cache.sets c !! _); simpl; discriminate.
Qed.

(** One turn of the loop, however it ends: a read is inside the store,
    and nothing is thrown. *)
Lemma prefetch_visit_safe c i t o :
  Cache.prefetch_visit c i = (t, o) ->
  (forall j, EvRead j ∈ t -> j < ExternalMemory.size (Cache.memory c)) /\
  (forall e, o <> Throws e).
Proof.
  unfold Cache.prefetch_visit.
  destruct (N.ltb_spec i (ExternalMemory.size (Cache.memory c))) as [Hi | Hi].
  - pose proof (is_block_in_cache_no_throw c i) as Hno.
    destruct (read_block_in_range _ _ Hi) as (blk & _ & Er).
    destruct (Cache.is_block_in_cache c i) as [[|] | e | |]; simpl;
      rewrite ?Er; simpl; intros H; inversion H; subst; clear H.
    + split; [| discriminate]. intros j Hj.
      apply list_elem_of_singleton in Hj. discriminate.
    + split; [| discriminate]. intros j Hj.
      apply list_elem_of_singleton in Hj. by simplify_eq.
    + by destruct (Hno e).
    + split; [| discriminate]. intros j Hj. by apply elem_of_nil in Hj.
    + split; [| discriminate]. intros j Hj. by apply elem_of_nil in Hj.
  - intros H. inversion H; subst. split; [| discriminate].
    intros j Hj. by apply elem_of_nil in Hj.
Qed.

Lemma prefetch_loop_safe budget : forall i last c t o,
  Cache.prefetch_loop budget i last c = (t, o) ->
  (forall j, EvRead j ∈ t -> j < ExternalMemory.size (Cache.memory c)) /\
  (forall e, o <> Throws e).
Proof.
  induction budget as [| budget IH]; intros i last c t o H; simpl in H.
  - inversion H; subst. split; [| discriminate].
    intros j Hj. by apply elem_of_nil in Hj.
  - destruct (i <=? last).
    + destruct (Cache.prefetch_visit c i) as [t1 o1] eqn:H1.
      pose proof (prefetch_visit_safe _ _ _ _ H1) as [Hread1 Hno1].
      destruct o1 as [c1 | e | |]; simpl in H.
      * pose proof H1 as (_ & (Em & _) & _)%prefetch_visit_returns.
        destruct (Cache.prefetch_loop budget (SizeT.incr i) last c1) as [t2 o2] eqn:H2.
        apply IH in H2 as [Hread2 Hno2]. inversion H; subst.
        split; [| done]. intros j [Hj | Hj]%elem_of_app; [by apply Hread1 |].
        rewrite <- Em. by apply Hread2.
      * by destruct (Hno1 e).
      * inversion H; subst. split; [done | discriminate].
      * inversion H; subst. split; [done | discriminate].
    + inversion H; subst. split; [| discriminate].
      intros j Hj. by apply elem_of_nil in Hj.
Qed.

Lemma set_access_no_throw s b e : CacheSet.access s b <> Throws e.
Proof.
  unfold CacheSet.access, CacheSet.pop_back.
  destruct (CacheSet.found b (CacheSet.blocks s)); [discriminate |].
  destruct (CacheSet.ways s <=? _); [| discriminate].
  destruct (CacheSet.blocks s); discriminate.
Qed.

(** An access throws nothing either, however it ends. *)
Lemma access_no_throw cfg c address t o e :
  Cache.access cfg c address = (t, o) -> o <> Throws e.
Proof.
  unfold Cache.access, SizeT.div, SizeT.rem, Cache.index.
  destruct (MyBLOCK_SIZE cfg =? 0); simpl; [intros H; by inversion H |].
  destruct (N.of_nat (length (Cache.sets c)) =? 0); simpl; [intros H; by inversion H |].
  destruct (Cache.sets c !! _) as [s |]; simpl; [| intros H; by inversion H].
  pose proof (set_access_no_throw s (address / MyBLOCK_SIZE cfg)) as Hset.
  destruct (CacheSet.access s _) as [[[|] s'] | e' | |]; simpl;
    try (intros H; by inversion H).
  - destruct (Cache.prefetch_adjacent_blocks cfg _ _) as [tp op] eqn:Hp.
    unfold Cache.prefetch_adjacent_blocks in Hp.
    apply prefetch_loop_safe in Hp as [_ Hno].
    destruct op as [c2 | e2 | |]; simpl; intros H; inversion H; subst; try done.
    by destruct (Hno e2).
  - by destruct (Hset e').
Qed.

(** C8. [read_block(b)] throws [OutOfRange] exactly when [b >= size()]
    and returns the block at index [b] otherwise. Every [read_block] that
    a prefetch issues is for a block inside the store and returns it; a
    prefetch never ends in an exception, however it ends, and neither
    does the access around it. *)
Theorem read_block_range_and_prefetch_reads :
  (forall m b,
     ExternalMemory.read_block m b = Throws OutOfRange <-> ExternalMemory.size m <= b) /\
  (forall m b, b < ExternalMemory.size m ->
     exists blk, ExternalMemory.blocks m !! N.to_nat b = Some blk /\
                 ExternalMemory.read_block m b = Returns blk) /\
  (forall cfg c b t o,
     Cache.prefetch_adjacent_blocks cfg c b = (t, o) ->
     (forall i, EvRead i ∈ t ->
        i < ExternalMemory.size (Cache.memory c) /\
        exists blk, ExternalMemory.read_block (Cache.memory c) i = Returns blk) /\
     (forall e, o <> Throws e)) /\
  (forall cfg c address t o e, Cache.access cfg c address = (t, o) -> o <> Throws e).
Proof.
  split; [apply read_block_throws |]. split; [apply read_block_in_range |].
  split; [| apply access_no_throw].
  intros cfg c b t o H. unfold Cache.prefetch_adjacent_blocks in H.
  apply prefetch_loop_safe in H as [Hread Hno]. split; [| done].
  intros i Hi. specialize (Hread i Hi). split; [done |].
  destruct (read_block_in_range _ _ Hread) as (blk & _ & E). eauto.
Qed.

Lemma read_block_range_and_prefetch_reads_witness :
  (ExternalMemory.read_block two_blocks 2 = Throws OutOfRange <->
   ExternalMemory.size two_blocks <= 2) /\
  (1 < ExternalMemory.size two_blocks /\
   exists blk, ExternalMemory.blocks two_blocks !! N.to_nat 1 = Some blk /\
               ExternalMemory.read_block two_blocks 1 = Returns blk) /\
  (Cache.prefetch_adjacent_blocks prefetch_config small_store_missing_0 0 =
     ([EvRead 1], Returns small_store_missing_0) /\
   (forall i, EvRead i ∈ [EvRead 1] ->
      i < ExternalMemory.size (Cache.memory small_store_missing_0) /\
      exists blk, ExternalMemory.read_block (Cache.memory small_store_missing_0) i = Returns blk) /\
   (forall e, Returns small_store_missing_0 <> Throws e)).
Proof.
  destruct read_block_range_and_prefetch_reads as (H1 & H2 & H3 & _).
  assert (Hr : 1 < ExternalMemory.size two_blocks) by (vm_compute; reflexivity).
  assert (Hp : Cache.prefetch_adjacent_blocks prefetch_config small_store_missing_0 0 =
                 ([EvRead 1], Returns small_store_missing_0)) by (vm_compute; reflexivity).
  split; [exact (H1 two_blocks 2) |].
  split; [split; [exact Hr | exact (H2 two_blocks 1 Hr)] |].
  split; [exact Hp |].
  exact (H3 prefetch_config small_store_missing_0 0 _ _ Hp).
Defined.

(** ** The order of the counter updates *)

Lemma all_before_app first second (l1 l2 : list event) :
  (forall e, e ∈ l1 -> second e = false) ->
  (forall e, e ∈ l2 -> first e = false) ->
  all_before first second (l1 ++ l2).
Proof.
  intros H1 H2 i j e e' Hi Hj Hf Hs.
  destruct (decide (i < length l1)%nat) as [Hlt | Hge].
  - destruct (decide (j < length l1)%nat) as [Hlt' | Hge']; [| lia].
    rewrite lookup_app_l in Hj by done.
    apply list_elem_of_lookup_2, H1 in Hj. congruence.
  - rewrite lookup_app_r in Hi by lia.
    apply list_elem_of_lookup_2, H2 in Hi. congruence.
Qed.

Lemma prefetch_event_steps c i e :
  e ∈ prefetch_event c i -> is_prefetch_step e = true.
Proof.
  unfold prefetch_event.
  destruct (i <? ExternalMemory.size (Cache.memory c)); [| by intros ?%elem_of_nil].
  destruct (resident c i); by intros ->%list_elem_of_singleton.
Qed.

Lemma prefetch_trace_steps c l e :
  e ∈ flat_map (prefetch_event c) l -> is_prefetch_step e = true.
Proof.
  rewrite list_elem_of_In, in_flat_map. intros (i & _ & He).
  eapply prefetch_event_steps. by apply list_elem_of_In.
Qed.

(** The events of one access: the lookup, the steps of the prefetch on a
    miss, and last the update of [hits] or [misses]. *)
Lemma access_trace cfg c address t r c' :
  Cache.access cfg c address = (t, Returns (r, c')) ->
  exists j b tp,
    t = EvTouch j b r :: tp ++ [if r then EvHits else EvMisses] /\
    (r = true -> tp = []) /\
    (forall e, e ∈ tp -> is_prefetch_step e = true).
Proof.
  intros H. apply access_returns in H as (s & s' & H). simpl in H.
  destruct H as (_ & _ & _ & _ & _ & _ & [(-> & -> & _) | (-> & tp & c2 & Hpre & -> & _)]).
  - eexists _, _, []. split; [done |]. split; [done |]. by intros e ?%elem_of_nil.
  - eexists _, _, tp. split; [done |]. split; [done |].
    apply prefetch_returns in Hpre as (-> & _). apply prefetch_trace_steps.
Qed.

(** C4, as worded, fails: with block 1 resident, a miss on block 0 finds
    block 1 while prefetching and counts the prefetch hit before it counts
    the miss. *)
Lemma prefetch_hit_counted_before_miss :
  ~ miss_counted_before_prefetch prefetch_config prefetch_after_4 0.
Proof.
  intros H.
  destruct (H [EvTouch 0 0 false; EvPrefetchHits 1; EvRead 2; EvMisses]
              false prefetch_after_4_0) as [_ Hord]; [vm_compute; reflexivity |].
  specialize (Hord 3%nat 1%nat EvMisses (EvPrefetchHits 1) eq_refl eq_refl eq_refl eq_refl).
  lia.
Qed.

(** C4, amended. In the trace of a run, the events of the first access
    all come before those of the accesses that follow. Within one access
    the lookup comes first and the update of [hits] or [misses] last: it
    follows the outcome of the lookup, and on a miss every update of
    [prefetch_hits] comes after the lookup and strictly before the miss is
    counted in [misses]. *)
Theorem counters_updated_in_order cfg c address rest t rs c' :
  Cache.access_all cfg c (address :: rest) = (t, Returns (rs, c')) ->
  exists t1 r c1 t2 rs',
    Cache.access cfg c address = (t1, Returns (r, c1)) /\
    Cache.access_all cfg c1 rest = (t2, Returns (rs', c')) /\
    t = t1 ++ t2 /\ rs = r :: rs' /\
    (exists j b tp,
       t1 = EvTouch j b r :: tp ++ [if r then EvHits else EvMisses] /\
       (r = true -> tp = []) /\
       (forall e, e ∈ tp -> is_prefetch_step e = true)) /\
    all_before is_touch is_hits_or_misses t1 /\
    all_before is_prefetch_hit is_misses t1.
Proof.
  intros H. apply access_all_cons in H as (t1 & r & c1 & t2 & rs' & H1 & H2 & -> & ->).
  exists t1, r, c1, t2, rs'. split; [done |]. split; [done |].
  split; [done |]. split; [done |].
  destruct (access_trace _ _ _ _ _ _ H1) as (j & b & tp & -> & Htp & Hsteps).
  split; [by exists j, b, tp |]. split.
  - apply (all_before_app _ _ [EvTouch j b r]).
    + by intros e ->%list_elem_of_singleton.
    + intros e [He | ->%list_elem_of_singleton]%elem_of_app.
      * apply Hsteps in He. by destruct e.
      * by destruct r.
  - rewrite app_comm_cons. apply all_before_app.
    + intros e [-> | He]%elem_of_cons; [done |].
      apply Hsteps in He. by destruct e.
    + intros e ->%list_elem_of_singleton. by destruct r.
Qed.

Lemma counters_updated_in_order_witness :
  Cache.access_all prefetch_config prefetch_after_4 [0] =
    ([EvTouch 0 0 false; EvPrefetchHits 1; EvRead 2; EvMisses],
     Returns ([false], prefetch_after_4_0)) /\
  exists t1 r c1 t2 rs',
    Cache.access prefetch_config prefetch_after_4 0 = (t1, Returns (r, c1)) /\
    Cache.access_all prefetch_config c1 [] = (t2, Returns (rs', prefetch_after_4_0)) /\
    [EvTouch 0 0 false; EvPrefetchHits 1; EvRead 2; EvMisses] = t1 ++ t2 /\
    [false] = r :: rs' /\
    (exists j b tp,
       t1 = EvTouch j b r :: tp ++ [if r then EvHits else EvMisses] /\
       (r = true -> tp = []) /\
       (forall e, e ∈ tp -> is_prefetch_step e = true)) /\
    all_before is_touch is_hits_or_misses t1 /\
    all_before is_prefetch_hit is_misses t1.
Proof.
  assert (H : Cache.access_all prefetch_config prefetch_after_4 [0] =
    ([EvTouch 0 0 false; EvPrefetchHits 1; EvRead 2; EvMisses],
     Returns ([false], prefetch_after_4_0))) by (vm_compute; reflexivity).
  split; [exact H |].
  exact (counters_updated_in_order prefetch_config prefetch_after_4 0 [] _ _ _ H).
Defined.

(** ** The generator and the driver *)

Section Driver.
Context (cfg : Config) {Gen : Type}.
Variable uniform_real : Gen -> Q * Gen.
Variable uniform_int : N * N -> Gen -> N * Gen.

Local Abbreviation pattern := (RealisticAccessPattern.t Gen).
Local Abbreviation next_address :=
  (RealisticAccessPattern.next_address cfg uniform_real uniform_int).
Local Abbreviation addresses :=
  (RealisticAccessPattern.addresses cfg uniform_real uniform_int).
Local Abbreviation drive := (CacheSimulator.drive cfg uniform_real uniform_int).
Local Abbreviation run_simulation :=
  (CacheSimulator.run_simulation cfg uniform_real uniform_int).

(** The driver loop is a run of [access] over the addresses that the
    generator draws. *)
Lemma drive_access_all n : forall (p : pattern) c,
  drive n p c =
    (do ' (_, c') <- Cache.access_all cfg c (fst (addresses n p));
     ret (snd (addresses n p), c')).
Proof.
  induction n as [| n IH]; intros p c; [done |].
  simpl.
  destruct (next_address p) as [a p'].
  specialize (IH p').
  destruct (addresses n p') as [l p''] eqn:El.
  simpl in *.
  destruct (Cache.access cfg c a) as [t1 [[r c1] | e | |]]; simpl; try done.
  rewrite IH.
  destruct (Cache.access_all cfg c1 l) as [t2 [[rs c2] | e | |]]; simpl; try done.
  by rewrite !app_nil_r.
Qed.

(** The cache that a simulation ends with is a reachable one. *)
Lemma run_simulation_reachable seed t c :
  run_simulation seed = (t, Returns c) ->
  exists num_blocks memory,
    SizeT.div (NUM_ELEMENTS cfg) (MyBLOCK_SIZE cfg) = Returns num_blocks /\
    ExternalMemory.make cfg num_blocks = Returns memory /\
    reachable cfg memory c.
Proof.
  unfold CacheSimulator.run_simulation. intros H. returns H.
  match goal with E : SizeT.div _ _ = Returns ?n |- _ => exists n end.
  match goal with E : ExternalMemory.make _ _ = Returns ?m |- _ => exists m end.
  split; [done |]. split; [done |].
  match goal with E : CacheSimulator.drive _ _ _ _ _ _ = _ |- _ =>
    rewrite drive_access_all in E; returns E end.
  simplify_eq. by repeat eexists.
Qed.

Lemma next_address_exhausted (p : pattern) :
  RealisticAccessPattern.num_elements p <= RealisticAccessPattern.count p ->
  next_address p = (0, p).
Proof.
  intros H. unfold RealisticAccessPattern.next_address.
  apply N.leb_le in H. by rewrite H.
Qed.

Lemma addresses_exhausted (p : pattern) n :
  RealisticAccessPattern.num_elements p <= RealisticAccessPattern.count p ->
  addresses n p = (repeat 0 n, p).
Proof.
  intros H. induction n as [| n IH]; [done |].
  simpl. rewrite (next_address_exhausted p H). by rewrite IH.
Qed.

(** C10. Once [count >= num_elements], [next_address()] returns the
    address 0 and leaves the generator as it was, [count] included: it
    neither fails nor wraps around, and any number of further calls give
    address 0 again. Address 0 decodes to block 0, and the driver loop
    run on such a generator is a run of accesses to address 0: the cache
    cannot tell the sentinel from an access to block 0. *)
Theorem exhausted_generator_returns_zero (p : pattern) :
  RealisticAccessPattern.num_elements p <= RealisticAccessPattern.count p ->
  next_address p = (0, p) /\
  RealisticAccessPattern.count (snd (next_address p)) = RealisticAccessPattern.count p /\
  (forall n, addresses n p = (repeat 0 n, p)) /\
  (MyBLOCK_SIZE cfg <> 0 -> SizeT.div 0 (MyBLOCK_SIZE cfg) = Returns 0) /\
  (forall n c,
     drive n p c = (do ' (_, c') <- Cache.access_all cfg c (repeat 0 n); ret (p, c'))).
Proof.
  intros H. split; [by apply next_address_exhausted |].
  split; [by rewrite next_address_exhausted |].
  split; [intros n; by apply addresses_exhausted |]. split.
  - intros Hbs. unfold SizeT.div. apply N.eqb_neq in Hbs. by rewrite Hbs.
  - intros n c. rewrite drive_access_all. by rewrite addresses_exhausted.
Qed.

End Driver.

Lemma exhausted_generator_returns_zero_witness :
  RealisticAccessPattern.num_elements exhausted_pattern <=
    RealisticAccessPattern.count exhausted_pattern /\
  RealisticAccessPattern.next_address two_way_config counting_real counting_int
    exhausted_pattern = (0, exhausted_pattern).
Proof.
  assert (H : RealisticAccessPattern.num_elements exhausted_pattern <=
              RealisticAccessPattern.count exhausted_pattern) by (vm_compute; discriminate).
  split; [exact H |].
  exact (proj1 (exhausted_generator_returns_zero two_way_config counting_real
                  counting_int exhausted_pattern H)).
Defined.

(** ** Rounding to a double *)

Section DoubleRounding.
Local Open Scope Z_scope.

Lemma iter_pos_nat {A} (f : A -> A) k : forall x,
  SpecFloat.iter_pos f k x = Nat.iter (Pos.to_nat k) f x.
Proof.
  induction k as [k IH | k IH |]; intros x.
  - change (SpecFloat.iter_pos f k~1 x)
      with (SpecFloat.iter_pos f k (SpecFloat.iter_pos f k (f x))).
    rewrite !IH, Pos2Nat.inj_xI, <- Nat.iter_add, <- Nat.iter_succ_r.
    f_equal. lia.
  - change (SpecFloat.iter_pos f k~0 x)
      with (SpecFloat.iter_pos f k (SpecFloat.iter_pos f k x)).
    rewrite !IH, Pos2Nat.inj_xO, <- Nat.iter_add. f_equal. lia.
  - done.
Qed.

Lemma shr_1_digits mrs :
  0 <= shr_m mrs ->
  0 <= shr_m (shr_1 mrs) /\ Zdigits2 (shr_m (shr_1 mrs)) = Z.max 0 (Zdigits2 (shr_m mrs) - 1).
Proof.
  destruct mrs as [[| [q | q |] | q] r s]; simpl; intros H; try lia.
Qed.

Lemma shr_iter_digits n : forall mrs,
  0 <= shr_m mrs ->
  0 <= shr_m (Nat.iter n shr_1 mrs) /\
  Zdigits2 (shr_m (Nat.iter n shr_1 mrs)) = Z.max 0 (Zdigits2 (shr_m mrs) - Z.of_nat n).
Proof.
  induction n as [| n IH]; intros mrs H.
  - simpl. split; [done |]. destruct (shr_m mrs); simpl in *; lia.
  - rewrite Nat.iter_succ. destruct (IH mrs H) as [H1 H2].
    destruct (shr_1_digits _ H1) as [H3 H4]. split; [done |]. lia.
Qed.

Lemma Zdigits2_nonneg z : 0 <= Zdigits2 z.
Proof. destruct z; simpl; lia. Qed.

Lemma Zdigits2_pos z : 0 <= z -> 0 < Zdigits2 z -> 0 < z.
Proof. destruct z; simpl; lia. Qed.

Lemma shr_digits mrs e n :
  0 <= shr_m mrs ->
  0 <= shr_m (fst (shr mrs e n)) /\
  Zdigits2 (shr_m (fst (shr mrs e n))) = Z.max 0 (Zdigits2 (shr_m mrs) - Z.max 0 n) /\
  snd (shr mrs e n) = e + Z.max 0 n.
Proof.
  intros H. pose proof (Zdigits2_nonneg (shr_m mrs)).
  destruct n as [| k | k]; simpl; [lia | | lia].
  rewrite iter_pos_nat.
  destruct (shr_iter_digits (Pos.to_nat k) mrs H) as [H1 H2]. lia.
Qed.

Lemma shr_record_of_loc_m m l : shr_m (shr_record_of_loc m l) = m.
Proof. by destruct l as [| []]. Qed.

(** Rounding a mantissa of 53 digits or more to 53 digits. *)
Lemma shr_fexp_digits m e l :
  0 < m -> 53 <= Zdigits2 m -> -1074 <= e ->
  0 < shr_m (fst (shr_fexp 53 1024 m e l)) /\
  Zdigits2 (shr_m (fst (shr_fexp 53 1024 m e l))) = 53 /\
  snd (shr_fexp 53 1024 m e l) = e + Zdigits2 m - 53.
Proof.
  intros Hm Hd He. unfold shr_fexp, fexp, emin.
  replace (Z.max (Zdigits2 m + e - 53) (3 - 1024 - 53) - e) with (Zdigits2 m - 53) by lia.
  destruct (shr_digits (shr_record_of_loc m l) e (Zdigits2 m - 53)) as (H1 & H2 & H3).
  { rewrite shr_record_of_loc_m. lia. }
  rewrite shr_record_of_loc_m in H2.
  split; [apply Zdigits2_pos; lia |]. lia.
Qed.

Lemma digits2_pos_succ p :
  digits2_pos (Pos.succ p) = digits2_pos p \/
  digits2_pos (Pos.succ p) = Pos.succ (digits2_pos p).
Proof.
  induction p as [p IH | p IH |]; simpl; [| by left | by right].
  destruct IH as [-> | ->]; [by left | by right].
Qed.

Lemma round_nearest_even_digits m l :
  0 < m ->
  0 < round_nearest_even m l /\
  Zdigits2 m <= Zdigits2 (round_nearest_even m l) <= Zdigits2 m + 1.
Proof.
  intros Hm. destruct m as [| p | p]; [lia | | lia].
  assert (Hs : 0 < Z.pos p + 1 /\
               Zdigits2 (Z.pos p) <= Zdigits2 (Z.pos p + 1) <= Zdigits2 (Z.pos p) + 1).
  { split; [lia |]. replace (Z.pos p + 1) with (Z.pos (Pos.succ p)) by lia.
    simpl. destruct (digits2_pos_succ p) as [-> | ->]; lia. }
  unfold round_nearest_even.
  destruct l as [| []]; try destruct (Z.even (Z.pos p)); (done || (split; lia)).
Qed.

(** A positive mantissa of at least 53 digits, of a magnitude far from
    the overflow threshold, rounds to a finite double. *)
Lemma binary_round_aux_finite sx mx ex lx :
  0 < mx -> 53 <= Zdigits2 mx -> -1074 <= ex -> Zdigits2 mx + ex <= 1023 ->
  exists m e, binary_round_aux 53 1024 sx mx ex lx = S754_finite sx m e.
Proof.
  intros Hm Hd He Hmag. unfold binary_round_aux.
  destruct (shr_fexp_digits mx ex lx Hm Hd He) as (H1 & H2 & H3).
  destruct (shr_fexp 53 1024 mx ex lx) as [mrs' e']. simpl in H1, H2, H3.
  destruct (round_nearest_even_digits (shr_m mrs') (loc_of_shr_record mrs') H1) as (H4 & H5).
  set (m2 := round_nearest_even (shr_m mrs') (loc_of_shr_record mrs')) in *.
  destruct (shr_fexp_digits m2 e' loc_Exact) as (H6 & H7 & H8); [done | lia | lia |].
  destruct (shr_fexp 53 1024 m2 e' loc_Exact) as [mrs'' e'']. simpl in H6, H7, H8.
  destruct (shr_m mrs'') as [| m3 | m3]; [lia | | lia].
  destruct (Z.leb_spec e'' (1024 - 53)); [eauto | lia].
Qed.

(** A mantissa that is not negative never rounds to NaN. *)
Lemma binary_round_aux_not_nan sx mx ex lx :
  0 <= mx -> binary_round_aux 53 1024 sx mx ex lx <> S754_nan.
Proof.
  intros Hm. unfold binary_round_aux, shr_fexp.
  destruct (shr_digits (shr_record_of_loc mx lx) ex
              (fexp 53 1024 (Zdigits2 mx + ex) - ex)) as (H1 & _).
  { by rewrite shr_record_of_loc_m. }
  destruct (shr _ _ _) as [mrs' e']. simpl in H1.
  set (m2 := round_nearest_even (shr_m mrs') (loc_of_shr_record mrs')).
  assert (H2 : 0 <= m2).
  { unfold m2, round_nearest_even.
    destruct (loc_of_shr_record mrs') as [| []]; try destruct (Z.even _); lia. }
  destruct (shr_digits (shr_record_of_loc m2 loc_Exact) e'
              (fexp 53 1024 (Zdigits2 m2 + e') - e')) as (H3 & _).
  { by rewrite shr_record_of_loc_m. }
  destruct (shr _ _ _) as [mrs'' e'']. simpl in H3.
  destruct (shr_m mrs'') as [| m3 | m3]; [done | | lia].
  by destruct (e'' <=? 1024 - 53).
Qed.

Lemma digits2_pos_bound p : forall k : nat,
  Z.pos p < 2 ^ Z.of_nat k -> Z.pos (digits2_pos p) <= Z.of_nat k.
Proof.
  induction p as [p IH | p IH |]; intros k H; simpl.
  - destruct k as [| k]; [simpl in H; lia |].
    rewrite Nat2Z.inj_succ, Z.pow_succ_r in H by lia.
    specialize (IH k). lia.
  - destruct k as [| k]; [simpl in H; lia |].
    rewrite Nat2Z.inj_succ, Z.pow_succ_r in H by lia.
    specialize (IH k). lia.
  - destruct k as [| k]; [simpl in H; lia | lia].
Qed.

Lemma digits2_pos_iter_xO k : forall p,
  Z.pos (digits2_pos (Pos.iter xO p k)) = Z.pos (digits2_pos p) + Z.pos k.
Proof.
  induction k as [| k IH] using Pos.peano_ind; intros p.
  - simpl. lia.
  - rewrite Pos.iter_succ. cbn [digits2_pos]. rewrite Pos2Z.inj_succ, IH. lia.
Qed.

Lemma to_double_finite n :
  (0 < n < 2 ^ 64)%N -> exists m e, Cache.to_double n = S754_finite false m e.
Proof.
  intros Hn. destruct n as [| p]; [lia |].
  unfold Cache.to_double, binary_normalize. simpl Z.of_N. cbv beta iota.
  unfold binary_round.
  assert (Hd : Z.pos (digits2_pos p) <= 64).
  { apply (digits2_pos_bound p 64). lia. }
  unfold fexp, emin, shl_align.
  replace (Z.max (Z.pos (digits2_pos p) + 0 - 53) (3 - 1024 - 53) - 0)
    with (Z.pos (digits2_pos p) - 53) by lia.
  destruct (Z.pos (digits2_pos p) - 53) as [| k | k] eqn:E.
  - apply binary_round_aux_finite; simpl; lia.
  - apply binary_round_aux_finite; simpl; lia.
  - replace (Z.max (Z.pos (digits2_pos p) + 0 - 53) (3 - 1024 - 53))
      with (Z.pos (digits2_pos p) - 53) by lia.
    apply binary_round_aux_finite; simpl; rewrite ?digits2_pos_iter_xO; lia.
Qed.

Lemma div_eucl_nonneg a b : 0 <= a -> 0 < b -> 0 <= fst (Z.div_eucl a b).
Proof.
  intros Ha Hb. change (fst (Z.div_eucl a b)) with (a / b).
  apply Z.div_pos; lia.
Qed.

(** The quotient of two doubles that are zero or finite is NaN only for
    zero by zero. *)
Lemma double_div_finite sx mx ex sy my ey :
  Cache.double_div (S754_finite sx mx ex) (S754_finite sy my ey) <> S754_nan.
Proof.
  unfold Cache.double_div, SFdiv, SFdiv_core_binary.
  set (s := ex - ey - _).
  set (m' := match s with Z0 => Z.pos mx | Z.pos _ => Z.shiftl (Z.pos mx) s | Z.neg _ => 0 end).
  assert (Hm' : 0 <= m').
  { unfold m'. destruct s; [lia | | lia]. apply Z.shiftl_nonneg. lia. }
  pose proof (div_eucl_nonneg m' (Z.pos my) Hm' ltac:(lia)) as Hq.
  destruct (Z.div_eucl m' (Z.pos my)) as [q r]. simpl in Hq.
  by apply binary_round_aux_not_nan.
Qed.

End DoubleRounding.

(** ** The rates *)

Example two_way_fresh_made :
  Cache.make two_way_config four_blocks = Returns two_way_fresh.
Proof. reflexivity. Qed.

(** The rates of three states: NaN on the fresh cache; 1/5 after one hit
    and four misses (7205759403792794 / 2^55); 1/3 for no hit, two misses
    and one prefetch hit (6004799503160661 / 2^54). *)
Example rates_evaluated :
  Cache.getHitRate two_way_fresh = S754_nan /\
  Cache.getEffectiveHitRate two_way_fresh = S754_nan /\
  Cache.getHitRate two_way_final = S754_finite false 7205759403792794 (-55) /\
  Cache.getEffectiveHitRate prefetch_after_4_0 =
    S754_finite false 6004799503160661 (-54).
Proof. repeat split; vm_compute; reflexivity. Qed.

(** C2, as worded, fails: on a fresh cache both denominators are 0 and
    both rates are the quotient 0.0 / 0.0, which is NaN and not 0. *)
Lemma rates_of_fresh_cache_not_zero :
  ~ rates_zero_on_zero_denominator two_way_fresh.
Proof.
  intros [H _]. specialize (H eq_refl). vm_compute in H. discriminate.
Qed.

Lemma add_lt_modulus a b : SizeT.add a b < SizeT.modulus.
Proof. unfold SizeT.add, SizeT.wrap, SizeT.modulus. lia. Qed.

(** The quotient of two converted [size_t]: NaN or infinite over zero,
    never NaN over anything else, zero for zero over anything else. *)
Lemma quotient_cases a b :
  a < SizeT.modulus -> b < SizeT.modulus ->
  (b = 0 ->
   Cache.double_div (Cache.to_double a) (Cache.to_double b) =
     if a =? 0 then S754_nan else S754_infinity false) /\
  (b <> 0 ->
   is_nan (Cache.double_div (Cache.to_double a) (Cache.to_double b)) = false /\
   (a = 0 ->
    Cache.double_div (Cache.to_double a) (Cache.to_double b) = S754_zero false)).
Proof.
  intros Ha Hb. split.
  - intros ->. destruct (N.eqb_spec a 0) as [-> | Hne]; [reflexivity |].
    destruct (to_double_finite a) as (m & e & ->); [unfold SizeT.modulus in Ha; lia |].
    reflexivity.
  - intros Hne.
    destruct (to_double_finite b) as (mb & eb & Eb); [unfold SizeT.modulus in Hb; lia |].
    destruct (N.eq_dec a 0) as [-> | Hane].
    + rewrite Eb. split; [reflexivity |]. intros _. reflexivity.
    + destruct (to_double_finite a) as (ma & ea & Ea); [unfold SizeT.modulus in Ha; lia |].
      rewrite Ea, Eb. split; [| done].
      pose proof (double_div_finite false ma ea false mb eb) as Hnan.
      by destruct (Cache.double_div _ _).
Qed.

(** C2, amended. Both rates are quotients of IEEE 754 doubles: [hit_rate]
    is [double(hits) / double(hits + misses)] and [effective_hit_rate] is
    [double(hits + prefetch_hits) / double(hits + misses + prefetch_hits)],
    the sums taken in [size_t]. With a denominator of 0 a rate is NaN when
    its numerator is 0 as well and plus infinity otherwise: it is never 0.
    In particular both rates are NaN while all three counters are 0, as
    they are before any access. With a denominator other than 0 a rate is
    not NaN, and it is 0 when its numerator is 0. *)
Theorem rates_are_double_quotients c :
  Cache.hits c < SizeT.modulus ->
  let h := Cache.hits c in
  let m := Cache.misses c in
  let p := Cache.prefetch_hits c in
  Cache.getHitRate c =
    Cache.double_div (Cache.to_double h) (Cache.to_double (SizeT.add h m)) /\
  Cache.getEffectiveHitRate c =
    Cache.double_div (Cache.to_double (SizeT.add h p))
                     (Cache.to_double (SizeT.add (SizeT.add h m) p)) /\
  (SizeT.add h m = 0 ->
   Cache.getHitRate c = if h =? 0 then S754_nan else S754_infinity false) /\
  (SizeT.add (SizeT.add h m) p = 0 ->
   Cache.getEffectiveHitRate c =
     if SizeT.add h p =? 0 then S754_nan else S754_infinity false) /\
  (SizeT.add h m <> 0 ->
   is_nan (Cache.getHitRate c) = false /\
   (h = 0 -> Cache.getHitRate c = S754_zero false)) /\
  (SizeT.add (SizeT.add h m) p <> 0 ->
   is_nan (Cache.getEffectiveHitRate c) = false /\
   (SizeT.add h p = 0 -> Cache.getEffectiveHitRate c = S754_zero false)) /\
  (h = 0 -> m = 0 -> Cache.getHitRate c = S754_nan) /\
  (h = 0 -> m = 0 -> p = 0 -> Cache.getEffectiveHitRate c = S754_nan).
Proof.
  intros Hh h m p.
  destruct (quotient_cases h (SizeT.add h m) Hh (add_lt_modulus _ _)) as [H1 H2].
  destruct (quotient_cases (SizeT.add h p) (SizeT.add (SizeT.add h m) p)
              (add_lt_modulus _ _) (add_lt_modulus _ _)) as [H3 H4].
  unfold Cache.getHitRate, Cache.getEffectiveHitRate. fold h m p.
  split; [done |]. split; [done |]. split; [done |]. split; [done |].
  split; [done |]. split; [done |]. split.
  - intros -> ->. reflexivity.
  - intros -> -> ->. reflexivity.
Qed.

Lemma rates_are_double_quotients_witness :
  Cache.hits two_way_fresh < SizeT.modulus /\
  Cache.getHitRate two_way_fresh = S754_nan /\
  Cache.getEffectiveHitRate two_way_fresh = S754_nan.
Proof.
  assert (H : Cache.hits two_way_fresh < SizeT.modulus) by reflexivity.
  split; [exact H |].
  destruct (rates_are_double_quotients two_way_fresh H)
    as (_ & _ & _ & _ & _ & _ & H1 & H2).
  split; [exact (H1 eq_refl eq_refl) | exact (H2 eq_refl eq_refl eq_refl)].
Defined.

(** ** More on one set *)

Lemma contains_elem_of s b : CacheSet.contains s b = true <-> b ∈ CacheSet.blocks s.
Proof. apply found_elem_of. Qed.

Lemma contains_not_elem_of s b : CacheSet.contains s b = false <-> b ∉ CacheSet.blocks s.
Proof. apply found_not_elem_of. Qed.

Lemma set_access_answer s b r s' :
  CacheSet.access s b = Returns (r, s') -> r = CacheSet.contains s b.
Proof.
  intros H.
  apply set_access_returns in H as [Hw [(-> & Hin & _) | (-> & Hout & _)]].
  - symmetry. by apply contains_elem_of.
  - symmetry. by apply contains_not_elem_of.
Qed.

Lemma set_access_resident s b r s' :
  CacheSet.access s b = Returns (r, s') -> CacheSet.contains s' b = true.
Proof.
  intros H. pose proof (set_access_front _ _ _ _ H) as [l Hl].
  apply contains_elem_of. rewrite Hl. by left.
Qed.

Lemma set_access_ways s b r s' :
  CacheSet.access s b = Returns (r, s') -> CacheSet.ways s' = CacheSet.ways s.
Proof. by intros [Hw _]%set_access_returns. Qed.

(** X1. The answer of [access] is what [contains] said just before, and
    [contains] says yes just after: a block that was accessed is
    resident. The number of ways never changes. *)
Theorem set_access_agrees_with_contains s b r s' :
  CacheSet.access s b = Returns (r, s') ->
  r = CacheSet.contains s b /\
  CacheSet.contains s' b = true /\
  CacheSet.ways s' = CacheSet.ways s.
Proof.
  intros H. split; [by eapply set_access_answer |].
  split; [by eapply set_access_resident | by eapply set_access_ways].
Qed.

Lemma set_access_agrees_with_contains_witness :
  CacheSet.access set_2_0 0 =
    Returns (true, {| CacheSet.blocks := [0; 2]; CacheSet.ways := 2 |}) /\
  true = CacheSet.contains set_2_0 0 /\
  CacheSet.contains {| CacheSet.blocks := [0; 2]; CacheSet.ways := 2 |} 0 = true /\
  CacheSet.ways {| CacheSet.blocks := [0; 2]; CacheSet.ways := 2 |} = CacheSet.ways set_2_0.
Proof.
  assert (H : CacheSet.access set_2_0 0 =
                Returns (true, {| CacheSet.blocks := [0; 2]; CacheSet.ways := 2 |}))
    by reflexivity.
  split; [exact H |].
  exact (set_access_agrees_with_contains set_2_0 0 _ _ H).
Defined.

Lemma erase_split b l :
  b ∈ l -> exists l1 l2, l = l1 ++ b :: l2 /\ (b ∉ l1) /\ CacheSet.erase b l = l1 ++ l2.
Proof.
  induction l as [| y l IH]; [by intros ?%elem_of_nil |].
  simpl. destruct (N.eqb_spec y b) as [-> | Hne].
  - intros _. exists [], l. split; [done |]. split; [apply not_elem_of_nil | done].
  - intros [E | Hin]%elem_of_cons; [congruence |].
    destruct (IH Hin) as (l1 & l2 & -> & Hl1 & ->).
    exists (y :: l1), l2. split; [done |]. split; [| done].
    rewrite not_elem_of_cons. split; [congruence | done].
Qed.

Lemma set_hit_front s b :
  CacheSet.contains s b = true ->
  exists s' l1 l2,
    CacheSet.access s b = Returns (true, s') /\
    CacheSet.blocks s = l1 ++ b :: l2 /\ (b ∉ l1) /\
    CacheSet.blocks s' = b :: l1 ++ l2 /\
    CacheSet.ways s' = CacheSet.ways s.
Proof.
  intros Hc. pose proof Hc as Hin%contains_elem_of.
  destruct (erase_split b _ Hin) as (l1 & l2 & E & Hl1 & Eer).
  unfold CacheSet.access. unfold CacheSet.contains in Hc. rewrite Hc.
  eexists _, l1, l2. split; [done |]. split; [done |]. split; [done |].
  simpl. by rewrite Eer.
Qed.

(** X2. A hit moves the block to the front and changes nothing else: the
    blocks before it and the blocks after it keep their order, no block
    leaves the set, and a hit on the block at the front leaves the set as
    it was. *)
Theorem set_hit_moves_to_front s b :
  CacheSet.contains s b = true ->
  exists s' l1 l2,
    CacheSet.access s b = Returns (true, s') /\
    CacheSet.blocks s = l1 ++ b :: l2 /\ (b ∉ l1) /\
    CacheSet.blocks s' = b :: l1 ++ l2 /\
    CacheSet.blocks s' ≡ₚ CacheSet.blocks s /\
    (l1 = [] -> s' = s).
Proof.
  intros Hc. destruct (set_hit_front s b Hc) as (s' & l1 & l2 & H & E & Hl1 & E' & Ew).
  exists s', l1, l2. split; [done |]. split; [done |]. split; [done |].
  split; [done |]. split.
  - rewrite E, E'. by rewrite Permutation_middle.
  - intros ->. destruct s as [bl w], s' as [bl' w']. simpl in *. congruence.
Qed.

Lemma set_hit_moves_to_front_witness :
  CacheSet.contains set_2_0_6_4 6 = true /\
  exists s' l1 l2,
    CacheSet.access set_2_0_6_4 6 = Returns (true, s') /\
    CacheSet.blocks set_2_0_6_4 = l1 ++ 6 :: l2 /\ (6 ∉ l1) /\
    CacheSet.blocks s' = 6 :: l1 ++ l2 /\
    CacheSet.blocks s' ≡ₚ CacheSet.blocks set_2_0_6_4 /\
    (l1 = [] -> s' = set_2_0_6_4).
Proof.
  assert (H : CacheSet.contains set_2_0_6_4 6 = true) by reflexivity.
  split; [exact H |].
  exact (set_hit_moves_to_front set_2_0_6_4 6 H).
Defined.

(** X3. A miss in a set that has a way puts the block at the front. In a
    set with a free way nothing leaves. In a full set exactly the block at
    the back, the least recently used one, leaves: when the set held no
    block twice it is not resident afterwards, and every other block
    still is. *)
Theorem set_miss_evicts_least_recent s b :
  CacheSet.contains s b = false ->
  0 < CacheSet.ways s ->
  exists s',
    CacheSet.access s b = Returns (false, s') /\
    ((N.of_nat (length (CacheSet.blocks s)) < CacheSet.ways s /\
      CacheSet.blocks s' = b :: CacheSet.blocks s) \/
     (CacheSet.ways s <= N.of_nat (length (CacheSet.blocks s)) /\
      exists l x,
        CacheSet.blocks s = l ++ [x] /\
        CacheSet.blocks s' = b :: l /\
        (NoDup (CacheSet.blocks s) ->
         CacheSet.contains s' x = false /\
         forall y, y <> x -> CacheSet.contains s y = true ->
                   CacheSet.contains s' y = true))).
Proof.
  intros Hc Hw. destruct (set_access_total s b Hw) as (r & s' & H).
  pose proof H as Hr%set_access_answer.
  rewrite Hc in Hr. subst r. exists s'. split; [done |].
  apply set_access_returns in H
    as [_ [(? & _) | (_ & Hout & [(Hle & x & Ex & E) | (Hlt & E)])]];
    [done | right | left; by split].
  split; [done |]. exists (removelast (CacheSet.blocks s)), x.
  split; [done |]. split; [done |].
  intros Hnd. rewrite Ex in Hnd, Hout.
  apply list.NoDup_app in Hnd as (_ & Hdisj & _).
  split.
  - apply contains_not_elem_of. rewrite E, not_elem_of_cons. split.
    + intros ->. apply Hout, elem_of_app. right. by left.
    + intros Hx. apply (Hdisj x Hx). by left.
  - intros y Hy Hin%contains_elem_of. rewrite Ex in Hin.
    apply elem_of_app in Hin as [Hin | ->%list_elem_of_singleton]; [| done].
    apply contains_elem_of. rewrite E. by right.
Qed.

Lemma set_miss_evicts_least_recent_witness :
  CacheSet.contains set_2_0 4 = false /\
  0 < CacheSet.ways set_2_0 /\
  exists s',
    CacheSet.access set_2_0 4 = Returns (false, s') /\
    ((N.of_nat (length (CacheSet.blocks set_2_0)) < CacheSet.ways set_2_0 /\
      CacheSet.blocks s' = 4 :: CacheSet.blocks set_2_0) \/
     (CacheSet.ways set_2_0 <= N.of_nat (length (CacheSet.blocks set_2_0)) /\
      exists l x,
        CacheSet.blocks set_2_0 = l ++ [x] /\
        CacheSet.blocks s' = 4 :: l /\
        (NoDup (CacheSet.blocks set_2_0) ->
         CacheSet.contains s' x = false /\
         forall y, y <> x -> CacheSet.contains set_2_0 y = true ->
                   CacheSet.contains s' y = true))).
Proof.
  assert (H1 : CacheSet.contains set_2_0 4 = false) by reflexivity.
  assert (H2 : 0 < CacheSet.ways set_2_0) by reflexivity.
  split; [exact H1 |]. split; [exact H2 |].
  exact (set_miss_evicts_least_recent set_2_0 4 H1 H2).
Defined.

(** X4. [access] on a set never throws and always ends. It is undefined
    in one case only: a miss in a set of zero ways that holds no block,
    where [pop_back] is called on an empty list. *)
Theorem set_access_undefined_iff s b :
  (CacheSet.access s b = Undefined <->
   CacheSet.contains s b = false /\ CacheSet.blocks s = [] /\ CacheSet.ways s = 0) /\
  (forall e, CacheSet.access s b <> Throws e) /\
  CacheSet.access s b <> Diverges.
Proof.
  split; [| split; [intros e; apply set_access_no_throw |]].
  - unfold CacheSet.access, CacheSet.contains, CacheSet.pop_back.
    destruct (CacheSet.found b (CacheSet.blocks s)); [split; [done | by intros [? _]] |].
    destruct (N.leb_spec (CacheSet.ways s) (N.of_nat (length (CacheSet.blocks s))))
      as [Hle | Hlt]; destruct (CacheSet.blocks s) as [| y l]; simpl in *.
    + split; [intros _; repeat split; lia | done].
    + split; [done | by intros (_ & ? & _)].
    + split; [done | intros (_ & _ & ?); lia].
    + split; [done | by intros (_ & ? & _)].
  - unfold CacheSet.access, CacheSet.pop_back.
    destruct (CacheSet.found b (CacheSet.blocks s)); [done |].
    destruct (CacheSet.ways s <=? _); [| done].
    by destruct (CacheSet.blocks s).
Qed.

Lemma set_access_undefined_iff_witness :
  CacheSet.access (CacheSet.make 0) 5 = Undefined /\
  CacheSet.contains (CacheSet.make 0) 5 = false /\
  CacheSet.blocks (CacheSet.make 0) = [] /\ CacheSet.ways (CacheSet.make 0) = 0.
Proof.
  assert (H : CacheSet.access (CacheSet.make 0) 5 = Undefined) by reflexivity.
  split; [exact H |].
  exact (proj1 (proj1 (set_access_undefined_iff (CacheSet.make 0) 5)) H).
Defined.

(** ** The LRU order of one set *)

Lemma set_access_nodup s b r s' :
  NoDup (CacheSet.blocks s) ->
  CacheSet.access s b = Returns (r, s') ->
  NoDup (CacheSet.blocks s').
Proof.
  intros Hnd H.
  apply set_access_returns in H
    as [_ [(_ & Hin & E) | (_ & Hout & [(_ & x & Ex & E) | (_ & E)])]]; rewrite E.
  - constructor; [by apply erase_not_elem_of | by apply erase_nodup].
  - rewrite Ex in Hnd, Hout. apply list.NoDup_app in Hnd as (Hnd & _ & _).
    constructor; [| done]. intros Hin. apply Hout, elem_of_app. by left.
  - by constructor.
Qed.

Lemma touch_all_cons s b rest rs s' :
  touch_all s (b :: rest) = Returns (rs, s') ->
  exists r s1 rs',
    CacheSet.access s b = Returns (r, s1) /\
    touch_all s1 rest = Returns (rs', s') /\ rs = r :: rs'.
Proof.
  simpl. intros H. apply obind_returns in H as ([r s1] & H1 & H).
  apply obind_returns in H as ([rs' s2] & H2 & H). simplify_eq.
  by exists r, s1, rs'.
Qed.

Lemma touch_all_total bs : forall s,
  0 < CacheSet.ways s -> exists rs s', touch_all s bs = Returns (rs, s').
Proof.
  induction bs as [| b rest IH]; intros s Hw; [by eexists _, _ |].
  destruct (set_access_total s b Hw) as (r & s1 & H1).
  pose proof H1 as Ew%set_access_ways.
  destruct (IH s1) as (rs & s' & H2); [by rewrite Ew |].
  simpl. rewrite H1. simpl. rewrite H2. simpl. by eexists _, _.
Qed.

(** Erasing another block keeps [b] in place, with no new block before
    it. *)
Lemma erase_around b c front back :
  c <> b ->
  exists front' back',
    CacheSet.erase c (front ++ b :: back) = front' ++ b :: back' /\
    forall x, x ∈ front' -> x ∈ front.
Proof.
  intros Hne. induction front as [| y front IH]; simpl.
  - destruct (N.eqb_spec b c) as [-> | _]; [done |].
    exists [], (CacheSet.erase c back). by split.
  - destruct (N.eqb_spec y c) as [-> | _].
    + exists front, back. split; [done |]. intros x Hx. by right.
    + destruct IH as (front' & back' & -> & Hsub).
      exists (y :: front'), back'. split; [done |].
      intros x [-> | Hx]%elem_of_cons; [by left | right; by apply Hsub].
Qed.

(** A list without repetition, all of whose elements are in [k], is no
    longer than [k] without its repetitions. *)
Lemma nodup_length_le (l k : list N) :
  NoDup l -> (forall x, x ∈ l -> x ∈ k) ->
  (length l <= length (remove_dups k))%nat.
Proof.
  intros Hnd Hsub. apply submseteq_length, NoDup_submseteq; [done |].
  intros x Hx. by apply elem_of_remove_dups, Hsub.
Qed.

Lemma retained_step s b c front back seen rest r s1 :
  CacheSet.blocks s = front ++ b :: back ->
  NoDup (CacheSet.blocks s) ->
  (forall x, x ∈ front -> x ∈ seen) ->
  c <> b ->
  N.of_nat (length (remove_dups (seen ++ c :: rest))) < CacheSet.ways s ->
  CacheSet.access s c = Returns (r, s1) ->
  exists front1 back1,
    CacheSet.blocks s1 = front1 ++ b :: back1 /\
    (forall x, x ∈ front1 -> x ∈ seen ++ [c]).
Proof.
  intros Eb Hnd Hsub Hne Hlen H.
  apply set_access_returns in H
    as [_ [(_ & Hin & E) | (_ & Hout & [(Hle & x & Ex & E) | (_ & E)])]].
  - destruct (erase_around b c front back Hne) as (front' & back' & Eer & Hsub').
    exists (c :: front'), back'. rewrite E, Eb, Eer. split; [done |].
    intros y [-> | Hy]%elem_of_cons; apply elem_of_app; [right; by left |].
    left. by apply Hsub, Hsub'.
  - destruct back as [| z back].
    + exfalso. rewrite Eb in Hnd, Hout, Hle.
      assert (Hnd' : NoDup (c :: front)).
      { apply list.NoDup_app in Hnd as (Hnd & _ & _). constructor; [| done].
        intros Hc. apply Hout, elem_of_app. by left. }
      pose proof (nodup_length_le (c :: front) (seen ++ c :: rest) Hnd') as Hl.
      rewrite length_app in Hle. simpl in *.
      assert ((S (length front) <= length (remove_dups (seen ++ c :: rest)))%nat); [| lia].
      apply Hl. intros y [-> | Hy]%elem_of_cons; apply elem_of_app;
        [right; by left | left; by apply Hsub].
    + exists (c :: front), (removelast (z :: back)). rewrite E, Eb.
      rewrite removelast_app by done.
      change (removelast (b :: z :: back)) with (b :: removelast (z :: back)).
      split; [done |].
      intros y [-> | Hy]%elem_of_cons; apply elem_of_app; [right; by left |].
      left. by apply Hsub.
  - exists (c :: front), back. rewrite E, Eb. split; [done |].
    intros y [-> | Hy]%elem_of_cons; apply elem_of_app; [right; by left |].
    left. by apply Hsub.
Qed.

Lemma retained_all b bs : forall s front back seen rs s',
  CacheSet.blocks s = front ++ b :: back ->
  NoDup (CacheSet.blocks s) ->
  (forall x, x ∈ front -> x ∈ seen) ->
  b ∉ bs ->
  N.of_nat (length (remove_dups (seen ++ bs))) < CacheSet.ways s ->
  touch_all s bs = Returns (rs, s') ->
  b ∈ CacheSet.blocks s'.
Proof.
  induction bs as [| c rest IH]; intros s front back seen rs s' Eb Hnd Hsub Hb Hlen H.
  - simpl in H. simplify_eq. rewrite Eb. apply elem_of_app. right. by left.
  - apply touch_all_cons in H as (r & s1 & rs' & H1 & H2 & _).
    apply not_elem_of_cons in Hb as [Hne Hb].
    destruct (retained_step s b c front back seen rest r s1)
      as (front1 & back1 & Eb1 & Hsub1); try done.
    pose proof H1 as Ew%set_access_ways.
    eapply (IH s1 front1 back1 (seen ++ [c])); try done.
    + by eapply set_access_nodup.
    + rewrite Ew, <- app_assoc. done.
Qed.

(** X5. Least recently used, seen from one block: after an access to
    [b], accesses to other blocks, fewer than [ways] different ones, leave
    [b] in the set, and the next access to [b] is a hit. *)
Theorem set_keeps_recent_block s b bs :
  NoDup (CacheSet.blocks s) ->
  0 < CacheSet.ways s ->
  b ∉ bs ->
  N.of_nat (length (remove_dups bs)) < CacheSet.ways s ->
  exists r s1 rs s2 s3,
    CacheSet.access s b = Returns (r, s1) /\
    touch_all s1 bs = Returns (rs, s2) /\
    CacheSet.contains s2 b = true /\
    CacheSet.access s2 b = Returns (true, s3).
Proof.
  intros Hnd Hw Hb Hlen.
  destruct (set_access_total s b Hw) as (r & s1 & H1).
  pose proof H1 as Ew%set_access_ways.
  pose proof (set_access_nodup _ _ _ _ Hnd H1) as Hnd1.
  destruct (set_access_front _ _ _ _ H1) as [l El].
  destruct (touch_all_total bs s1) as (rs & s2 & H2); [by rewrite Ew |].
  assert (Hin : b ∈ CacheSet.blocks s2).
  { apply (retained_all b bs s1 [] l [] rs s2 El Hnd1); [| done | | done].
    - by intros x ?%elem_of_nil.
    - by rewrite Ew. }
  apply contains_elem_of in Hin.
  destruct (set_hit_front s2 b Hin) as (s3 & _ & _ & H3 & _).
  by exists r, s1, rs, s2, s3.
Qed.

Lemma set_keeps_recent_block_witness :
  NoDup (CacheSet.blocks set_2_0_6_4) /\
  0 < CacheSet.ways set_2_0_6_4 /\
(8 ∉ [0; 2; 0; 10; 2; 10]) /\
  N.of_nat (length (remove_dups [0; 2; 0; 10; 2; 10])) < CacheSet.ways set_2_0_6_4 /\
  exists r s1 rs s2 s3,
    CacheSet.access set_2_0_6_4 8 = Returns (r, s1) /\
    touch_all s1 [0; 2; 0; 10; 2; 10] = Returns (rs, s2) /\
    CacheSet.contains s2 8 = true /\
    CacheSet.access s2 8 = Returns (true, s3).
Proof.
  assert (H1 : NoDup (CacheSet.blocks set_2_0_6_4))
    by (apply (bool_decide_unpack _); vm_compute; reflexivity).
  assert (H2 : 0 < CacheSet.ways set_2_0_6_4) by reflexivity.
  assert (H3 : 8 ∉ [0; 2; 0; 10; 2; 10])
    by (apply (bool_decide_unpack _); vm_compute; reflexivity).
  assert (H4 : N.of_nat (length (remove_dups [0; 2; 0; 10; 2; 10]))
               < CacheSet.ways set_2_0_6_4) by (vm_compute; reflexivity).
  split; [exact H1 |]. split; [exact H2 |]. split; [exact H3 |]. split; [exact H4 |].
  exact (set_keeps_recent_block set_2_0_6_4 8 [0; 2; 0; 10; 2; 10] H1 H2 H3 H4).
Defined.

(** ** Sets of different sizes side by side *)

Lemma take_erase_in b : forall l n,
  b ∈ take (S n) l -> take n (CacheSet.erase b l) = CacheSet.erase b (take (S n) l).
Proof.
  induction l as [| y l IH]; intros n; [by intros ?%elem_of_nil |].
  simpl. destruct (N.eqb_spec y b) as [-> | Hne]; [done |].
  intros [E | Hin]%elem_of_cons; [congruence |].
  destruct n as [| n]; [by apply elem_of_nil in Hin |].
  simpl. f_equal. by apply IH.
Qed.

Lemma take_erase_notin b : forall l n,
  b ∉ take (S n) l -> take n (CacheSet.erase b l) = take n l.
Proof.
  induction l as [| y l IH]; intros n; [done |].
  simpl. intros [Hne Hout]%not_elem_of_cons.
  destruct (N.eqb_spec y b) as [-> | _]; [done |].
  destruct n as [| n]; [done |]. simpl. f_equal. by apply IH.
Qed.

Lemma removelast_take (l : list N) : forall n,
  (S n <= length l)%nat -> removelast (take (S n) l) = take n l.
Proof.
  induction l as [| y l IH]; intros n Hn; simpl in *; [lia |].
  destruct n as [| n]; [by destruct l |].
  destruct l as [| z l]; simpl in *; [lia |].
  f_equal. apply (IH n). lia.
Qed.

Lemma take_removelast (l : list N) n :
  (n < length l)%nat -> take n (removelast l) = take n l.
Proof.
  intros Hn. destruct (removelast_snoc l) as [x Ex]; [intros ->; simpl in Hn; lia |].
  assert (Hl : length l = S (length (removelast l))).
  { rewrite Ex at 1. rewrite length_app. simpl. lia. }
  rewrite Ex at 2. rewrite take_app_le by lia. done.
Qed.

(** One access to both sets keeps the smaller one the front of the larger
    one. *)
Lemma inclusion_step s1 s2 b r1 s1' r2 s2' :
  0 < CacheSet.ways s1 -> CacheSet.ways s1 <= CacheSet.ways s2 ->
  CacheSet.blocks s1 = take (N.to_nat (CacheSet.ways s1)) (CacheSet.blocks s2) ->
  CacheSet.access s1 b = Returns (r1, s1') ->
  CacheSet.access s2 b = Returns (r2, s2') ->
  CacheSet.blocks s1' = take (N.to_nat (CacheSet.ways s1')) (CacheSet.blocks s2') /\
  (r1 = true -> r2 = true).
Proof.
  intros Hw Hle Et H1 H2.
  destruct (N.to_nat (CacheSet.ways s1)) as [| n] eqn:En; [lia |].
  apply set_access_returns in H1 as [Ew1 H1]. rewrite Ew1, En.
  apply set_access_returns in H2 as [Ew2 H2].
  pose proof (length_take (CacheSet.blocks s2) (S n)) as Hlen.
  rewrite <- Et in Hlen.
  destruct H1 as [(-> & Hin1 & E1) | (-> & Hout1 & H1)].
  - rewrite Et in Hin1, E1.
    assert (Hin2 : b ∈ CacheSet.blocks s2).
    { apply list_elem_of_lookup in Hin1 as [i Hi].
      apply lookup_take_Some in Hi as [Hi _]. by eapply list_elem_of_lookup_2. }
    destruct H2 as [(-> & _ & E2) | (_ & Hout2 & _)]; [| done].
    split; [| done]. rewrite E1, E2. simpl. f_equal. symmetry. by apply take_erase_in.
  - split; [| done]. rewrite Et in Hout1.
    destruct H1 as [(Hfull1 & x & _ & E1) | (Hfree1 & E1)];
      destruct H2 as [(-> & Hin2 & E2) | (-> & Hout2 & [(Hfull2 & y & _ & E2) | (Hfree2 & E2)])];
      rewrite E1, E2; simpl; f_equal.
    + rewrite Et, removelast_take by lia. symmetry. by apply take_erase_notin.
    + rewrite Et, removelast_take by lia. symmetry. apply take_removelast. lia.
    + rewrite Et. apply removelast_take. lia.
    + exfalso. apply Hout1. rewrite take_ge by lia. done.
    + lia.
    + rewrite Et, !take_ge by lia. done.
Qed.

Lemma inclusion_all bs : forall s1 s2 rs1 s1' rs2 s2',
  0 < CacheSet.ways s1 -> CacheSet.ways s1 <= CacheSet.ways s2 ->
  CacheSet.blocks s1 = take (N.to_nat (CacheSet.ways s1)) (CacheSet.blocks s2) ->
  touch_all s1 bs = Returns (rs1, s1') ->
  touch_all s2 bs = Returns (rs2, s2') ->
  CacheSet.blocks s1' = take (N.to_nat (CacheSet.ways s1)) (CacheSet.blocks s2') /\
  (forall i, rs1 !! i = Some true -> rs2 !! i = Some true).
Proof.
  induction bs as [| b rest IH]; intros s1 s2 rs1 s1' rs2 s2' Hw Hle Et H1 H2.
  - simpl in H1, H2. simplify_eq. split; [done |]. by intros i ?.
  - apply touch_all_cons in H1 as (r1 & t1 & rs1' & Ha1 & Hr1 & ->).
    apply touch_all_cons in H2 as (r2 & t2 & rs2' & Ha2 & Hr2 & ->).
    destruct (inclusion_step _ _ _ _ _ _ _ Hw Hle Et Ha1 Ha2) as [Et' Hr].
    pose proof Ha1 as Ew1%set_access_ways.
    pose proof Ha2 as Ew2%set_access_ways.
    destruct (IH t1 t2 rs1' s1' rs2' s2') as [Et'' Hrs]; try done;
      rewrite ?Ew1, ?Ew2; try done.
    split; [by rewrite <- Ew1 |].
    intros [| i]; simpl; [| by apply Hrs].
    intros [= ->]. by rewrite Hr.
Qed.

(** X6. The inclusion property of LRU: fed the same blocks from empty, a
    set of [w1] ways always holds the [w1] most recently used blocks of a
    set of [w2 >= w1] ways, so every access that hits in the smaller set
    hits in the larger one. *)
Theorem more_ways_hit_no_less w1 w2 bs :
  0 < w1 -> w1 <= w2 ->
  exists rs1 s1 rs2 s2,
    touch_all (CacheSet.make w1) bs = Returns (rs1, s1) /\
    touch_all (CacheSet.make w2) bs = Returns (rs2, s2) /\
    CacheSet.blocks s1 = take (N.to_nat w1) (CacheSet.blocks s2) /\
    (forall i, rs1 !! i = Some true -> rs2 !! i = Some true).
Proof.
  intros Hw Hle.
  destruct (touch_all_total bs (CacheSet.make w1) Hw) as (rs1 & s1 & H1).
  destruct (touch_all_total bs (CacheSet.make w2)) as (rs2 & s2 & H2); [simpl; lia |].
  exists rs1, s1, rs2, s2. split; [done |]. split; [done |].
  apply (inclusion_all bs (CacheSet.make w1) (CacheSet.make w2)); try done.
  simpl. by rewrite take_nil.
Qed.

Lemma more_ways_hit_no_less_witness :
  0 < 2 /\ 2 <= 4 /\
  exists rs1 s1 rs2 s2,
    touch_all (CacheSet.make 2) [0; 2; 4; 0; 2] = Returns (rs1, s1) /\
    touch_all (CacheSet.make 4) [0; 2; 4; 0; 2] = Returns (rs2, s2) /\
    CacheSet.blocks s1 = take (N.to_nat 2) (CacheSet.blocks s2) /\
    (forall i, rs1 !! i = Some true -> rs2 !! i = Some true).
Proof.
  assert (H1 : 0 < 2) by reflexivity.
  assert (H2 : 2 <= 4) by (vm_compute; discriminate).
  split; [exact H1 |]. split; [exact H2 |].
  exact (more_ways_hit_no_less 2 4 [0; 2; 4; 0; 2] H1 H2).
Defined.

(** ** The constructor of the cache *)

(** X7. The constructor is undefined exactly when
    BLOCK_SIZE * NUM_WAYS is 0 in [size_t] (a division by zero), as for
    zero ways. Otherwise it returns a cache of NUM_SETS sets, at least
    one, that are empty and have NUM_WAYS ways each, in front of the store
    it was given, with the three counters at 0 and no block resident. *)
Theorem make_undefined_or_empty cfg mem :
  (Cache.make cfg mem = Undefined <->
   SizeT.mul (MyBLOCK_SIZE cfg) (NUM_WAYS cfg) = 0) /\
  (SizeT.mul (MyBLOCK_SIZE cfg) (NUM_WAYS cfg) <> 0 ->
   exists c,
     Cache.make cfg mem = Returns c /\
     Cache.memory c = mem /\
     1 <= NUM_SETS cfg /\
     length (Cache.sets c) = N.to_nat (NUM_SETS cfg) /\
     (forall j s, Cache.sets c !! j = Some s -> s = CacheSet.make (NUM_WAYS cfg)) /\
     Cache.hits c = 0 /\ Cache.misses c = 0 /\ Cache.prefetch_hits c = 0 /\
     resident_count c = 0 /\
     (forall b, Cache.is_block_in_cache c b = Returns false)).
Proof.
  unfold Cache.make, Cache.num_sets, SizeT.div.
  destruct (N.eqb_spec (SizeT.mul (MyBLOCK_SIZE cfg) (NUM_WAYS cfg)) 0) as [E | Hne]; simpl.
  - split; [done |]. by intros ?.
  - split; [split; [done | by intros ?] |]. intros _.
    set (q := CACHE_SIZE cfg / SizeT.mul (MyBLOCK_SIZE cfg) (NUM_WAYS cfg)).
    assert (En : (if q =? 0 then 1 else q) = NUM_SETS cfg).
    { unfold NUM_SETS. fold q. destruct (N.eqb_spec q 0); lia. }
    rewrite En.
    assert (Hn : 1 <= NUM_SETS cfg) by (unfold NUM_SETS; lia).
    eexists. split; [done |]. simpl. split; [done |]. split; [done |].
    split; [by rewrite length_replicate |].
    split; [by intros j s [-> _]%lookup_replicate |].
    split; [done |]. split; [done |]. split; [done |]. split.
    + unfold resident_count. simpl.
      induction (N.to_nat (NUM_SETS cfg)) as [| n IH]; [done | by simpl].
    + intros b. unfold Cache.is_block_in_cache, SizeT.rem, Cache.index. simpl.
      rewrite length_replicate, N2Nat.id.
      destruct (N.eqb_spec (NUM_SETS cfg) 0) as [| _]; [lia |]. simpl.
      destruct (lookup_lt_is_Some_2 (replicate (N.to_nat (NUM_SETS cfg))
                  (CacheSet.make (NUM_WAYS cfg))) (N.to_nat (b mod NUM_SETS cfg)))
        as [s Hs].
      { rewrite length_replicate. pose proof (N.mod_lt b (NUM_SETS cfg)). lia. }
      rewrite Hs. apply lookup_replicate in Hs as [-> _]. done.
Qed.

Lemma make_undefined_or_empty_witness :
  (SizeT.mul (MyBLOCK_SIZE two_way_config) 0 = 0 /\
   Cache.make {| CACHE_SIZE := 16; MyBLOCK_SIZE := 4; NUM_ELEMENTS := 16;
                 PREFETCH_DISTANCE := 0; HOT_ACCESS_PROB := 1 # 2; NUM_WAYS := 0 |}
     four_blocks = Undefined) /\
  (SizeT.mul (MyBLOCK_SIZE (source_config 2)) (NUM_WAYS (source_config 2)) <> 0 /\
   NUM_SETS (source_config 2) = 32 /\
   exists c,
     Cache.make (source_config 2) four_blocks = Returns c /\
     Cache.memory c = four_blocks /\
     1 <= NUM_SETS (source_config 2) /\
     length (Cache.sets c) = N.to_nat (NUM_SETS (source_config 2)) /\
     (forall j s, Cache.sets c !! j = Some s ->
                  s = CacheSet.make (NUM_WAYS (source_config 2))) /\
     Cache.hits c = 0 /\ Cache.misses c = 0 /\ Cache.prefetch_hits c = 0 /\
     resident_count c = 0 /\
     (forall b, Cache.is_block_in_cache c b = Returns false)).
Proof.
  assert (H0 : SizeT.mul (MyBLOCK_SIZE two_way_config) 0 = 0) by reflexivity.
  assert (H1 : SizeT.mul (MyBLOCK_SIZE (source_config 2)) (NUM_WAYS (source_config 2)) <> 0)
    by (vm_compute; discriminate).
  split.
  - split; [exact H0 |].
    exact (proj2 (proj1 (make_undefined_or_empty
             {| CACHE_SIZE := 16; MyBLOCK_SIZE := 4; NUM_ELEMENTS := 16;
                PREFETCH_DISTANCE := 0; HOT_ACCESS_PROB := 1 # 2; NUM_WAYS := 0 |}
             four_blocks)) H0).
  - split; [exact H1 |]. split; [reflexivity |].
    exact (proj2 (make_undefined_or_empty (source_config 2) four_blocks) H1).
Defined.

(** ** The capacity of the cache *)

Lemma concat_length_bound (sets : list CacheSet.t) (w : nat) :
  Forall (fun s => (length (CacheSet.blocks s) <= w)%nat) sets ->
  (length (concat (map CacheSet.blocks sets)) <= length sets * w)%nat.
Proof.
  induction 1 as [| s sets Hs _ IH]; simpl; [lia |].
  rewrite length_app. lia.
Qed.

(** X8. A reachable cache never holds more than NUM_SETS * NUM_WAYS
    blocks. When BLOCK_SIZE * NUM_WAYS neither overflows nor exceeds
    CACHE_SIZE, NUM_SETS is their quotient and the resident blocks never
    hold more than CACHE_SIZE elements. *)
Theorem reachable_within_capacity cfg mem c :
  reachable cfg mem c ->
  resident_count c <= NUM_SETS cfg * NUM_WAYS cfg /\
  (MyBLOCK_SIZE cfg * NUM_WAYS cfg < SizeT.modulus ->
   MyBLOCK_SIZE cfg * NUM_WAYS cfg <= CACHE_SIZE cfg ->
   NUM_SETS cfg = CACHE_SIZE cfg / (MyBLOCK_SIZE cfg * NUM_WAYS cfg) /\
   resident_count c * MyBLOCK_SIZE cfg <= CACHE_SIZE cfg).
Proof.
  intros (Hne & Hlen & Hsets)%reachable_ok.
  assert (Hcount : resident_count c <= NUM_SETS cfg * NUM_WAYS cfg).
  { unfold resident_count.
    pose proof (concat_length_bound (Cache.sets c) (N.to_nat (NUM_WAYS cfg))) as Hb.
    rewrite Hlen in Hb.
    assert (Hall : Forall (fun s => (length (CacheSet.blocks s)
                                      <= N.to_nat (NUM_WAYS cfg))%nat) (Cache.sets c)).
    { apply Forall_lookup. intros j s Hs. destruct (Hsets j s Hs) as [_ Hle _ _]. lia. }
    specialize (Hb Hall). lia. }
  split; [done |]. intros Hsmall Hfit.
  set (d := MyBLOCK_SIZE cfg * NUM_WAYS cfg) in *.
  assert (Ed : SizeT.mul (MyBLOCK_SIZE cfg) (NUM_WAYS cfg) = d).
  { unfold SizeT.mul, SizeT.wrap. by apply N.mod_small. }
  rewrite Ed in Hne.
  assert (Hq : 1 <= CACHE_SIZE cfg / d).
  { apply N.div_le_lower_bound; lia. }
  assert (En : NUM_SETS cfg = CACHE_SIZE cfg / d).
  { unfold NUM_SETS. rewrite Ed. lia. }
  split; [done |].
  pose proof (N.Div0.mul_div_le (CACHE_SIZE cfg) d) as Hmul.
  rewrite En in Hcount.
  transitivity (CACHE_SIZE cfg / d * NUM_WAYS cfg * MyBLOCK_SIZE cfg).
  - by apply N.mul_le_mono_r.
  - unfold d in *. lia.
Qed.

Lemma reachable_within_capacity_witness :
  reachable two_way_config four_blocks two_way_final /\
  resident_count two_way_final <= NUM_SETS two_way_config * NUM_WAYS two_way_config /\
  MyBLOCK_SIZE two_way_config * NUM_WAYS two_way_config < SizeT.modulus /\
  MyBLOCK_SIZE two_way_config * NUM_WAYS two_way_config <= CACHE_SIZE two_way_config /\
  NUM_SETS two_way_config =
    CACHE_SIZE two_way_config / (MyBLOCK_SIZE two_way_config * NUM_WAYS two_way_config) /\
  resident_count two_way_final * MyBLOCK_SIZE two_way_config <= CACHE_SIZE two_way_config.
Proof.
  assert (H1 : MyBLOCK_SIZE two_way_config * NUM_WAYS two_way_config < SizeT.modulus)
    by reflexivity.
  assert (H2 : MyBLOCK_SIZE two_way_config * NUM_WAYS two_way_config
               <= CACHE_SIZE two_way_config) by (vm_compute; discriminate).
  destruct (reachable_within_capacity two_way_config four_blocks two_way_final
              two_way_final_reachable) as [Hc Hcap].
  split; [exact two_way_final_reachable |]. split; [exact Hc |].
  split; [exact H1 |]. split; [exact H2 |]. exact (Hcap H1 H2).
Defined.

(** ** Hits and misses of a run *)

(** An access raises [hits] on a hit and [misses] on a miss, by one. *)
Lemma access_hits_misses cfg c address t r c' :
  Cache.access cfg c address = (t, Returns (r, c')) ->
  Cache.hits c' = (if r then SizeT.incr (Cache.hits c) else Cache.hits c) /\
  Cache.misses c' = (if r then Cache.misses c else SizeT.incr (Cache.misses c)).
Proof.
  intros H. apply access_returns in H as (s & s' & H). simpl in H.
  destruct H as (_ & _ & _ & _ & _ & _ & [(-> & _ & ->) | (-> & tp & c2 & Hpre & _ & ->)]).
  - done.
  - apply prefetch_returns in Hpre as (_ & (_ & _ & Eh & Em) & _). simpl in *.
    by rewrite Eh, Em.
Qed.

Lemma count_true_false rs : count_true rs + count_false rs = N.of_nat (length rs).
Proof.
  unfold count_true, count_false.
  induction rs as [| [|] rs IH]; simpl in *; lia.
Qed.

Lemma access_all_hits_misses cfg addresses : forall c t rs c' h m,
  Cache.hits c = SizeT.wrap h -> Cache.misses c = SizeT.wrap m ->
  Cache.access_all cfg c addresses = (t, Returns (rs, c')) ->
  length rs = length addresses /\
  Cache.hits c' = SizeT.wrap (h + count_true rs) /\
  Cache.misses c' = SizeT.wrap (m + count_false rs).
Proof.
  induction addresses as [| a rest IH]; intros c t rs c' h m Hh Hm H.
  - simpl in H. returns H. simplify_eq. unfold count_true, count_false. simpl.
    rewrite !N.add_0_r. by split.
  - apply access_all_cons in H as (t1 & r & c1 & t2 & rs' & H1 & H2 & _ & ->).
    apply access_hits_misses in H1 as [Eh Em].
    assert (Hh1 : Cache.hits c1 = SizeT.wrap (h + count_true [r])).
    { rewrite Eh, Hh. destruct r; unfold count_true; simpl;
        unfold SizeT.incr, SizeT.add, SizeT.wrap, SizeT.modulus; lia. }
    assert (Hm1 : Cache.misses c1 = SizeT.wrap (m + count_false [r])).
    { rewrite Em, Hm. destruct r; unfold count_false; simpl;
        unfold SizeT.incr, SizeT.add, SizeT.wrap, SizeT.modulus; lia. }
    destruct (IH _ _ _ _ _ _ Hh1 Hm1 H2) as (Hl & Eh2 & Em2).
    split; [simpl; by rewrite Hl |].
    rewrite Eh2, Em2. unfold count_true, count_false.
    destruct r; simpl; split; f_equal; lia.
Qed.

(** X9. After a run on a fresh cache there is one answer per access,
    [hits] is the number of hits and [misses] the number of misses, each
    modulo 2^64; so for a run of fewer than 2^64 accesses
    [hits + misses] is the number of accesses made. *)
Theorem hits_plus_misses_is_accesses cfg mem c0 addresses t rs c :
  Cache.make cfg mem = Returns c0 ->
  Cache.access_all cfg c0 addresses = (t, Returns (rs, c)) ->
  length rs = length addresses /\
  Cache.getHits c = SizeT.wrap (count_true rs) /\
  Cache.getMisses c = SizeT.wrap (count_false rs) /\
  (N.of_nat (length addresses) < SizeT.modulus ->
   Cache.getHits c = count_true rs /\ Cache.getMisses c = count_false rs /\
   Cache.getHits c + Cache.getMisses c = N.of_nat (length addresses)).
Proof.
  intros [_ ->]%make_returns H.
  apply (access_all_hits_misses _ _ _ _ _ _ 0 0) in H as (Hl & Eh & Em); [| done | done].
  rewrite N.add_0_l in Eh, Em. unfold Cache.getHits, Cache.getMisses.
  split; [done |]. split; [done |]. split; [done |].
  intros Hlen. pose proof (count_true_false rs) as Hsum. rewrite Hl in Hsum.
  rewrite Eh, Em. unfold SizeT.wrap. rewrite !N.mod_small by lia. by repeat split.
Qed.

Lemma hits_plus_misses_is_accesses_witness :
  Cache.make two_way_config four_blocks = Returns two_way_fresh /\
  Cache.access_all two_way_config two_way_fresh [0; 4; 8; 12; 0] =
    ([EvTouch 0 0 false; EvMisses; EvTouch 1 1 false; EvMisses;
      EvTouch 0 2 false; EvMisses; EvTouch 1 3 false; EvMisses;
      EvTouch 0 0 true; EvHits],
     Returns ([false; false; false; false; true], two_way_final)) /\
  N.of_nat (length [0; 4; 8; 12; 0]) < SizeT.modulus /\
  Cache.getHits two_way_final + Cache.getMisses two_way_final =
    N.of_nat (length [0; 4; 8; 12; 0]).
Proof.
  assert (H1 : Cache.make two_way_config four_blocks = Returns two_way_fresh)
    by reflexivity.
  assert (H2 : Cache.access_all two_way_config two_way_fresh [0; 4; 8; 12; 0] =
    ([EvTouch 0 0 false; EvMisses; EvTouch 1 1 false; EvMisses;
      EvTouch 0 2 false; EvMisses; EvTouch 1 3 false; EvMisses;
      EvTouch 0 0 true; EvHits],
     Returns ([false; false; false; false; true], two_way_final)))
    by (vm_compute; reflexivity).
  assert (H3 : N.of_nat (length [0; 4; 8; 12; 0]) < SizeT.modulus)
    by (vm_compute; reflexivity).
  split; [exact H1 |]. split; [exact H2 |]. split; [exact H3 |].
  destruct (hits_plus_misses_is_accesses two_way_config four_blocks _ _ _ _ _ H1 H2)
    as (_ & _ & _ & H).
  exact (proj2 (proj2 (H H3))).
Defined.

(** ** Only accessed blocks are resident *)

(** The blocks of a set after an access: the accessed one, and blocks
    that were there. *)
Lemma set_access_subseteq s b r s' x :
  CacheSet.access s b = Returns (r, s') ->
  x ∈ CacheSet.blocks s' -> x = b \/ x ∈ CacheSet.blocks s.
Proof.
  intros H. apply set_access_returns in H
    as [_ [(_ & _ & E) | (_ & _ & [(_ & y & Ey & E) | (_ & E)])]]; rewrite E;
    intros [-> | Hx]%elem_of_cons; auto; right.
  - by eapply erase_subseteq.
  - rewrite Ey. apply elem_of_app. by left.
Qed.

Lemma access_resident_subseteq cfg c address t r c' j b :
  Cache.access cfg c address = (t, Returns (r, c')) ->
  resident_in c' j b -> b = block_of cfg address \/ resident_in c j b.
Proof.
  intros H (s0 & Hs0 & Hb). apply access_returns in H as (s & s' & H). simpl in H.
  destruct H as (_ & _ & Hj & Hacc & _ & Es & _). rewrite Es in Hs0.
  destruct (decide (j = N.to_nat ((address / MyBLOCK_SIZE cfg)
                                    mod N.of_nat (length (Cache.sets c))))) as [-> | Hne].
  - rewrite list_lookup_insert_eq in Hs0 by (by eapply lookup_lt_Some). simplify_eq.
    destruct (set_access_subseteq _ _ _ _ _ Hacc Hb) as [-> | Hin]; [by left |].
    right. by exists s.
  - rewrite list_lookup_insert_ne in Hs0 by done. right. by exists s0.
Qed.

Lemma access_all_resident_subseteq cfg addresses : forall c t rs c' j b,
  Cache.access_all cfg c addresses = (t, Returns (rs, c')) ->
  resident_in c' j b ->
  (exists a, a ∈ addresses /\ block_of cfg a = b) \/ resident_in c j b.
Proof.
  induction addresses as [| a rest IH]; intros c t rs c' j b H Hres.
  - simpl in H. returns H. simplify_eq. by right.
  - apply access_all_cons in H as (t1 & r & c1 & t2 & rs' & H1 & H2 & _).
    destruct (IH _ _ _ _ _ _ H2 Hres) as [(a' & Ha' & E) | Hres1].
    + left. exists a'. split; [by right | done].
    + destruct (access_resident_subseteq _ _ _ _ _ _ _ _ H1 Hres1) as [-> | Hres0].
      * left. exists a. split; [by left | done].
      * by right.
Qed.

Lemma hit_was_resident cfg c address t c' :
  Cache.access cfg c address = (t, Returns (true, c')) ->
  exists j, resident_in c j (block_of cfg address).
Proof.
  intros H. apply access_returns in H as (s & s' & H). simpl in H.
  destruct H as (_ & _ & Hj & Hacc & _).
  apply set_access_answer in Hacc as Hc.
  eexists. exists s. split; [done |]. apply contains_elem_of.
  unfold block_of. by rewrite <- Hc.
Qed.

(** X10. Whatever the prefetch distance, the cache holds only blocks
    that were accessed: every block resident after a run on a fresh cache
    is the block of one of the addresses of the run, and an access to a
    block that no earlier address fell in is a miss. *)
Theorem first_access_to_a_block_misses cfg mem c0 addresses t rs c :
  Cache.make cfg mem = Returns c0 ->
  Cache.access_all cfg c0 addresses = (t, Returns (rs, c)) ->
  (forall j b, resident_in c j b -> exists a, a ∈ addresses /\ block_of cfg a = b) /\
  (forall address t' r c',
     (forall a, a ∈ addresses -> block_of cfg a <> block_of cfg address) ->
     Cache.access cfg c address = (t', Returns (r, c')) ->
     r = false).
Proof.
  intros [_ ->]%make_returns H.
  assert (Hres : forall j b, resident_in c j b ->
                   exists a, a ∈ addresses /\ block_of cfg a = b).
  { intros j b Hb.
    destruct (access_all_resident_subseteq _ _ _ _ _ _ _ _ H Hb) as [Ha | (s & Hs & Hin)];
      [done |].
    simpl in Hs. apply lookup_replicate in Hs as [-> _]. by apply elem_of_nil in Hin. }
  split; [done |].
  intros address t' r c' Hnew Hacc. destruct r; [| done].
  destruct (hit_was_resident _ _ _ _ _ Hacc) as [j Hj].
  destruct (Hres j _ Hj) as (a & Ha & E). by destruct (Hnew a Ha).
Qed.

Lemma first_access_to_a_block_misses_witness :
  Cache.make prefetch_config eight_blocks =
    Returns {| Cache.memory := eight_blocks;
               Cache.sets := [ {| CacheSet.blocks := []; CacheSet.ways := 4 |} ];
               Cache.hits := 0; Cache.misses := 0; Cache.prefetch_hits := 0 |} /\
  Cache.access_all prefetch_config
    {| Cache.memory := eight_blocks;
       Cache.sets := [ {| CacheSet.blocks := []; CacheSet.ways := 4 |} ];
       Cache.hits := 0; Cache.misses := 0; Cache.prefetch_hits := 0 |} [0] =
    ([EvTouch 0 0 false; EvRead 1; EvRead 2; EvMisses],
     Returns ([false], {| Cache.memory := eight_blocks;
       Cache.sets := [ {| CacheSet.blocks := [0]; CacheSet.ways := 4 |} ];
       Cache.hits := 0; Cache.misses := 1; Cache.prefetch_hits := 0 |})) /\
  (forall a, a ∈ [0] -> block_of prefetch_config a <> block_of prefetch_config 4) /\
  Cache.access prefetch_config
    {| Cache.memory := eight_blocks;
       Cache.sets := [ {| CacheSet.blocks := [0]; CacheSet.ways := 4 |} ];
       Cache.hits := 0; Cache.misses := 1; Cache.prefetch_hits := 0 |} 4 =
    ([EvTouch 0 1 false; EvRead 2; EvRead 3; EvMisses],
     Returns (false, {| Cache.memory := eight_blocks;
       Cache.sets := [ {| CacheSet.blocks := [1; 0]; CacheSet.ways := 4 |} ];
       Cache.hits := 0; Cache.misses := 2; Cache.prefetch_hits := 0 |})) /\
  false = false.
Proof.
  assert (H1 : Cache.make prefetch_config eight_blocks =
    Returns {| Cache.memory := eight_blocks;
               Cache.sets := [ {| CacheSet.blocks := []; CacheSet.ways := 4 |} ];
               Cache.hits := 0; Cache.misses := 0; Cache.prefetch_hits := 0 |})
    by reflexivity.
  assert (H2 : Cache.access_all prefetch_config
    {| Cache.memory := eight_blocks;
       Cache.sets := [ {| CacheSet.blocks := []; CacheSet.ways := 4 |} ];
       Cache.hits := 0; Cache.misses := 0; Cache.prefetch_hits := 0 |} [0] =
    ([EvTouch 0 0 false; EvRead 1; EvRead 2; EvMisses],
     Returns ([false], {| Cache.memory := eight_blocks;
       Cache.sets := [ {| CacheSet.blocks := [0]; CacheSet.ways := 4 |} ];
       Cache.hits := 0; Cache.misses := 1; Cache.prefetch_hits := 0 |})))
    by (vm_compute; reflexivity).
  assert (H3 : forall a, a ∈ [0] ->
                 block_of prefetch_config a <> block_of prefetch_config 4).
  { intros a ->%list_elem_of_singleton. vm_compute. discriminate. }
  assert (H4 : Cache.access prefetch_config
    {| Cache.memory := eight_blocks;
       Cache.sets := [ {| CacheSet.blocks := [0]; CacheSet.ways := 4 |} ];
       Cache.hits := 0; Cache.misses := 1; Cache.prefetch_hits := 0 |} 4 =
    ([EvTouch 0 1 false; EvRead 2; EvRead 3; EvMisses],
     Returns (false, {| Cache.memory := eight_blocks;
       Cache.sets := [ {| CacheSet.blocks := [1; 0]; CacheSet.ways := 4 |} ];
       Cache.hits := 0; Cache.misses := 2; Cache.prefetch_hits := 0 |})))
    by (vm_compute; reflexivity).
  split; [exact H1 |]. split; [exact H2 |]. split; [exact H3 |]. split; [exact H4 |].
  exact (proj2 (first_access_to_a_block_misses prefetch_config eight_blocks
                  _ [0] _ _ _ H1 H2) 4 _ _ _ H3 H4).
Defined.

(** ** The prefetch changes no answer *)

Lemma access_independent cfg cfg' c c' address t r c1 t' r' c1' :
  MyBLOCK_SIZE cfg = MyBLOCK_SIZE cfg' ->
  Cache.sets c = Cache.sets c' ->
  Cache.hits c = Cache.hits c' -> Cache.misses c = Cache.misses c' ->
  Cache.access cfg c address = (t, Returns (r, c1)) ->
  Cache.access cfg' c' address = (t', Returns (r', c1')) ->
  r = r' /\ Cache.sets c1 = Cache.sets c1' /\
  Cache.hits c1 = Cache.hits c1' /\ Cache.misses c1 = Cache.misses c1'.
Proof.
  intros Ebs Es Eh Em H H'.
  pose proof (access_hits_misses _ _ _ _ _ _ H) as [Eh1 Em1].
  pose proof (access_hits_misses _ _ _ _ _ _ H') as [Eh1' Em1'].
  apply access_returns in H as (s & s1 & H). simpl in H.
  destruct H as (_ & _ & Hj & Hacc & _ & Es1 & _).
  apply access_returns in H' as (s' & s1' & H'). simpl in H'.
  destruct H' as (_ & _ & Hj' & Hacc' & _ & Es1' & _).
  rewrite <- Ebs, <- Es in *. simplify_eq.
  rewrite Hacc in Hacc'. simplify_eq.
  split; [done |]. split; [by rewrite Es1, Es1' |].
  rewrite Eh1, Eh1', Em1, Em1', Eh, Em. done.
Qed.

(** X11. The answers of a run, the sets it leaves, [hits] and [misses]
    depend neither on PREFETCH_DISTANCE nor on the backing store: two
    fresh caches with the same CACHE_SIZE, BLOCK_SIZE and NUM_WAYS give,
    on the same addresses, the same hits and misses and end with the same
    sets. The prefetch of this cache only moves [prefetch_hits]. *)
Theorem prefetch_changes_no_answer cfg cfg' mem mem' c0 c0' addresses t rs c t' rs' c' :
  CACHE_SIZE cfg = CACHE_SIZE cfg' ->
  MyBLOCK_SIZE cfg = MyBLOCK_SIZE cfg' ->
  NUM_WAYS cfg = NUM_WAYS cfg' ->
  Cache.make cfg mem = Returns c0 ->
  Cache.make cfg' mem' = Returns c0' ->
  Cache.access_all cfg c0 addresses = (t, Returns (rs, c)) ->
  Cache.access_all cfg' c0' addresses = (t', Returns (rs', c')) ->
  rs = rs' /\ Cache.sets c = Cache.sets c' /\
  Cache.getHits c = Cache.getHits c' /\ Cache.getMisses c = Cache.getMisses c'.
Proof.
  intros Ecs Ebs Enw [_ ->]%make_returns [_ ->]%make_returns.
  assert (Es0 : NUM_SETS cfg = NUM_SETS cfg').
  { unfold NUM_SETS. by rewrite Ecs, Ebs, Enw. }
  rewrite <- Es0, <- Enw.
  set (c1 := {| Cache.memory := mem |}). set (c1' := {| Cache.memory := mem' |}).
  assert (Hs : Cache.sets c1 = Cache.sets c1') by done.
  assert (Hh : Cache.hits c1 = Cache.hits c1') by done.
  assert (Hm : Cache.misses c1 = Cache.misses c1') by done.
  clearbody c1 c1'. revert c1 c1' t rs c t' rs' c' Hs Hh Hm.
  induction addresses as [| a rest IH]; intros c1 c1' t rs c t' rs' c' Hs Hh Hm H H'.
  - simpl in H, H'. returns H. returns H'. by simplify_eq.
  - apply access_all_cons in H as (t1 & r & c2 & t2 & rs2 & H1 & H2 & _ & ->).
    apply access_all_cons in H' as (t1' & r' & c2' & t2' & rs2' & H1' & H2' & _ & ->).
    destruct (access_independent _ _ _ _ _ _ _ _ _ _ _ Ebs Hs Hh Hm H1 H1')
      as (-> & Hs2 & Hh2 & Hm2).
    destruct (IH _ _ _ _ _ _ _ _ Hs2 Hh2 Hm2 H2 H2') as (-> & ? & ? & ?).
    by repeat split.
Qed.

Lemma prefetch_changes_no_answer_witness :
  CACHE_SIZE prefetch_config = CACHE_SIZE no_prefetch_config /\
  MyBLOCK_SIZE prefetch_config = MyBLOCK_SIZE no_prefetch_config /\
  NUM_WAYS prefetch_config = NUM_WAYS no_prefetch_config /\
  Cache.access_all prefetch_config
    {| Cache.memory := eight_blocks;
       Cache.sets := [ {| CacheSet.blocks := []; CacheSet.ways := 4 |} ];
       Cache.hits := 0; Cache.misses := 0; Cache.prefetch_hits := 0 |} [4; 0] =
    ([EvTouch 0 1 false; EvRead 2; EvRead 3; EvMisses;
      EvTouch 0 0 false; EvPrefetchHits 1; EvRead 2; EvMisses],
     Returns ([false; false], prefetch_after_4_0)) /\
  Cache.access_all no_prefetch_config
    {| Cache.memory := two_blocks;
       Cache.sets := [ {| CacheSet.blocks := []; CacheSet.ways := 4 |} ];
       Cache.hits := 0; Cache.misses := 0; Cache.prefetch_hits := 0 |} [4; 0] =
    ([EvTouch 0 1 false; EvMisses; EvTouch 0 0 false; EvMisses],
     Returns ([false; false],
       {| Cache.memory := two_blocks;
          Cache.sets := [ {| CacheSet.blocks := [0; 1]; CacheSet.ways := 4 |} ];
          Cache.hits := 0; Cache.misses := 2; Cache.prefetch_hits := 0 |})) /\
  Cache.sets prefetch_after_4_0 =
    [ {| CacheSet.blocks := [0; 1]; CacheSet.ways := 4 |} ] /\
  Cache.getMisses prefetch_after_4_0 = 2.
Proof.
  assert (H1 : Cache.make prefetch_config eight_blocks =
    Returns {| Cache.memory := eight_blocks;
               Cache.sets := [ {| CacheSet.blocks := []; CacheSet.ways := 4 |} ];
               Cache.hits := 0; Cache.misses := 0; Cache.prefetch_hits := 0 |})
    by reflexivity.
  assert (H1' : Cache.make no_prefetch_config two_blocks =
    Returns {| Cache.memory := two_blocks;
               Cache.sets := [ {| CacheSet.blocks := []; CacheSet.ways := 4 |} ];
               Cache.hits := 0; Cache.misses := 0; Cache.prefetch_hits := 0 |})
    by reflexivity.
  assert (H2 : Cache.access_all prefetch_config
    {| Cache.memory := eight_blocks;
       Cache.sets := [ {| CacheSet.blocks := []; CacheSet.ways := 4 |} ];
       Cache.hits := 0; Cache.misses := 0; Cache.prefetch_hits := 0 |} [4; 0] =
    ([EvTouch 0 1 false; EvRead 2; EvRead 3; EvMisses;
      EvTouch 0 0 false; EvPrefetchHits 1; EvRead 2; EvMisses],
     Returns ([false; false], prefetch_after_4_0))) by (vm_compute; reflexivity).
  assert (H2' : Cache.access_all no_prefetch_config
    {| Cache.memory := two_blocks;
       Cache.sets := [ {| CacheSet.blocks := []; CacheSet.ways := 4 |} ];
       Cache.hits := 0; Cache.misses := 0; Cache.prefetch_hits := 0 |} [4; 0] =
    ([EvTouch 0 1 false; EvMisses; EvTouch 0 0 false; EvMisses],
     Returns ([false; false],
       {| Cache.memory := two_blocks;
          Cache.sets := [ {| CacheSet.blocks := [0; 1]; CacheSet.ways := 4 |} ];
          Cache.hits := 0; Cache.misses := 2; Cache.prefetch_hits := 0 |})))
    by (vm_compute; reflexivity).
  split; [reflexivity |]. split; [reflexivity |]. split; [reflexivity |].
  split; [exact H2 |]. split; [exact H2' |].
  destruct (prefetch_changes_no_answer prefetch_config no_prefetch_config
              eight_blocks two_blocks _ _ [4; 0] _ _ _ _ _ _
              eq_refl eq_refl eq_refl H1 H1' H2 H2') as (_ & Hs & _ & Hm).
  split; [exact Hs | exact Hm].
Defined.

(** ** What a run costs the backing store *)

Lemma count_prefetch_steps_app t1 t2 :
  count_prefetch_steps (t1 ++ t2) = count_prefetch_steps t1 + count_prefetch_steps t2.
Proof. unfold count_prefetch_steps. rewrite List.filter_app, length_app. lia. Qed.

Lemma count_prefetch_steps_le t : count_prefetch_steps t <= N.of_nat (length t).
Proof. unfold count_prefetch_steps. pose proof (List.filter_length_le is_prefetch_step t). lia. Qed.

Lemma access_cost cfg c address t r c' :
  Cache.access cfg c address = (t, Returns (r, c')) ->
  Cache.memory c' = Cache.memory c /\
  count_misses t = count_false [r] /\
  count_prefetch_steps t <= count_false [r] * PREFETCH_DISTANCE cfg /\
  (forall i, EvRead i ∈ t \/ EvPrefetchHits i ∈ t ->
             i < ExternalMemory.size (Cache.memory c)).
Proof.
  intros H. apply access_returns in H as (s & s' & H). simpl in H.
  destruct H as (_ & _ & _ & _ & Em & _ & [(-> & -> & _) | (-> & tp & c2 & Hpre & -> & _)]).
  - split; [done |]. split; [done |]. split; [done |].
    intros i [Hi | Hi]; repeat (apply elem_of_cons in Hi as [? | Hi]; [done |]);
      by apply elem_of_nil in Hi.
  - pose proof (prefetch_bound_not_max _ _ _ _ _ Hpre) as Hne.
    apply prefetch_returns in Hpre as (-> & _).
    split; [done |]. split; [by apply count_misses_miss, count_misses_prefetch |].
    split.
    + change (EvTouch ?j ?b false :: ?l ++ [EvMisses])
        with ([EvTouch j b false] ++ l ++ [EvMisses]).
      rewrite !count_prefetch_steps_app.
      pose proof (count_prefetch_steps_le
        (flat_map (prefetch_event (Cache.with_sets c
           (<[N.to_nat ((address / MyBLOCK_SIZE cfg) mod N.of_nat (length (Cache.sets c)))
                := s']> (Cache.sets c))))
           (successors cfg (address / MyBLOCK_SIZE cfg)))) as H1.
      pose proof (prefetch_trace_length (Cache.with_sets c
           (<[N.to_nat ((address / MyBLOCK_SIZE cfg) mod N.of_nat (length (Cache.sets c)))
                := s']> (Cache.sets c)))
           (successors cfg (address / MyBLOCK_SIZE cfg))) as H2.
      pose proof (successors_length cfg (address / MyBLOCK_SIZE cfg) Hne) as H3.
      unfold count_prefetch_steps at 1 3, count_false. simpl. lia.
    + intros i [Hi | Hi]; apply elem_of_cons in Hi as [? | Hi]; try done;
        apply elem_of_app in Hi as [Hi | Hi];
        try (apply list_elem_of_singleton in Hi; done).
      * by apply prefetch_trace_read in Hi as (_ & ? & _).
      * by apply prefetch_trace_hit in Hi as (_ & ? & _).
Qed.

Lemma count_false_cons r rs : count_false (r :: rs) = count_false [r] + count_false rs.
Proof. unfold count_false. destruct r; simpl; lia. Qed.

(** X12. A run never changes the backing store and reads it inside its
    bounds only. It makes one [misses++] per miss, and its prefetch loops
    make at most PREFETCH_DISTANCE steps, reads and prefetch hits
    together, per miss; a hit costs no read. *)
Theorem run_cost_of_prefetch cfg addresses : forall c t rs c',
  Cache.access_all cfg c addresses = (t, Returns (rs, c')) ->
  Cache.memory c' = Cache.memory c /\
  count_misses t = count_false rs /\
  count_prefetch_steps t <= count_false rs * PREFETCH_DISTANCE cfg /\
  (forall i, EvRead i ∈ t \/ EvPrefetchHits i ∈ t ->
             i < ExternalMemory.size (Cache.memory c)).
Proof.
  induction addresses as [| a rest IH]; intros c t rs c' H.
  - simpl in H. returns H. simplify_eq. split; [done |]. split; [done |].
    split; [done |]. intros i [Hi | Hi]; by apply elem_of_nil in Hi.
  - apply access_all_cons in H as (t1 & r & c1 & t2 & rs' & H1 & H2 & -> & ->).
    apply access_cost in H1 as (Em1 & Ec1 & Hs1 & Hr1).
    apply IH in H2 as (Em2 & Ec2 & Hs2 & Hr2).
    split; [congruence |].
    rewrite count_misses_app, count_prefetch_steps_app, count_false_cons.
    split; [congruence |]. split; [lia |].
    intros i [[Hi | Hi]%elem_of_app | [Hi | Hi]%elem_of_app].
    + apply Hr1. by left.
    + rewrite <- Em1. apply Hr2. by left.
    + apply Hr1. by right.
    + rewrite <- Em1. apply Hr2. by right.
Qed.

Lemma run_cost_of_prefetch_witness :
  Cache.access_all prefetch_config prefetch_after_4 [0] =
    ([EvTouch 0 0 false; EvPrefetchHits 1; EvRead 2; EvMisses],
     Returns ([false], prefetch_after_4_0)) /\
  Cache.memory prefetch_after_4_0 = Cache.memory prefetch_after_4 /\
  count_misses [EvTouch 0 0 false; EvPrefetchHits 1; EvRead 2; EvMisses] =
    count_false [false] /\
  count_prefetch_steps [EvTouch 0 0 false; EvPrefetchHits 1; EvRead 2; EvMisses]
    <= count_false [false] * PREFETCH_DISTANCE prefetch_config /\
  (forall i, EvRead i ∈ [EvTouch 0 0 false; EvPrefetchHits 1; EvRead 2; EvMisses] \/
             EvPrefetchHits i ∈ [EvTouch 0 0 false; EvPrefetchHits 1; EvRead 2; EvMisses] ->
             i < ExternalMemory.size (Cache.memory prefetch_after_4)).
Proof.
  assert (H : Cache.access_all prefetch_config prefetch_after_4 [0] =
    ([EvTouch 0 0 false; EvPrefetchHits 1; EvRead 2; EvMisses],
     Returns ([false], prefetch_after_4_0))) by (vm_compute; reflexivity).
  split; [exact H |].
  exact (run_cost_of_prefetch prefetch_config [0] prefetch_after_4 _ _ _ H).
Defined.

(** ** Residency and the offset inside a block *)

Lemma access_same_block cfg c a a' :
  block_of cfg a = block_of cfg a' -> Cache.access cfg c a = Cache.access cfg c a'.
Proof.
  unfold block_of, Cache.access, SizeT.div. intros E.
  destruct (MyBLOCK_SIZE cfg =? 0); [done |]. simpl. by rewrite E.
Qed.

(** [is_block_in_cache] reads the set that [access] would touch. *)
Lemma is_block_in_cache_lookup c b s :
  Cache.sets c !! N.to_nat (b mod N.of_nat (length (Cache.sets c))) = Some s ->
  Cache.is_block_in_cache c b = Returns (CacheSet.contains s b).
Proof.
  intros Hs. unfold Cache.is_block_in_cache, SizeT.rem, Cache.index.
  destruct (N.eqb_spec (N.of_nat (length (Cache.sets c))) 0) as [E | _].
  - apply lookup_lt_Some in Hs. lia.
  - simpl. by rewrite Hs.
Qed.

Lemma resident_access_hits cfg c address :
  MyBLOCK_SIZE cfg <> 0 ->
  Cache.is_block_in_cache c (block_of cfg address) = Returns true ->
  exists t c', Cache.access cfg c address = (t, Returns (true, c')).
Proof.
  unfold block_of, Cache.is_block_in_cache, Cache.access, SizeT.div, SizeT.rem, Cache.index.
  intros Hbs H. destruct (N.eqb_spec (MyBLOCK_SIZE cfg) 0) as [| _]; [done |].
  destruct (N.of_nat (length (Cache.sets c)) =? 0); [done |]. simpl in *.
  destruct (Cache.sets c !! _) as [s |]; [| done]. simpl in *.
  injection H as H.
  destruct (set_hit_front s _ H) as (s' & _ & _ & -> & _).
  simpl. by eexists _, _.
Qed.

(** X13. The answer of [access] is what [is_block_in_cache] said of the
    block just before; just after, [is_block_in_cache] says yes, and an
    access to any address of the same block, whatever its offset, is a
    hit. *)
Theorem same_block_hits cfg c address t r c' :
  Cache.access cfg c address = (t, Returns (r, c')) ->
  Cache.is_block_in_cache c (block_of cfg address) = Returns r /\
  Cache.is_block_in_cache c' (block_of cfg address) = Returns true /\
  (forall address',
     block_of cfg address' = block_of cfg address ->
     exists t' c'', Cache.access cfg c' address' = (t', Returns (true, c''))).
Proof.
  intros H. apply access_returns in H as (s & s' & H). simpl in H.
  destruct H as (Hbs & Hne & Hj & Hacc & _ & Es & _).
  pose proof (set_access_resident _ _ _ _ Hacc) as Hc'.
  apply set_access_answer in Hacc as ->.
  assert (Hres : Cache.is_block_in_cache c' (block_of cfg address) = Returns true).
  { rewrite <- Hc'. apply is_block_in_cache_lookup.
    rewrite Es, length_insert. apply list_lookup_insert_eq. by eapply lookup_lt_Some. }
  split; [by apply is_block_in_cache_lookup |]. split; [done |].
  intros address' E. apply resident_access_hits; [done | by rewrite E].
Qed.

Lemma same_block_hits_witness :
  Cache.access two_way_config two_way_final 16 =
    ([EvTouch 0 4 false; EvMisses], Returns (false, two_way_after_16)) /\
  Cache.is_block_in_cache two_way_final (block_of two_way_config 16) = Returns false /\
  Cache.is_block_in_cache two_way_after_16 (block_of two_way_config 16) = Returns true /\
  block_of two_way_config 19 = block_of two_way_config 16 /\
  exists t' c'', Cache.access two_way_config two_way_after_16 19 = (t', Returns (true, c'')).
Proof.
  assert (H : Cache.access two_way_config two_way_final 16 =
                ([EvTouch 0 4 false; EvMisses], Returns (false, two_way_after_16)))
    by (vm_compute; reflexivity).
  assert (E : block_of two_way_config 19 = block_of two_way_config 16) by reflexivity.
  destruct (same_block_hits two_way_config two_way_final 16 _ _ _ H) as (H1 & H2 & H3).
  split; [exact H |]. split; [exact H1 |]. split; [exact H2 |]. split; [exact E |].
  exact (H3 19 E).
Defined.

(** ** One set of the cache during a run *)

(** An access leaves a set as it was, or is an access to that set. *)
Lemma access_project cfg c address t r c' (j : nat) s :
  Cache.access cfg c address = (t, Returns (r, c')) ->
  Cache.sets c !! j = Some s ->
  length (Cache.sets c') = length (Cache.sets c) /\
  if decide (block_of cfg address mod N.of_nat (length (Cache.sets c)) = N.of_nat j)
  then exists s', CacheSet.access s (block_of cfg address) = Returns (r, s') /\
                  Cache.sets c' !! j = Some s'
  else Cache.sets c' !! j = Some s.
Proof.
  intros H Hs. apply access_returns in H as (s0 & s' & H). simpl in H.
  destruct H as (_ & _ & Hj & Hacc & _ & Es & _). unfold block_of.
  rewrite Es, length_insert. split; [done |].
  destruct (decide _) as [E | Hne].
  - rewrite E, Nat2N.id in Hj |- *. simplify_eq. exists s'. split; [done |].
    apply list_lookup_insert_eq. by eapply lookup_lt_Some.
  - rewrite list_lookup_insert_ne by lia. done.
Qed.

Lemma access_all_project cfg addresses : forall c t rs c' (j : nat) s,
  Cache.access_all cfg c addresses = (t, Returns (rs, c')) ->
  Cache.sets c !! j = Some s ->
  exists rsj s',
    touch_all s (filter (fun b => b mod N.of_nat (length (Cache.sets c)) = N.of_nat j)
                        (map (block_of cfg) addresses)) = Returns (rsj, s') /\
    Cache.sets c' !! j = Some s' /\
    length (Cache.sets c') = length (Cache.sets c).
Proof.
  induction addresses as [| a rest IH]; intros c t rs c' j s H Hs.
  - simpl in H. returns H. simplify_eq. by exists [], s.
  - apply access_all_cons in H as (t1 & r & c1 & t2 & rs' & H1 & H2 & _).
    destruct (access_project _ _ _ _ _ _ _ _ H1 Hs) as [Hlen Hstep].
    simpl map. rewrite filter_cons.
    destruct (decide _) as [E | Hne].
    + destruct Hstep as (s1 & Hacc & Hs1).
      destruct (IH _ _ _ _ _ _ H2 Hs1) as (rsj & s' & Ht & Hs' & Hlen').
      rewrite Hlen in Ht. exists (r :: rsj), s'.
      simpl. rewrite Hacc. simpl. rewrite Ht. simpl.
      split; [done |]. split; [done | congruence].
    + destruct (IH _ _ _ _ _ _ H2 Hstep) as (rsj & s' & Ht & Hs' & Hlen').
      rewrite Hlen in Ht. exists rsj, s'. split; [done |]. split; [done | congruence].
Qed.

(** X14. Least recently used, seen from one block of the cache: in a
    reachable cache, after an access to [address], a run of accesses that
    does not come back to its block and brings fewer than NUM_WAYS
    different blocks to its set leaves the block resident, and the next
    access to [address] is a hit. Accesses that map to other sets do not
    count. *)
Theorem cache_keeps_recent_block cfg mem c address t1 r1 c1 addresses t2 rs c2 :
  reachable cfg mem c ->
  Cache.access cfg c address = (t1, Returns (r1, c1)) ->
  Cache.access_all cfg c1 addresses = (t2, Returns (rs, c2)) ->
  block_of cfg address ∉ same_set_blocks cfg (block_of cfg address) addresses ->
  N.of_nat (length (remove_dups (same_set_blocks cfg (block_of cfg address) addresses)))
    < NUM_WAYS cfg ->
  exists t3 c3, Cache.access cfg c2 address = (t3, Returns (true, c3)).
Proof.
  intros Hok%reachable_ok H1 H2 Hb Hlen.
  pose proof (access_ok _ _ _ _ _ _ Hok H1) as (Hne & Hn & Hsets1).
  apply access_returns in H1 as (s & s1 & H1). simpl in H1.
  destruct H1 as (Hbs & _ & Hj & Hacc & _ & Es1 & _).
  destruct Hok as (_ & Hn0 & _).
  set (b := address / MyBLOCK_SIZE cfg) in *.
  assert (Hs1 : Cache.sets c1 !! N.to_nat (b mod NUM_SETS cfg) = Some s1).
  { rewrite Es1. replace (N.of_nat (length (Cache.sets c))) with (NUM_SETS cfg) by lia.
    apply list_lookup_insert_eq. apply lookup_lt_Some in Hj. lia. }
  destruct (Hsets1 _ _ Hs1) as [Ew _ Hnd _].
  destruct (set_access_front _ _ _ _ Hacc) as [l El].
  destruct (access_all_project _ _ _ _ _ _ _ _ H2 Hs1) as (rsj & s2 & Ht & Hs2 & Hlen2).
  rewrite Hn, !N2Nat.id in Ht.
  change (touch_all s1 (same_set_blocks cfg b addresses) = Returns (rsj, s2)) in Ht.
  assert (Hin : b ∈ CacheSet.blocks s2).
  { apply (retained_all b (same_set_blocks cfg b addresses) s1 [] l [] rsj s2 El Hnd);
      [| done | | done].
    - by intros x ?%elem_of_nil.
    - by rewrite Ew. }
  apply resident_access_hits; [done |].
  rewrite <- (proj2 (contains_elem_of s2 b) Hin).
  apply is_block_in_cache_lookup. rewrite Hlen2, Hn, N2Nat.id. done.
Qed.

Lemma two_way_fresh_reachable : reachable two_way_config four_blocks two_way_fresh.
Proof. exists two_way_fresh, [], [], []. by split. Qed.

Lemma cache_keeps_recent_block_witness :
  exists t1 r1 c1 t2 rs c2,
    reachable two_way_config four_blocks two_way_fresh /\
    Cache.access two_way_config two_way_fresh 0 = (t1, Returns (r1, c1)) /\
    Cache.access_all two_way_config c1 [4; 8; 4; 12] = (t2, Returns (rs, c2)) /\
    (block_of two_way_config 0
       ∉ same_set_blocks two_way_config (block_of two_way_config 0) [4; 8; 4; 12]) /\
    N.of_nat (length (remove_dups
      (same_set_blocks two_way_config (block_of two_way_config 0) [4; 8; 4; 12])))
      < NUM_WAYS two_way_config /\
    exists t3 c3, Cache.access two_way_config c2 0 = (t3, Returns (true, c3)).
Proof.
  eexists _, _, _, _, _, _.
  split; [exact two_way_fresh_reachable |].
  split; [vm_compute; reflexivity |].
  split; [vm_compute; reflexivity |].
  assert (H4 : block_of two_way_config 0
     ∉ same_set_blocks two_way_config (block_of two_way_config 0) [4; 8; 4; 12])
    by (apply (bool_decide_unpack _); vm_compute; reflexivity).
  assert (H5 : N.of_nat (length (remove_dups
      (same_set_blocks two_way_config (block_of two_way_config 0) [4; 8; 4; 12])))
      < NUM_WAYS two_way_config) by (vm_compute; reflexivity).
  split; [exact H4 |]. split; [exact H5 |].
  eapply (cache_keeps_recent_block two_way_config four_blocks two_way_fresh 0
            _ _ _ [4; 8; 4; 12]);
    [exact two_way_fresh_reachable | vm_compute; reflexivity | vm_compute; reflexivity
    | exact H4 | exact H5].
Defined.

(** ** The contents of the backing store *)

Lemma lookup_map {A B} (f : A -> B) (l : list A) : forall i,
  map f l !! i = f <$> (l !! i).
Proof.
  induction l as [| x l IH]; intros [| i]; simpl; try done.
Qed.

Lemma int_cast_small z : (- 2 ^ 31 <= z < 2 ^ 31)%Z -> int_cast z = z.
Proof. unfold int_cast. intros H. lia. Qed.

Lemma fill_map {A B} (f : A -> outcome B) (g : A -> B) l :
  (forall x, In x l -> f x = Returns (g x)) -> fill f l = Returns (map g l).
Proof.
  induction l as [| x l IH]; intros H; [done |].
  simpl. rewrite (H x) by by left. simpl.
  rewrite IH; [done |]. intros y Hy. apply H. by right.
Qed.

Lemma fill_returns {A B} (f : A -> outcome B) l : forall bs,
  fill f l = Returns bs ->
  length bs = length l /\
  forall i x, l !! i = Some x -> exists y, bs !! i = Some y /\ f x = Returns y.
Proof.
  induction l as [| a l IH]; intros bs H.
  - simpl in H. simplify_eq. split; [done |]. by intros i x ?.
  - simpl in H. apply obind_returns in H as (y & Hy & H).
    apply obind_returns in H as (ys & Hys & H). simplify_eq.
    destruct (IH ys Hys) as [Hl Hlook]. split; [simpl; by rewrite Hl |].
    intros [| i] x Hx; simpl in *.
    + simplify_eq. by exists y.
    + by apply Hlook.
Qed.

Lemma fill_cases {A B} (f : A -> outcome B) l :
  (forall y, In y l -> f y = Undefined \/ exists b, f y = Returns b) ->
  fill f l = Undefined \/ exists bs, fill f l = Returns bs.
Proof.
  induction l as [| a l IH]; intros H; [right; by eexists |].
  simpl. destruct (H a) as [-> | [b ->]]; [by left | by left |]. simpl.
  destruct IH as [-> | [bs ->]]; [intros y Hy; apply H; by right | by left |].
  right. by eexists.
Qed.

Lemma fill_undefined {A B} (f : A -> outcome B) l x :
  In x l -> f x = Undefined ->
  (forall y, In y l -> f y = Undefined \/ exists b, f y = Returns b) ->
  fill f l = Undefined.
Proof.
  induction l as [| a l IH]; intros Hin Hx H; [done |].
  simpl. destruct (H a) as [-> | [b Hb]]; [by left | done |]. rewrite Hb. simpl.
  destruct Hin as [-> | Hin]; [congruence |].
  rewrite IH; [done | done | done |]. intros y Hy. apply H. by right.
Qed.

Lemma int_add_cases x y : int_add x y = Undefined \/ exists z, int_add x y = Returns z.
Proof. unfold int_add. destruct (in_int _); [right; by eexists | by left]. Qed.

Lemma Block_init_cases cfg v :
  Block_init cfg v = Undefined \/ exists blk, Block_init cfg v = Returns blk.
Proof.
  unfold Block_init.
  destruct (fill_cases (fun i => int_add v (int_cast (Z.of_nat i)))
              (seq 0 (N.to_nat (MyBLOCK_SIZE cfg)))) as [-> | [d ->]].
  - intros y _. apply int_add_cases.
  - by left.
  - right. by eexists.
Qed.

(** A block that was built holds the sums, none of them out of range. *)
Lemma Block_init_returns cfg v blk :
  Block_init cfg v = Returns blk ->
  blk = {| data := map (fun j => (v + int_cast (Z.of_nat j))%Z)
                       (seq 0 (N.to_nat (MyBLOCK_SIZE cfg))) |} /\
  forall j, (j < N.to_nat (MyBLOCK_SIZE cfg))%nat ->
            in_int (v + int_cast (Z.of_nat j)) = true.
Proof.
  unfold Block_init. intros H. apply obind_returns in H as (d & Hd & H). simplify_eq.
  destruct (fill_returns _ _ _ Hd) as [Hl Hlook]. rewrite length_seq in Hl.
  assert (Hj : forall j, (j < N.to_nat (MyBLOCK_SIZE cfg))%nat ->
             in_int (v + int_cast (Z.of_nat j)) = true /\
             d !! j = Some (v + int_cast (Z.of_nat j))%Z).
  { intros j Hlt. destruct (Hlook j j) as (y & Hy & Hadd); [by apply lookup_seq_lt |].
    unfold int_add in Hadd. destruct (in_int _); [| done]. by simplify_eq. }
  split; [| intros j Hlt; by apply Hj].
  f_equal. apply list_eq. intros j. rewrite lookup_map.
  destruct (Nat.lt_ge_cases j (N.to_nat (MyBLOCK_SIZE cfg))) as [Hlt | Hge].
  - rewrite lookup_seq_lt by done. simpl. by apply Hj.
  - rewrite lookup_seq_ge by done. simpl. apply lookup_ge_None. lia.
Qed.

Lemma Block_init_in_range cfg v :
  (forall j, (j < N.to_nat (MyBLOCK_SIZE cfg))%nat ->
             in_int (v + int_cast (Z.of_nat j)) = true) ->
  exists blk, Block_init cfg v = Returns blk.
Proof.
  intros H. unfold Block_init.
  rewrite (fill_map _ (fun j => (v + int_cast (Z.of_nat j))%Z)).
  - by eexists.
  - intros j [_ Hj]%in_seq. unfold int_add. by rewrite H by lia.
Qed.

Lemma Block_init_overflow cfg v j :
  (j < N.to_nat (MyBLOCK_SIZE cfg))%nat ->
  in_int (v + int_cast (Z.of_nat j)) = false ->
  Block_init cfg v = Undefined.
Proof.
  intros Hj Hout. unfold Block_init.
  rewrite (fill_undefined _ _ j); [done | | | ].
  - apply in_seq. lia.
  - unfold int_add. by rewrite Hout.
  - intros y _. apply int_add_cases.
Qed.

(** The store that was built: its size, and what block [b] holds. *)
Lemma make_store_returns cfg num_blocks memory :
  ExternalMemory.make cfg num_blocks = Returns memory ->
  ExternalMemory.size memory = num_blocks /\
  forall b, b < num_blocks ->
    ExternalMemory.read_block memory b =
      Returns {| data := map (fun j => (int_cast (Z.of_N (SizeT.mul b (MyBLOCK_SIZE cfg)))
                                        + int_cast (Z.of_nat j))%Z)
                             (seq 0 (N.to_nat (MyBLOCK_SIZE cfg))) |}.
Proof.
  unfold ExternalMemory.make. intros H. apply obind_returns in H as (bs & Hbs & H).
  simplify_eq. destruct (fill_returns _ _ _ Hbs) as [Hl Hlook]. rewrite length_seq in Hl.
  assert (Hsize : ExternalMemory.size {| ExternalMemory.blocks := bs |} = num_blocks).
  { unfold ExternalMemory.size. simpl. lia. }
  split; [done |]. intros b Hb.
  unfold ExternalMemory.read_block. rewrite Hsize.
  destruct (N.leb_spec num_blocks b) as [| _]; [lia |]. simpl.
  destruct (Hlook (N.to_nat b) (N.to_nat b)) as (blk & -> & Hblk);
    [apply lookup_seq_lt; lia |].
  rewrite N2Nat.id in Hblk. by apply Block_init_returns in Hblk as [-> _].
Qed.

(** A store of no more than 2^31 elements can be built. *)
Lemma make_store_total cfg num_blocks :
  num_blocks * MyBLOCK_SIZE cfg <= 2 ^ 31 ->
  exists memory, ExternalMemory.make cfg num_blocks = Returns memory.
Proof.
  intros Hint. unfold ExternalMemory.make.
  destruct (fill_cases (fun i => Block_init cfg
              (int_cast (Z.of_N (SizeT.mul (N.of_nat i) (MyBLOCK_SIZE cfg)))))
              (seq 0 (N.to_nat num_blocks))) as [Hu | [bs ->]].
  - intros y _. apply Block_init_cases.
  - exfalso. revert Hu.
    assert (Hall : forall i, In i (seq 0 (N.to_nat num_blocks)) ->
              exists blk, Block_init cfg
                (int_cast (Z.of_N (SizeT.mul (N.of_nat i) (MyBLOCK_SIZE cfg)))) = Returns blk).
    { intros i [_ Hi]%in_seq. apply Block_init_in_range. intros j Hj.
      assert (Em : SizeT.mul (N.of_nat i) (MyBLOCK_SIZE cfg) = N.of_nat i * MyBLOCK_SIZE cfg).
      { unfold SizeT.mul, SizeT.wrap, SizeT.modulus. apply N.mod_small. nia. }
      rewrite Em, N2Z.inj_mul.
      rewrite (int_cast_small (Z.of_nat j)) by nia.
      rewrite (int_cast_small (Z.of_N (N.of_nat i) * Z.of_N (MyBLOCK_SIZE cfg))) by nia.
      unfold in_int. apply andb_true_intro. split; [apply Z.leb_le | apply Z.ltb_lt]; nia. }
    induction (seq 0 (N.to_nat num_blocks)) as [| i l IH]; [done |].
    simpl. destruct (Hall i) as [blk ->]; [by left |]. simpl.
    destruct (fill _ l) eqn:E; try done.
    intros _. apply IH; [| done]. intros y Hy. apply Hall. by right.
  - by eexists.
Qed.

(** A sum out of the range of [int] in a block of the store. *)
Lemma store_overflow_undefined cfg num_blocks b (j : nat) :
  b < num_blocks -> N.of_nat j < MyBLOCK_SIZE cfg ->
  in_int (int_cast (Z.of_N (SizeT.mul b (MyBLOCK_SIZE cfg))) + int_cast (Z.of_nat j))
    = false ->
  ExternalMemory.make cfg num_blocks = Undefined.
Proof.
  intros Hb Hj Hout. unfold ExternalMemory.make.
  rewrite (fill_undefined _ _ (N.to_nat b)); [done | | |].
  - apply in_seq. lia.
  - rewrite N2Nat.id. apply (Block_init_overflow cfg _ j); [lia | done].
  - intros y _. apply Block_init_cases.
Qed.



(** ** The access pattern *)

Section Pattern.
Context (cfg : Config) {Gen : Type}.
Variable uniform_real : Gen -> Q * Gen.
Variable uniform_int : N * N -> Gen -> N * Gen.

Local Abbreviation pattern := (RealisticAccessPattern.t Gen).
Local Abbreviation next_address :=
  (RealisticAccessPattern.next_address cfg uniform_real uniform_int).
Local Abbreviation addresses :=
  (RealisticAccessPattern.addresses cfg uniform_real uniform_int).

Lemma next_address_fields (p : pattern) :
  RealisticAccessPattern.hot_block_dist (snd (next_address p)) =
    RealisticAccessPattern.hot_block_dist p /\
  RealisticAccessPattern.cold_block_dist (snd (next_address p)) =
    RealisticAccessPattern.cold_block_dist p /\
  RealisticAccessPattern.element_dist (snd (next_address p)) =
    RealisticAccessPattern.element_dist p /\
  RealisticAccessPattern.num_elements (snd (next_address p)) =
    RealisticAccessPattern.num_elements p.
Proof.
  unfold RealisticAccessPattern.next_address.
  destruct (_ <=? _); [done |].
  destruct (uniform_real _) as [u g1].
  destruct (if negb _ then _ else _) as [block g2].
  by destruct (uniform_int _ g2) as [offset g3].
Qed.

Lemma next_address_built max_blocks (p : pattern) :
  built_for cfg max_blocks p -> built_for cfg max_blocks (snd (next_address p)).
Proof.
  intros (Hh & Hc & He).
  destruct (next_address_fields p) as (Eh & Ec & Ee & _).
  unfold built_for. by rewrite Eh, Ec, Ee.
Qed.

Lemma next_address_in_range max_blocks (p : pattern) :
  in_bounds uniform_int -> built_for cfg max_blocks p ->
  4 <= max_blocks -> 0 < MyBLOCK_SIZE cfg ->
  max_blocks * MyBLOCK_SIZE cfg <= SizeT.modulus ->
  fst (next_address p) < max_blocks * MyBLOCK_SIZE cfg.
Proof.
  intros Hui (Hh & Hc & He) Hmb Hbs Hfit.
  assert (Hle : max_blocks <= SizeT.modulus) by nia.
  assert (Hle' : MyBLOCK_SIZE cfg <= SizeT.modulus) by nia.
  unfold RealisticAccessPattern.next_address.
  destruct (_ <=? _); [simpl; nia |].
  destruct (uniform_real _) as [u g1].
  assert (Hblock : fst (if negb (Qle_bool (HOT_ACCESS_PROB cfg) u)
                        then uniform_int (RealisticAccessPattern.hot_block_dist p) g1
                        else uniform_int (RealisticAccessPattern.cold_block_dist p) g1)
                   < max_blocks).
  { destruct (negb _).
    - rewrite Hh. pose proof (Hui 0 (SizeT.sub (max_blocks / 4) 1) g1 (N.le_0_l _)) as H.
      unfold SizeT.sub, SizeT.wrap, SizeT.modulus in *. lia.
    - rewrite Hc. pose proof (Hui 0 (SizeT.sub max_blocks 1) g1 (N.le_0_l _)) as H.
      unfold SizeT.sub, SizeT.wrap, SizeT.modulus in *. lia. }
  destruct (if negb _ then _ else _) as [block g2]. simpl in Hblock.
  rewrite He.
  pose proof (Hui 0 (SizeT.sub (MyBLOCK_SIZE cfg) 1) g2 (N.le_0_l _)) as Hoff.
  destruct (uniform_int _ g2) as [offset g3]. simpl in Hoff. simpl.
  assert (Ho : offset < MyBLOCK_SIZE cfg).
  { unfold SizeT.sub, SizeT.wrap, SizeT.modulus in *. lia. }
  assert (Hlt : block * MyBLOCK_SIZE cfg + offset < max_blocks * MyBLOCK_SIZE cfg) by nia.
  unfold SizeT.add, SizeT.mul, SizeT.wrap.
  rewrite (N.mod_small (block * MyBLOCK_SIZE cfg)) by nia.
  rewrite N.mod_small by lia. done.
Qed.

Lemma addresses_in_range max_blocks k : forall p : pattern,
  in_bounds uniform_int -> built_for cfg max_blocks p ->
  4 <= max_blocks -> 0 < MyBLOCK_SIZE cfg ->
  max_blocks * MyBLOCK_SIZE cfg <= SizeT.modulus ->
  Forall (fun a => a < max_blocks * MyBLOCK_SIZE cfg) (fst (addresses k p)).
Proof.
  induction k as [| k IH]; intros p Hui Hb Hmb Hbs Hfit; [constructor |].
  simpl.
  pose proof (next_address_in_range max_blocks p Hui Hb Hmb Hbs Hfit) as Ha.
  pose proof (next_address_built max_blocks p Hb) as Hb'.
  destruct (next_address p) as [a p']. simpl in Ha, Hb'.
  specialize (IH p' Hui Hb' Hmb Hbs Hfit).
  destruct (addresses k p') as [l p'']. simpl in *. by constructor.
Qed.

Lemma next_address_lt_modulus (p : pattern) : fst (next_address p) < SizeT.modulus.
Proof.
  unfold RealisticAccessPattern.next_address.
  destruct (_ <=? _); [done |].
  destruct (uniform_real _) as [u g1].
  destruct (if negb _ then _ else _) as [block g2].
  destruct (uniform_int _ g2) as [offset g3]. simpl.
  unfold SizeT.add, SizeT.wrap. by apply N.mod_lt.
Qed.

Lemma addresses_lt_modulus k : forall p : pattern,
  Forall (fun a => a < SizeT.modulus) (fst (addresses k p)).
Proof.
  induction k as [| k IH]; intros p; [constructor |].
  simpl. pose proof (next_address_lt_modulus p) as Ha.
  destruct (next_address p) as [a p']. specialize (IH p').
  destruct (addresses k p') as [l p'']. simpl in *. by constructor.
Qed.

Lemma addresses_length k : forall p : pattern, length (fst (addresses k p)) = k.
Proof.
  induction k as [| k IH]; intros p; [done |].
  simpl. destruct (next_address p) as [a p']. specialize (IH p').
  destruct (addresses k p') as [l p'']. simpl in *. by rewrite IH.
Qed.

Lemma next_address_count (p : pattern) :
  RealisticAccessPattern.count p < RealisticAccessPattern.num_elements p ->
  RealisticAccessPattern.num_elements p < SizeT.modulus ->
  RealisticAccessPattern.count (snd (next_address p)) = RealisticAccessPattern.count p + 1.
Proof.
  intros Hlt Hn. unfold RealisticAccessPattern.next_address.
  destruct (N.leb_spec (RealisticAccessPattern.num_elements p)
                       (RealisticAccessPattern.count p)) as [| _]; [lia |].
  destruct (uniform_real _) as [u g1].
  destruct (if negb _ then _ else _) as [block g2].
  destruct (uniform_int _ g2) as [offset g3]. simpl.
  unfold SizeT.incr, SizeT.add, SizeT.wrap. apply N.mod_small. lia.
Qed.

Lemma addresses_count k : forall p : pattern,
  RealisticAccessPattern.count p <= RealisticAccessPattern.num_elements p ->
  RealisticAccessPattern.num_elements p < SizeT.modulus ->
  RealisticAccessPattern.count (snd (addresses k p)) =
    N.min (RealisticAccessPattern.count p + N.of_nat k) (RealisticAccessPattern.num_elements p) /\
  RealisticAccessPattern.num_elements (snd (addresses k p)) =
    RealisticAccessPattern.num_elements p.
Proof.
  induction k as [| k IH]; intros p Hle Hn.
  - simpl. split; [lia | done].
  - destruct (N.le_gt_cases (RealisticAccessPattern.num_elements p)
                            (RealisticAccessPattern.count p)) as [Hge | Hlt].
    + rewrite (addresses_exhausted cfg uniform_real uniform_int p (S k) Hge). simpl.
      split; [lia | done].
    + simpl. pose proof (next_address_count p Hlt Hn) as Ec.
      destruct (next_address_fields p) as (_ & _ & _ & En).
      destruct (next_address p) as [a p']. simpl in Ec, En.
      destruct (IH p') as [Ec' En']; [lia | lia |].
      destruct (addresses k p') as [l p'']. simpl in *.
      split; [lia | congruence].
Qed.

Lemma addresses_add j : forall k (p : pattern),
  addresses (j + k) p =
    (fst (addresses j p) ++ fst (addresses k (snd (addresses j p))),
     snd (addresses k (snd (addresses j p)))).
Proof.
  induction j as [| j IH]; intros k p.
  - simpl. by destruct (addresses k p).
  - simpl. destruct (next_address p) as [a p']. rewrite IH.
    by destruct (addresses j p') as [l p''].
Qed.

(** X16. A generator built for [max_blocks] blocks, four at least, of a
    store that [size_t] can address, over distributions that keep within
    their bounds, never hands out an address outside the store: every
    address decodes to a block below [max_blocks]. With fewer than four
    blocks the upper bound of the hot range, [max_blocks/4-1], wraps
    around to the largest [size_t]. *)
Theorem generated_addresses_within_store (seed : Gen) max_blocks n :
  (in_bounds uniform_int ->
   4 <= max_blocks -> 0 < MyBLOCK_SIZE cfg ->
   max_blocks * MyBLOCK_SIZE cfg <= SizeT.modulus ->
   forall k a,
     a ∈ fst (addresses k (RealisticAccessPattern.make cfg seed max_blocks n)) ->
     a < max_blocks * MyBLOCK_SIZE cfg /\ block_of cfg a < max_blocks) /\
  (max_blocks < 4 ->
   RealisticAccessPattern.hot_block_dist
     (RealisticAccessPattern.make cfg seed max_blocks n) = (0, SizeT.max)).
Proof.
  split.
  - intros Hui Hmb Hbs Hfit k a Ha.
    assert (Hb : built_for cfg max_blocks (RealisticAccessPattern.make cfg seed max_blocks n))
      by done.
    pose proof (addresses_in_range max_blocks k _ Hui Hb Hmb Hbs Hfit) as Hall.
    rewrite Forall_forall in Hall. apply list_elem_of_In, Hall in Ha.
    split; [done |]. unfold block_of.
    apply N.Div0.div_lt_upper_bound. lia.
  - intros Hlt. unfold RealisticAccessPattern.make. simpl. f_equal.
    rewrite N.div_small by done. done.
Qed.

(** X17. The generator counts its draws: after [k] calls on a fresh
    generator for [n] elements, [count] is the smaller of [k] and [n].
    The first [n] calls are the only ones that draw; from then on the
    generator stays as it is and the addresses are zeros. *)
Theorem generator_counts_its_draws (seed : Gen) max_blocks n k :
  n < SizeT.modulus ->
  RealisticAccessPattern.count
    (snd (addresses k (RealisticAccessPattern.make cfg seed max_blocks n)))
    = N.min (N.of_nat k) n /\
  length (fst (addresses k (RealisticAccessPattern.make cfg seed max_blocks n))) = k /\
  addresses (N.to_nat n + k) (RealisticAccessPattern.make cfg seed max_blocks n) =
    (fst (addresses (N.to_nat n) (RealisticAccessPattern.make cfg seed max_blocks n))
       ++ repeat 0 k,
     snd (addresses (N.to_nat n) (RealisticAccessPattern.make cfg seed max_blocks n))).
Proof.
  intros Hn.
  set (p := RealisticAccessPattern.make cfg seed max_blocks n).
  assert (Hc : forall j,
    RealisticAccessPattern.count (snd (addresses j p)) = N.min (N.of_nat j) n /\
    RealisticAccessPattern.num_elements (snd (addresses j p)) = n).
  { intros j. destruct (addresses_count j p) as [Ec En]; simpl; [lia | done |].
    simpl in Ec, En. by rewrite N.add_0_l in Ec. }
  split; [apply Hc |]. split; [apply addresses_length |].
  rewrite addresses_add.
  destruct (Hc (N.to_nat n)) as [Ec En].
  rewrite (addresses_exhausted cfg uniform_real uniform_int _ k); [done |].
  rewrite Ec, En. lia.
Qed.

End Pattern.

Lemma upper_int_in_bounds : in_bounds upper_int.
Proof. intros lo hi g H. simpl. lia. Qed.

Lemma generated_addresses_within_store_witness :
  (in_bounds upper_int /\
   4 <= 4 /\ 0 < MyBLOCK_SIZE two_way_config /\
   4 * MyBLOCK_SIZE two_way_config <= SizeT.modulus /\
   (3 ∈ fst (RealisticAccessPattern.addresses two_way_config counting_real upper_int 2%nat
               (RealisticAccessPattern.make two_way_config 0 4 16))) /\
   3 < 4 * MyBLOCK_SIZE two_way_config /\ block_of two_way_config 3 < 4) /\
  (2 < 4 /\
   RealisticAccessPattern.hot_block_dist
     (RealisticAccessPattern.make two_way_config 0 2 16) = (0, SizeT.max)).
Proof.
  assert (H1 : 4 <= 4) by reflexivity.
  assert (H2 : 0 < MyBLOCK_SIZE two_way_config) by reflexivity.
  assert (H3 : 4 * MyBLOCK_SIZE two_way_config <= SizeT.modulus)
    by (vm_compute; discriminate).
  assert (H4 : 3 ∈ fst (RealisticAccessPattern.addresses two_way_config counting_real
                           upper_int 2%nat (RealisticAccessPattern.make two_way_config 0 4 16)))
    by (vm_compute; left).
  assert (H5 : 2 < 4) by reflexivity.
  split.
  - split; [exact upper_int_in_bounds |]. split; [exact H1 |]. split; [exact H2 |].
    split; [exact H3 |]. split; [exact H4 |].
    exact (proj1 (generated_addresses_within_store two_way_config counting_real upper_int
                    0 4 16) upper_int_in_bounds H1 H2 H3 2%nat 3 H4).
  - split; [exact H5 |].
    exact (proj2 (generated_addresses_within_store two_way_config counting_real upper_int
                    0 2 16) H5).
Defined.

Lemma generator_counts_its_draws_witness :
  3 < SizeT.modulus /\
  RealisticAccessPattern.count
    (snd (RealisticAccessPattern.addresses two_way_config counting_real upper_int 5%nat
            (RealisticAccessPattern.make two_way_config 0 4 3)))
    = N.min (N.of_nat 5) 3.
Proof.
  assert (H : 3 < SizeT.modulus) by reflexivity.
  split; [exact H |].
  exact (proj1 (generator_counts_its_draws two_way_config counting_real upper_int
                  0 4 3 5%nat H)).
Defined.

(** ** The whole simulation *)

Lemma make_total cfg mem :
  SizeT.mul (MyBLOCK_SIZE cfg) (NUM_WAYS cfg) <> 0 ->
  exists c, Cache.make cfg mem = Returns c.
Proof.
  intros Hne. unfold Cache.make, Cache.num_sets, SizeT.div.
  destruct (N.eqb_spec (SizeT.mul (MyBLOCK_SIZE cfg) (NUM_WAYS cfg)) 0) as [| _]; [done |].
  simpl. by eexists.
Qed.

Lemma ok_access_total cfg c address :
  cache_ok cfg c ->
  SizeT.add (address / MyBLOCK_SIZE cfg) (PREFETCH_DISTANCE cfg) <> SizeT.max ->
  exists t r c', Cache.access cfg c address = (t, Returns (r, c')).
Proof.
  intros (Hne & Hlen & Hsets) Hbound.
  pose proof (ways_positive cfg Hne) as Hw.
  apply access_total; [| | | done].
  - intros E. apply Hne. unfold SizeT.mul, SizeT.wrap. by rewrite E.
  - intros E. rewrite E in Hlen. unfold NUM_SETS in Hlen. simpl in Hlen. lia.
  - intros s (j & Hj)%list_elem_of_lookup_1.
    destruct (Hsets j s Hj) as [-> _ _ _]. done.
Qed.

Lemma ok_access_all_total cfg addresses : forall c,
  cache_ok cfg c ->
  Forall (fun a => SizeT.add (a / MyBLOCK_SIZE cfg) (PREFETCH_DISTANCE cfg) <> SizeT.max)
         addresses ->
  exists t rs c', Cache.access_all cfg c addresses = (t, Returns (rs, c')).
Proof.
  induction addresses as [| a rest IH]; intros c Hok Hall.
  - by exists [], [], c.
  - inversion Hall as [| ? ? Ha Hrest]; subst.
    destruct (ok_access_total cfg c a Hok Ha) as (t1 & r & c1 & H1).
    destruct (IH c1 (access_ok _ _ _ _ _ _ Hok H1) Hrest) as (t2 & rs & c2 & H2).
    exists (t1 ++ t2 ++ []), (r :: rs), c2. simpl. rewrite H1. simpl. by rewrite H2.
Qed.

Lemma access_all_memory cfg addresses : forall c t rs c',
  Cache.access_all cfg c addresses = (t, Returns (rs, c')) ->
  Cache.memory c' = Cache.memory c.
Proof.
  induction addresses as [| a rest IH]; intros c t rs c' H.
  - simpl in H. returns H. by simplify_eq.
  - apply access_all_cons in H as (t1 & r & c1 & t2 & rs' & H1 & H2 & _).
    apply access_cost in H1 as (Em1 & _). apply IH in H2. congruence.
Qed.

(** The run of a whole simulation, when the store can be built and block
    size and prefetch distance keep the bound of the prefetch loop away
    from the largest [size_t]. *)
Lemma run_simulation_total cfg {Gen : Type} (uniform_real : Gen -> Q * Gen)
    (uniform_int : N * N -> Gen -> N * Gen) (seed : Gen) :
  SizeT.mul (MyBLOCK_SIZE cfg) (NUM_WAYS cfg) <> 0 ->
  2 <= MyBLOCK_SIZE cfg -> PREFETCH_DISTANCE cfg < 2 ^ 63 ->
  NUM_ELEMENTS cfg <= 2 ^ 31 ->
  exists t c memory c0 rs,
    CacheSimulator.run_simulation cfg uniform_real uniform_int seed = (t, Returns c) /\
    ExternalMemory.make cfg (NUM_ELEMENTS cfg / MyBLOCK_SIZE cfg) = Returns memory /\
    Cache.make cfg memory = Returns c0 /\
    Cache.access_all cfg c0
      (fst (RealisticAccessPattern.addresses cfg uniform_real uniform_int
              (N.to_nat (NUM_ELEMENTS cfg))
              (RealisticAccessPattern.make cfg seed (ExternalMemory.size memory)
                 (NUM_ELEMENTS cfg))))
      = (t, Returns (rs, c)).
Proof.
  intros Hne Hbs Hpd Hint.
  destruct (make_store_total cfg (NUM_ELEMENTS cfg / MyBLOCK_SIZE cfg)) as [memory Hmem].
  { pose proof (N.Div0.mul_div_le (NUM_ELEMENTS cfg) (MyBLOCK_SIZE cfg)). lia. }
  destruct (make_total cfg memory Hne) as [c0 Hmake].
  set (p := RealisticAccessPattern.make cfg seed (ExternalMemory.size memory)
              (NUM_ELEMENTS cfg)).
  destruct (ok_access_all_total cfg
              (fst (RealisticAccessPattern.addresses cfg uniform_real uniform_int
                      (N.to_nat (NUM_ELEMENTS cfg)) p)) c0 (make_ok _ _ _ Hmake))
    as (t & rs & c & Hrun).
  { refine (List.Forall_impl _ _ (addresses_lt_modulus cfg uniform_real uniform_int _ p)).
    simpl. intros a Ha.
    assert (Hq : a / MyBLOCK_SIZE cfg < 2 ^ 63).
    { apply N.Div0.div_lt_upper_bound. unfold SizeT.modulus in Ha. lia. }
    unfold SizeT.add, SizeT.wrap, SizeT.max, SizeT.modulus.
    rewrite N.mod_small; lia. }
  exists t, c, memory, c0, rs. split; [| by repeat split].
  unfold CacheSimulator.run_simulation, SizeT.div.
  destruct (N.eqb_spec (MyBLOCK_SIZE cfg) 0) as [| _]; [lia |].
  cbn [lift bind ret]. rewrite Hmem. cbn [lift bind ret]. rewrite Hmake.
  cbn [lift bind ret].
  rewrite drive_access_all. fold p. rewrite Hrun. simpl. by rewrite !app_nil_r.
Qed.

(** X18. A simulation runs to its end. For every behaviour of the random
    engine and every seed, with no more than 2^31 elements to access (so
    that the store is built within the range of [int]), a block size of
    two elements at least, a prefetch distance below 2^63 and a block size
    and number of ways whose product is not 0 in [size_t],
    [run_simulation] returns: nothing is thrown, nothing is undefined and
    no loop runs for ever. At the end the store has
    NUM_ELEMENTS / BLOCK_SIZE blocks, hits and misses add up to
    NUM_ELEMENTS, the prefetch hits are at most PREFETCH_DISTANCE per
    miss, and, if at least one access was simulated, the hit rate is not a
    NaN. With more elements than that the constructor of the store can be
    undefined, and then so is the simulation. *)
Theorem simulation_runs_to_its_end cfg {Gen : Type} (uniform_real : Gen -> Q * Gen)
    (uniform_int : N * N -> Gen -> N * Gen) (seed : Gen) :
  (SizeT.mul (MyBLOCK_SIZE cfg) (NUM_WAYS cfg) <> 0 ->
   2 <= MyBLOCK_SIZE cfg -> PREFETCH_DISTANCE cfg < 2 ^ 63 ->
   NUM_ELEMENTS cfg <= 2 ^ 31 ->
   exists t c,
     CacheSimulator.run_simulation cfg uniform_real uniform_int seed = (t, Returns c) /\
     ExternalMemory.size (Cache.memory c) = NUM_ELEMENTS cfg / MyBLOCK_SIZE cfg /\
     Cache.getHits c + Cache.getMisses c = NUM_ELEMENTS cfg /\
     Cache.getPrefetchHits c <= Cache.getMisses c * PREFETCH_DISTANCE cfg /\
     (0 < NUM_ELEMENTS cfg -> is_nan (Cache.getHitRate c) = false)) /\
  (MyBLOCK_SIZE cfg <> 0 ->
   ExternalMemory.make cfg (NUM_ELEMENTS cfg / MyBLOCK_SIZE cfg) = Undefined ->
   CacheSimulator.run_simulation cfg uniform_real uniform_int seed = ([], Undefined)).
Proof.
  split.
  - intros Hne Hbs Hpd Hint.
    assert (Hn : NUM_ELEMENTS cfg < SizeT.modulus) by (unfold SizeT.modulus; lia).
    destruct (run_simulation_total cfg uniform_real uniform_int seed Hne Hbs Hpd Hint)
      as (t & c & memory & c0 & rs & Hrun & Hmem & Hmake & Hall).
    exists t, c. split; [done |].
    pose proof (access_all_memory _ _ _ _ _ _ Hall) as Emem.
    pose proof Hmake as [_ E0]%make_returns.
    match type of Hall with Cache.access_all _ _ ?l = _ => set (addrs := l) in * end.
    assert (Hlen : length addrs = N.to_nat (NUM_ELEMENTS cfg)) by apply addresses_length.
    split.
    { rewrite Emem, E0. simpl. by apply make_store_returns in Hmem as [-> _]. }
    destruct (access_all_hits_misses cfg addrs c0 t rs c 0 0) as (Hl & Eh & Em);
      [by rewrite E0 | by rewrite E0 | exact Hall |].
    destruct (access_all_counters cfg addrs c0 t rs c 0) as (Hk & Em' & Hp);
      [by rewrite E0 | rewrite E0; simpl; lia | exact Hall |].
    rewrite Hlen in Hl, Hk. rewrite N.add_0_l in Eh, Em, Em', Hp.
    pose proof (count_true_false rs) as Hsum. rewrite Hl in Hsum.
    unfold Cache.getHits, Cache.getMisses, Cache.getPrefetchHits.
    assert (Eh' : Cache.hits c = count_true rs).
    { rewrite Eh. unfold SizeT.wrap. apply N.mod_small. lia. }
    assert (Em'' : Cache.misses c = count_false rs).
    { rewrite Em. unfold SizeT.wrap. apply N.mod_small. lia. }
    assert (Emt : Cache.misses c = count_misses t).
    { rewrite Em'. unfold SizeT.wrap. apply N.mod_small. lia. }
    split; [lia |]. split; [by rewrite Emt |].
    intros Hpos. unfold Cache.getHitRate.
    apply quotient_cases.
    + lia.
    + apply add_lt_modulus.
    + unfold SizeT.add, SizeT.wrap. rewrite N.mod_small by lia. lia.
  - intros Hbs Hu. unfold CacheSimulator.run_simulation, SizeT.div.
    destruct (N.eqb_spec (MyBLOCK_SIZE cfg) 0) as [| _]; [done |].
    cbn [lift bind ret]. by rewrite Hu.
Qed.

Lemma simulation_runs_to_its_end_witness :
  (SizeT.mul (MyBLOCK_SIZE (source_config 2)) (NUM_WAYS (source_config 2)) <> 0 /\
   2 <= MyBLOCK_SIZE (source_config 2) /\
   PREFETCH_DISTANCE (source_config 2) < 2 ^ 63 /\
   NUM_ELEMENTS (source_config 2) <= 2 ^ 31 /\
   exists t c,
     CacheSimulator.run_simulation (source_config 2) counting_real upper_int 0
       = (t, Returns c) /\
     ExternalMemory.size (Cache.memory c)
       = NUM_ELEMENTS (source_config 2) / MyBLOCK_SIZE (source_config 2) /\
     Cache.getHits c + Cache.getMisses c = NUM_ELEMENTS (source_config 2) /\
     Cache.getPrefetchHits c <= Cache.getMisses c * PREFETCH_DISTANCE (source_config 2) /\
     (0 < NUM_ELEMENTS (source_config 2) -> is_nan (Cache.getHitRate c) = false)) /\
  (MyBLOCK_SIZE three_element_config <> 0 /\
   ExternalMemory.make three_element_config
     (NUM_ELEMENTS three_element_config / MyBLOCK_SIZE three_element_config) = Undefined /\
   CacheSimulator.run_simulation three_element_config counting_real upper_int 0
     = ([], Undefined)).
Proof.
  assert (H1 : SizeT.mul (MyBLOCK_SIZE (source_config 2)) (NUM_WAYS (source_config 2)) <> 0)
    by (vm_compute; discriminate).
  assert (H2 : 2 <= MyBLOCK_SIZE (source_config 2)) by (vm_compute; discriminate).
  assert (H3 : PREFETCH_DISTANCE (source_config 2) < 2 ^ 63) by reflexivity.
  assert (H4 : NUM_ELEMENTS (source_config 2) <= 2 ^ 31) by (vm_compute; discriminate).
  assert (H5 : MyBLOCK_SIZE three_element_config <> 0) by discriminate.
  assert (H6 : ExternalMemory.make three_element_config
                 (NUM_ELEMENTS three_element_config / MyBLOCK_SIZE three_element_config)
               = Undefined).
  { apply (store_overflow_undefined three_element_config 715827883 715827882 2%nat);
      [reflexivity | reflexivity | vm_compute; reflexivity]. }
  split.
  - split; [exact H1 |]. split; [exact H2 |]. split; [exact H3 |]. split; [exact H4 |].
    exact (proj1 (simulation_runs_to_its_end (source_config 2) counting_real upper_int 0)
             H1 H2 H3 H4).
  - split; [exact H5 |]. split; [exact H6 |].
    exact (proj2 (simulation_runs_to_its_end three_element_config counting_real
                    upper_int 0) H5 H6).
Defined.
